(** * LevelDB write path: write batch, arena and LRU cache

    A shallow embedding of [db/write_batch.cc], [util/arena.h],
    [util/cache.cc] and the reference count of [db/memtable.h], with the
    properties of the write-path specification stated and proved over it,
    followed by further properties of the same code.

    Conventions.
    - Fixed-width C++ integers are [Z] with the wrap-around written at each
      arithmetic operation ([to_uint32], [to_int32], [to_uint64]).
    - [std::string] and [Slice] are [list byte].
    - Stateful methods take the object and return the updated object.
    - An outcome [None] stands for what has no result in C++: a failed
      [assert], the dereference of a freed handle, a loop that never ends. *)

From Stdlib Require Import ZArith Lia List String.
From Stdlib.Strings Require Import Byte.
From stdpp Require Import base option list gmap gmultiset strings.

Open Scope Z_scope.

(** ** Machine integers *)

Definition to_uint32 (z : Z) : Z := z mod 2 ^ 32.
Definition to_uint64 (z : Z) : Z := z mod 2 ^ 64.
Definition to_int32 (z : Z) : Z := (z + 2 ^ 31) mod 2 ^ 32 - 2 ^ 31.

(** ** Bytes *)

#[global] Instance byte_eq_decision : EqDecision byte := Byte.byte_eq_dec.

Abbreviation Slice := (list byte).

Definition Z_of_byte (b : byte) : Z := Z.of_N (Byte.to_N b).

(** [static_cast<char>]: the low eight bits. *)
Definition byte_of_Z (z : Z) : byte :=
  default x00 (Byte.of_N (Z.to_N (z mod 256))).

(** ** Status *)

Inductive Status :=
| OK
| Corruption (msg : string).

#[global] Instance Status_eq_decision : EqDecision Status.
Proof. solve_decision. Defined.

(** ** Byte coding helpers ([util/coding.h]) *)

Module Coding.

(** Modelled from the spec: [util/coding.h] is not among the sources.  The
    header fields are [u32_le] and [u64_le]: little-endian, fixed width. *)
Fixpoint EncodeFixed (width : nat) (v : Z) : list byte :=
  match width with
  | O => []
  | S w => byte_of_Z v :: EncodeFixed w (v / 256)
  end.

Fixpoint DecodeFixed (width : nat) (p : list byte) : Z :=
  match width, p with
  | S w, b :: p' => Z_of_byte b + 256 * DecodeFixed w p'
  | _, _ => 0
  end.

Definition EncodeFixed32 (v : Z) : list byte := EncodeFixed 4 v.
Definition DecodeFixed32 (p : list byte) : Z := DecodeFixed 4 p.
Definition EncodeFixed64 (v : Z) : list byte := EncodeFixed 8 v.
Definition DecodeFixed64 (p : list byte) : Z := DecodeFixed 8 p.

(** Modelled from the spec: [varint32], the length prefix of a varstring:
    seven value bits per byte, least significant group first, the high bit
    of a byte set when more bytes follow.  The argument is a [uint32_t]. *)
Fixpoint put_varint (more : nat) (v : Z) : list byte :=
  match more with
  | O => [byte_of_Z v]
  | S m =>
      if v <? 128 then [byte_of_Z v]
      else byte_of_Z (v mod 128 + 128) :: put_varint m (v / 128)
  end.

Definition PutVarint32 (dst : list byte) (v : Z) : list byte :=
  dst ++ put_varint 4 (to_uint32 v).

(** Modelled from the spec: the decoder of [varint32].  It reads at most
    five bytes (shifts 0, 7, ..., 28), accumulates in a [uint32_t], and
    fails when the input ends or the fifth byte still has its high bit. *)
Fixpoint get_varint (bytes_left : nat) (shift : Z) (result : Z)
    (input : Slice) : option (Z * Slice) :=
  match bytes_left, input with
  | S n, b :: rest =>
      let byte := Z_of_byte b in
      if 128 <=? byte
      then get_varint n (shift + 7) (result + (byte - 128) * 2 ^ shift) rest
      else Some (to_uint32 (result + byte * 2 ^ shift), rest)
  | _, _ => None
  end.

Definition GetVarint32 (input : Slice) : option (Z * Slice) :=
  get_varint 5 0 0 input.

(** Modelled from the spec: [varstring = varint32(len) ‖ bytes[len]]. *)
Definition PutLengthPrefixedSlice (dst : list byte) (value : Slice)
    : list byte :=
  PutVarint32 dst (Z.of_nat (length value)) ++ value.

Definition GetLengthPrefixedSlice (input : Slice) : option (Slice * Slice) :=
  match GetVarint32 input with
  | Some (len, rest) =>
      if len <=? Z.of_nat (length rest)
      then Some (take (Z.to_nat len) rest, drop (Z.to_nat len) rest)
      else None
  | None => None
  end.

End Coding.

(** ** Write batch ([db/write_batch.cc]) *)

Module WriteBatch.
Import Coding.

(** Modelled from the spec: the value-type tags of [db/dbformat.h], which is
    not among the sources: [PUT = 1], [DEL = 0]. *)
Inductive ValueType := kTypeDeletion | kTypeValue.

Definition ValueType_tag (t : ValueType) : Z :=
  match t with kTypeDeletion => 0 | kTypeValue => 1 end.

#[global] Instance ValueType_eq_decision : EqDecision ValueType.
Proof. solve_decision. Defined.

(** [WriteBatch::rep_]: sequence (fixed64), count (fixed32), records. *)
Record WriteBatch := { rep_ : list byte }.

Definition kHeader : nat := 12.

(** The consumer interface [WriteBatch::Handler]; the handler object is
    passed through the calls made on it. *)
Class Handler (H : Type) := {
  handler_Put : Slice → Slice → H → H;
  handler_Delete : Slice → H → H
}.

Definition Clear (b : WriteBatch) : WriteBatch :=
  {| rep_ := replicate kHeader x00 |}.

(** The constructor [WriteBatch::WriteBatch() { Clear(); }]. *)
Definition WriteBatch_new : WriteBatch := Clear {| rep_ := [] |}.

Definition ApproximateSize (b : WriteBatch) : Z := Z.of_nat (length (rep_ b)).

(** [WriteBatchInternal::Count] returns an [int]. *)
Definition Count (b : WriteBatch) : Z :=
  to_int32 (DecodeFixed32 (drop 8 (rep_ b))).

(** [EncodeFixed32(&b->rep_[8], n)] overwrites bytes 8..11 in place. *)
Definition SetCount (b : WriteBatch) (n : Z) : WriteBatch :=
  {| rep_ := take 8 (rep_ b) ++ EncodeFixed32 n ++ drop kHeader (rep_ b) |}.

Definition Sequence (b : WriteBatch) : Z := DecodeFixed64 (rep_ b).

Definition SetSequence (b : WriteBatch) (seq : Z) : WriteBatch :=
  {| rep_ := EncodeFixed64 seq ++ drop 8 (rep_ b) |}.

Definition Put (key value : Slice) (b : WriteBatch) : WriteBatch :=
  let b := SetCount b (to_int32 (Count b + 1)) in
  let rep := rep_ b ++ [byte_of_Z (ValueType_tag kTypeValue)] in
  let rep := PutLengthPrefixedSlice rep key in
  let rep := PutLengthPrefixedSlice rep value in
  {| rep_ := rep |}.

Definition Delete (key : Slice) (b : WriteBatch) : WriteBatch :=
  let b := SetCount b (to_int32 (Count b + 1)) in
  let rep := rep_ b ++ [byte_of_Z (ValueType_tag kTypeDeletion)] in
  let rep := PutLengthPrefixedSlice rep key in
  {| rep_ := rep |}.

(** How the record loop of [Iterate] ends: by a [return] inside the loop,
    or by running out of input with [found] records seen. *)
Inductive LoopExit :=
| Returned (s : Status)
| Finished (found : Z).

Section Iterate.
Context {H : Type} `{Handler H}.

(** The [while (!input.empty())] loop.  Every round removes at least the
    tag byte, so [length input] rounds are always enough; [None] is the
    outcome of a run that is given fewer. *)
Fixpoint Iterate_loop (rounds : nat) (input : Slice) (found : Z) (handler : H)
    : option (LoopExit * H) :=
  match input with
  | [] => Some (Finished found, handler)
  | tag :: input =>
      match rounds with
      | O => None
      | S rounds =>
          let found := to_int32 (found + 1) in
          if Z_of_byte tag =? ValueType_tag kTypeValue then
            match GetLengthPrefixedSlice input with
            | Some (key, input) =>
                match GetLengthPrefixedSlice input with
                | Some (value, input) =>
                    Iterate_loop rounds input found (handler_Put key value handler)
                | None => Some (Returned (Corruption "bad WriteBatch Put"), handler)
                end
            | None => Some (Returned (Corruption "bad WriteBatch Put"), handler)
            end
          else if Z_of_byte tag =? ValueType_tag kTypeDeletion then
            match GetLengthPrefixedSlice input with
            | Some (key, input) =>
                Iterate_loop rounds input found (handler_Delete key handler)
            | None => Some (Returned (Corruption "bad WriteBatch Delete"), handler)
            end
          else Some (Returned (Corruption "unknown WriteBatch tag"), handler)
      end
  end.

Definition Iterate (b : WriteBatch) (handler : H) : option (Status * H) :=
  let input := rep_ b in
  if (length input <? kHeader)%nat then
    Some (Corruption "malformed WriteBatch (too small)", handler)
  else
    let input := drop kHeader input in
    match Iterate_loop (length input) input 0 handler with
    | Some (Returned s, handler) => Some (s, handler)
    | Some (Finished found, handler) =>
        if decide (found ≠ Count b)
        then Some (Corruption "WriteBatch has wrong count", handler)
        else Some (OK, handler)
    | None => None
    end.

End Iterate.

(** [WriteBatchInternal::Append]; the [assert] on the source's size sits
    between the count update and the copy. *)
Definition Append (dst src : WriteBatch) : option WriteBatch :=
  let dst := SetCount dst (to_int32 (Count dst + Count src)) in
  if (kHeader <=? length (rep_ src))%nat
  then Some {| rep_ := rep_ dst ++ drop kHeader (rep_ src) |}
  else None.

Definition SetContents (b : WriteBatch) (contents : Slice) : option WriteBatch :=
  if (kHeader <=? length contents)%nat then Some {| rep_ := contents |} else None.

(** *** A recording handler *)

(** One call on a handler. *)
Inductive Op :=
| OpPut (key value : Slice)
| OpDelete (key : Slice).

#[global] Instance Op_eq_decision : EqDecision Op.
Proof. solve_decision. Defined.

(** The handler that appends each call it receives to a log. *)
#[global] Instance Recorder : Handler (list Op) := {
  handler_Put key value log := log ++ [OpPut key value];
  handler_Delete key log := log ++ [OpDelete key]
}.

(** The calls of a log made on any handler, in order. *)
Definition dispatch {H : Type} `{Handler H} (ops : list Op) (handler : H) : H :=
  fold_left (λ h op,
    match op with
    | OpPut key value => handler_Put key value h
    | OpDelete key => handler_Delete key h
    end) ops handler.

(** The batch methods of a log applied to a batch, in order. *)
Definition apply_ops (ops : list Op) (b : WriteBatch) : WriteBatch :=
  fold_left (λ b op,
    match op with
    | OpPut key value => Put key value b
    | OpDelete key => Delete key b
    end) ops b.

(** *** Replay into a memtable *)

(** [MemTable::Add] is defined in [db/memtable.cc], which is not among the
    sources; a memtable is represented here by the calls of [Add] it has
    received, oldest first. *)
Record AddCall := {
  add_seq : Z;
  add_type : ValueType;
  add_key : Slice;
  add_value : Slice
}.

#[global] Instance AddCall_eq_decision : EqDecision AddCall.
Proof. solve_decision. Defined.

Abbreviation MemTable := (list AddCall).

Definition MemTable_Add (seq : Z) (type : ValueType) (key value : Slice)
    (mem : MemTable) : MemTable :=
  mem ++ [{| add_seq := seq; add_type := type; add_key := key; add_value := value |}].

(** [MemTableInserter]: [sequence_] is a [uint64_t] ([SequenceNumber]). *)
Record MemTableInserter := {
  sequence_ : Z;
  mem_ : MemTable
}.

#[global] Instance MemTableInserter_Handler : Handler MemTableInserter := {
  handler_Put key value ins :=
    {| mem_ := MemTable_Add (sequence_ ins) kTypeValue key value (mem_ ins);
       sequence_ := to_uint64 (sequence_ ins + 1) |};
  handler_Delete key ins :=
    {| mem_ := MemTable_Add (sequence_ ins) kTypeDeletion key [] (mem_ ins);
       sequence_ := to_uint64 (sequence_ ins + 1) |}
}.

Definition InsertInto (b : WriteBatch) (memtable : MemTable)
    : option (Status * MemTable) :=
  let inserter := {| sequence_ := Sequence b; mem_ := memtable |} in
  match Iterate b inserter with
  | Some (s, inserter) => Some (s, mem_ inserter)
  | None => None
  end.

(** *** The wire format, in the words of the specification

    [batch := seq:u64_le count:u32_le record*],
    [record := tag:u8 varstring(key) [varstring(value) if tag=1]],
    [varstring := varint32(len) bytes[len]]. *)

(** [input] starts with the varstring of [s] and continues with [rest]. *)
Definition Varstring (input s rest : Slice) : Prop :=
  GetLengthPrefixedSlice input = Some (s, rest).

(** No varstring can be read at the start of [input]: the length prefix
    or the bytes it announces are cut short. *)
Definition Truncated (input : Slice) : Prop :=
  GetLengthPrefixedSlice input = None.

(** [Parses input ops rest]: [input] is the records of [ops], in order,
    followed by [rest]. *)
Inductive Parses : Slice → list Op → Slice → Prop :=
| Parses_done input : Parses input [] input
| Parses_put tag input key input1 value input2 ops rest :
    Z_of_byte tag = ValueType_tag kTypeValue →
    Varstring input key input1 →
    Varstring input1 value input2 →
    Parses input2 ops rest →
    Parses (tag :: input) (OpPut key value :: ops) rest
| Parses_delete tag input key input1 ops rest :
    Z_of_byte tag = ValueType_tag kTypeDeletion →
    Varstring input key input1 →
    Parses input1 ops rest →
    Parses (tag :: input) (OpDelete key :: ops) rest.

(** [Malformed input msg]: no record can be read at the start of [input],
    and [msg] says why. *)
Inductive Malformed : Slice → string → Prop :=
| Malformed_put_key tag input :
    Z_of_byte tag = ValueType_tag kTypeValue →
    Truncated input →
    Malformed (tag :: input) "bad WriteBatch Put"
| Malformed_put_value tag input key input1 :
    Z_of_byte tag = ValueType_tag kTypeValue →
    Varstring input key input1 →
    Truncated input1 →
    Malformed (tag :: input) "bad WriteBatch Put"
| Malformed_delete tag input :
    Z_of_byte tag = ValueType_tag kTypeDeletion →
    Truncated input →
    Malformed (tag :: input) "bad WriteBatch Delete"
| Malformed_tag tag input :
    Z_of_byte tag ≠ ValueType_tag kTypeValue →
    Z_of_byte tag ≠ ValueType_tag kTypeDeletion →
    Malformed (tag :: input) "unknown WriteBatch tag".

(** The header's count field, as the [uint32_t] that is stored. *)
Definition count_field (b : WriteBatch) : Z := DecodeFixed32 (drop 8 (rep_ b)).

(** The record area: what follows the 12-byte header. *)
Definition records (b : WriteBatch) : Slice := drop kHeader (rep_ b).

(** The outcome the specification gives to [iterate] on a batch: the status
    and the operations handed to the handler. *)
Inductive IterateSpec (b : WriteBatch) : Status → list Op → Prop :=
| Spec_too_small :
    (length (rep_ b) < kHeader)%nat →
    IterateSpec b (Corruption "malformed WriteBatch (too small)") []
| Spec_malformed ops rest msg :
    (kHeader <= length (rep_ b))%nat →
    Parses (records b) ops rest →
    Malformed rest msg →
    IterateSpec b (Corruption msg) ops
| Spec_wrong_count ops :
    (kHeader <= length (rep_ b))%nat →
    Parses (records b) ops [] →
    to_int32 (Z.of_nat (length ops)) ≠ Count b →
    IterateSpec b (Corruption "WriteBatch has wrong count") ops
| Spec_ok ops :
    (kHeader <= length (rep_ b))%nat →
    Parses (records b) ops [] →
    to_int32 (Z.of_nat (length ops)) = Count b →
    IterateSpec b OK ops.

(** The sizes a varstring can carry: its length prefix is a [varint32]. *)
Definition fits_varstring (s : Slice) : Prop := Z.of_nat (length s) < 2 ^ 32.

Definition op_fits (op : Op) : Prop :=
  match op with
  | OpPut key value => fits_varstring key ∧ fits_varstring value
  | OpDelete key => fits_varstring key
  end.

(** The bytes that [Put] and [Delete] add for an operation. *)
Definition record_bytes (op : Op) : list byte :=
  match op with
  | OpPut key value =>
      byte_of_Z (ValueType_tag kTypeValue)
        :: PutLengthPrefixedSlice [] key ++ PutLengthPrefixedSlice [] value
  | OpDelete key =>
      byte_of_Z (ValueType_tag kTypeDeletion) :: PutLengthPrefixedSlice [] key
  end.

(** [found] after [n] more rounds of the loop: a C++ [int] incremented
    [n] times. *)
Definition found_after (n : nat) (found : Z) : Z :=
  Nat.iter n (λ f, to_int32 (f + 1)) found.

(** The [Add] call that the memtable inserter makes for the [i]-th record of a
    batch whose header sequence is [seq]. *)
Definition add_of (seq : Z) (i : nat) (op : Op) : AddCall :=
  match op with
  | OpPut key value =>
      {| add_seq := seq + Z.of_nat i; add_type := kTypeValue;
         add_key := key; add_value := value |}
  | OpDelete key =>
      {| add_seq := seq + Z.of_nat i; add_type := kTypeDeletion;
         add_key := key; add_value := [] |}
  end.

End WriteBatch.

(** ** Arena ([util/arena.h]) *)

Module Arena.

(** A pointer into the arena's memory: the block, by its position in
    [blocks_], and the offset inside it. *)
Inductive Ptr :=
| nullptr
| at_block (block : nat) (offset : Z).

Definition ptr_add (p : Ptr) (n : Z) : Ptr :=
  match p with
  | nullptr => nullptr
  | at_block block offset => at_block block (offset + n)
  end.

(** [blocks_] holds the size of each block allocated so far. *)
Record Arena := {
  alloc_ptr_ : Ptr;
  alloc_bytes_remaining_ : Z;
  blocks_ : list Z;
  memory_usage_ : Z
}.

Definition kBlockSize : Z := 4096.

Section Allocation.

(** The bookkeeping that [memory_usage] counts for each block, on top of the
    block's bytes. *)
Variable bookkeeping : Z.

(** Modelled from the spec: the constructor is in [util/arena.cc], which is
    not among the sources.  A fresh arena has no current block. *)
Definition Arena_new : Arena :=
  {| alloc_ptr_ := nullptr; alloc_bytes_remaining_ := 0;
     blocks_ := []; memory_usage_ := 0 |}.

(** Modelled from the spec: [AllocateNewBlock] of [util/arena.cc]; a block
    is allocated and recorded, and [memory_usage] "reports total bytes of
    blocks held plus bookkeeping". *)
Definition AllocateNewBlock (block_bytes : Z) (a : Arena) : Ptr * Arena :=
  (at_block (length (blocks_ a)) 0,
   {| alloc_ptr_ := alloc_ptr_ a;
      alloc_bytes_remaining_ := alloc_bytes_remaining_ a;
      blocks_ := blocks_ a ++ [block_bytes];
      memory_usage_ := memory_usage_ a + block_bytes + bookkeeping |}).

(** Modelled from the spec: [AllocateFallback] of [util/arena.cc], steps 2
    and 3 of the allocation algorithm: "if [n > block_size/4], allocate a
    dedicated block of exactly [n] bytes, record it, and return it without
    disturbing the current block's remaining space; else allocate a fresh
    4096-byte block, replace the current block (discarding the leftover),
    and satisfy the request from it". *)
Definition AllocateFallback (bytes : Z) (a : Arena) : Ptr * Arena :=
  if kBlockSize / 4 <? bytes then AllocateNewBlock bytes a
  else
    let '(result, a) := AllocateNewBlock kBlockSize a in
    (result,
     {| alloc_ptr_ := ptr_add result bytes;
        alloc_bytes_remaining_ := kBlockSize - bytes;
        blocks_ := blocks_ a;
        memory_usage_ := memory_usage_ a |}).

(** [Arena::Allocate], from [util/arena.h]. *)
Definition Allocate (bytes : Z) (a : Arena) : option (Ptr * Arena) :=
  if negb (0 <? bytes) then None
  else if bytes <=? alloc_bytes_remaining_ a then
    let result := alloc_ptr_ a in
    Some (result,
          {| alloc_ptr_ := ptr_add (alloc_ptr_ a) bytes;
             alloc_bytes_remaining_ := alloc_bytes_remaining_ a - bytes;
             blocks_ := blocks_ a;
             memory_usage_ := memory_usage_ a |})
  else Some (AllocateFallback bytes a).

Definition MemoryUsage (a : Arena) : Z := memory_usage_ a.

(** A run of [Allocate] calls, with the pointers they return. *)
Fixpoint Allocates (sizes : list Z) (a : Arena) : option (list Ptr * Arena) :=
  match sizes with
  | [] => Some ([], a)
  | bytes :: sizes =>
      '(result, a) ← Allocate bytes a;
      '(results, a) ← Allocates sizes a;
      Some (result :: results, a)
  end.

(** The bytes that a run of requests asks for. *)
Definition total_bytes (sizes : list Z) : Z := foldr Z.add 0 sizes.

End Allocation.

End Arena.

(** ** Reference count of the memtable ([db/memtable.h]) *)

Module MemTableRefs.

Definition INT_MAX : Z := 2 ^ 31 - 1.
Definition INT_MIN : Z := - 2 ^ 31.

(** A [MemTable] as far as [Ref] and [Unref] go: its [int refs_], until
    [delete this]. *)
Inductive MemTable :=
| Live (refs_ : Z)
| Deleted.

#[global] Instance MemTable_eq_decision : EqDecision MemTable.
Proof. solve_decision. Defined.

(** [void Ref() { ++refs_; }].  An [int] that overflows and a call on a
    deleted object have no outcome. *)
Definition Ref (m : MemTable) : option MemTable :=
  match m with
  | Live refs_ =>
      guard (refs_ + 1 <= INT_MAX);;
      Some (Live (refs_ + 1))
  | Deleted => None
  end.

(** [void Unref()]: [--refs_; assert(refs_ >= 0); if (refs_ <= 0) delete
    this;]. *)
Definition Unref (m : MemTable) : option MemTable :=
  match m with
  | Live refs_ =>
      guard (INT_MIN <= refs_ - 1);;
      let refs_ := refs_ - 1 in
      guard (0 <= refs_);;
      if decide (refs_ <= 0) then Some Deleted else Some (Live refs_)
  | Deleted => None
  end.

(** The calls of the owners of a memtable. *)
Inductive Call := DoRef | DoUnref.

Definition call (c : Call) (m : MemTable) : option MemTable :=
  match c with
  | DoRef => Ref m
  | DoUnref => Unref m
  end.

Fixpoint calls (cs : list Call) (m : MemTable) : option MemTable :=
  match cs with
  | [] => Some m
  | c :: cs => m ← call c m; calls cs m
  end.

(** The references taken less the references dropped. *)
Definition balance (cs : list Call) : Z :=
  foldr (λ c acc, match c with DoRef => 1 | DoUnref => -1 end + acc) 0 cs.

End MemTableRefs.

(** ** LRU cache ([util/cache.cc]) *)

Module Cache.

(** The address of a heap-allocated [LRUHandle]. *)
Abbreviation ptr := nat.

(** [struct LRUHandle].  The link fields [next_hash], [next] and [prev] are
    not fields here: a bucket's chain and the two circular lists are the
    sequences of handles that these links thread.  [value] and [deleter]
    are opaque to the cache and stand as numbers. *)
Record LRUHandle := {
  value : Z;
  deleter : Z;
  charge : Z;
  key_data : Slice;
  in_cache : bool;
  refs : Z;
  hash : Z
}.

Definition key (h : LRUHandle) : Slice := key_data h.

Definition set_refs (r : Z) (h : LRUHandle) : LRUHandle :=
  {| value := value h; deleter := deleter h; charge := charge h;
     key_data := key_data h; in_cache := in_cache h; refs := r; hash := hash h |}.

Definition set_in_cache (c : bool) (h : LRUHandle) : LRUHandle :=
  {| value := value h; deleter := deleter h; charge := charge h;
     key_data := key_data h; in_cache := c; refs := refs h; hash := hash h |}.

(** The test of [FindPointer] on a chain entry: same hash and same key. *)
Definition handle_matches (h : LRUHandle) (k : Slice) (hsh : Z) : bool :=
  bool_decide (hash h = hsh ∧ key h = k).

(** The handles that are allocated and not freed. *)
Abbreviation Heap := (gmap ptr LRUHandle).

(** [class HandleTable]: [list_] is the array of buckets, each the chain
    of handles linked by [next_hash], head first. *)
Record HandleTable := {
  length_ : Z;
  elems_ : Z;
  list_ : list (list ptr)
}.

Module Table.

(** A slot: the bucket and the position in its chain; the position after
    the last handle is the trailing slot. *)
Definition slot_bucket (t : HandleTable) (hash : Z) : nat :=
  Z.to_nat (Z.land hash (length_ t - 1)).

Fixpoint find_in_chain (heap : Heap) (key : Slice) (hash : Z) (chain : list ptr)
    : option nat :=
  match chain with
  | [] => Some 0%nat
  | p :: chain =>
      h ← heap !! p;
      if handle_matches h key hash then Some 0%nat
      else S <$> find_in_chain heap key hash chain
  end.

Definition FindPointer (heap : Heap) (t : HandleTable) (key : Slice) (hash : Z)
    : option (nat * nat) :=
  let i := slot_bucket t hash in
  chain ← list_ t !! i;
  pos ← find_in_chain heap key hash chain;
  Some (i, pos).

(** What a slot points to; [None] is [nullptr]. *)
Definition deref (t : HandleTable) (slot : nat * nat) : option ptr :=
  chain ← list_ t !! slot.1; chain !! slot.2.

Definition Lookup (heap : Heap) (t : HandleTable) (key : Slice) (hash : Z)
    : option (option ptr) :=
  slot ← FindPointer heap t key hash;
  Some (deref t slot).

(** [while (new_length < elems_) new_length *= 2] on [uint32_t]: at most
    30 doublings before the value wraps to 0 and stays there. *)
Fixpoint grow (rounds : nat) (new_length elems : Z) : option Z :=
  if new_length <? elems then
    match rounds with
    | O => None
    | S rounds => grow rounds (to_uint32 (new_length * 2)) elems
    end
  else Some new_length.

(** The rehashing loop of [Resize]: each handle goes to the head of its
    new bucket. *)
Fixpoint rehash (heap : Heap) (new_length : Z) (hs : list ptr)
    (new_list : list (list ptr)) : option (list (list ptr)) :=
  match hs with
  | [] => Some new_list
  | p :: hs =>
      h ← heap !! p;
      let j := Z.to_nat (Z.land (hash h) (new_length - 1)) in
      chain ← new_list !! j;
      rehash heap new_length hs (<[j := p :: chain]> new_list)
  end.

Definition Resize (heap : Heap) (t : HandleTable) : option HandleTable :=
  new_length ← grow 32 4 (elems_ t);
  let old := mjoin (take (Z.to_nat (length_ t)) (list_ t)) in
  new_list ← rehash heap new_length old (replicate (Z.to_nat new_length) []);
  guard (elems_ t = to_uint32 (Z.of_nat (length old)));;
  Some {| length_ := new_length; elems_ := elems_ t; list_ := new_list |}.

(** The constructor runs [Resize] on a table without buckets. *)
Definition HandleTable_new : HandleTable :=
  {| length_ := 4; elems_ := 0; list_ := replicate 4 [] |}.

Definition Insert (heap : Heap) (t : HandleTable) (h : ptr)
    : option (HandleTable * option ptr) :=
  e ← heap !! h;
  slot ← FindPointer heap t (key e) (hash e);
  chain ← list_ t !! slot.1;
  let old := chain !! slot.2 in
  let chain :=
    match old with
    | Some _ => <[slot.2 := h]> chain
    | None => chain ++ [h]
    end in
  let t := {| length_ := length_ t; elems_ := elems_ t;
              list_ := <[slot.1 := chain]> (list_ t) |} in
  match old with
  | Some _ => Some (t, old)
  | None =>
      let t := {| length_ := length_ t; elems_ := to_uint32 (elems_ t + 1);
                  list_ := list_ t |} in
      t ← (if length_ t <? elems_ t then Resize heap t else Some t);
      Some (t, old)
  end.

Definition Remove (heap : Heap) (t : HandleTable) (key : Slice) (hash : Z)
    : option (HandleTable * option ptr) :=
  slot ← FindPointer heap t key hash;
  chain ← list_ t !! slot.1;
  match chain !! slot.2 with
  | Some result =>
      Some ({| length_ := length_ t; elems_ := to_uint32 (elems_ t - 1);
               list_ := <[slot.1 := delete slot.2 chain]> (list_ t) |},
            Some result)
  | None => Some (t, None)
  end.

End Table.

(** A call of a handle's deleter on the handle's key and value; the handle
    it is made for is kept with it. *)
Record DeleterCall := {
  dc_handle : ptr;
  dc_deleter : Z;
  dc_key : Slice;
  dc_value : Z
}.

(** [class LRUCache], one shard.  [lru_] and [in_use_] are the two lists
    from [.next] (oldest) to [.prev] (newest).  The last three fields are
    the memory the shard works on: the live handles, the next address
    [malloc] gives out, and the deleter calls made so far. *)
Record LRUCache := {
  capacity_ : Z;
  usage_ : Z;
  lru_ : list ptr;
  in_use_ : list ptr;
  table_ : HandleTable;
  handles : Heap;
  next_handle : ptr;
  deleter_calls : list DeleterCall
}.

Definition set_usage (u : Z) (c : LRUCache) : LRUCache :=
  {| capacity_ := capacity_ c; usage_ := u; lru_ := lru_ c; in_use_ := in_use_ c;
     table_ := table_ c; handles := handles c; next_handle := next_handle c;
     deleter_calls := deleter_calls c |}.

Definition set_lru (l : list ptr) (c : LRUCache) : LRUCache :=
  {| capacity_ := capacity_ c; usage_ := usage_ c; lru_ := l; in_use_ := in_use_ c;
     table_ := table_ c; handles := handles c; next_handle := next_handle c;
     deleter_calls := deleter_calls c |}.

Definition set_in_use (l : list ptr) (c : LRUCache) : LRUCache :=
  {| capacity_ := capacity_ c; usage_ := usage_ c; lru_ := lru_ c; in_use_ := l;
     table_ := table_ c; handles := handles c; next_handle := next_handle c;
     deleter_calls := deleter_calls c |}.

Definition set_table (t : HandleTable) (c : LRUCache) : LRUCache :=
  {| capacity_ := capacity_ c; usage_ := usage_ c; lru_ := lru_ c;
     in_use_ := in_use_ c; table_ := t; handles := handles c;
     next_handle := next_handle c; deleter_calls := deleter_calls c |}.

Definition set_handles (m : Heap) (c : LRUCache) : LRUCache :=
  {| capacity_ := capacity_ c; usage_ := usage_ c; lru_ := lru_ c;
     in_use_ := in_use_ c; table_ := table_ c; handles := m;
     next_handle := next_handle c; deleter_calls := deleter_calls c |}.

(** [LRUCache::LRUCache()]: capacity 0, both lists empty. *)
Definition LRUCache_new : LRUCache :=
  {| capacity_ := 0; usage_ := 0; lru_ := []; in_use_ := [];
     table_ := Table.HandleTable_new; handles := ∅; next_handle := 0%nat;
     deleter_calls := [] |}.

Definition SetCapacity (capacity : Z) (c : LRUCache) : LRUCache :=
  {| capacity_ := capacity; usage_ := usage_ c; lru_ := lru_ c;
     in_use_ := in_use_ c; table_ := table_ c; handles := handles c;
     next_handle := next_handle c; deleter_calls := deleter_calls c |}.

Definition TotalCharge (c : LRUCache) : Z := usage_ c.

(** The two list heads. *)
Inductive ListHead := the_lru | the_in_use.

(** [LRU_Remove(e)] unlinks [e] from the list it is on; on a handle that is
    on neither list its links are not those of a list. *)
Definition LRU_Remove (e : ptr) (c : LRUCache) : option LRUCache :=
  if decide (e ∈ lru_ c) then Some (set_lru (filter (λ p, p ≠ e) (lru_ c)) c)
  else if decide (e ∈ in_use_ c)
  then Some (set_in_use (filter (λ p, p ≠ e) (in_use_ c)) c)
  else None.

(** [LRU_Append(list, e)] makes [e] the newest entry of [list]. *)
Definition LRU_Append (list : ListHead) (e : ptr) (c : LRUCache) : LRUCache :=
  match list with
  | the_lru => set_lru (lru_ c ++ [e]) c
  | the_in_use => set_in_use (in_use_ c ++ [e]) c
  end.

Definition Ref (e : ptr) (c : LRUCache) : option LRUCache :=
  h ← handles c !! e;
  c ← (if bool_decide (refs h = 1) && in_cache h
       then LRU_Append the_in_use e <$> LRU_Remove e c
       else Some c);
  Some (set_handles (<[e := set_refs (to_uint32 (refs h + 1)) h]> (handles c)) c).

Definition Unref (e : ptr) (c : LRUCache) : option LRUCache :=
  h ← handles c !! e;
  guard (0 < refs h);;
  let h := set_refs (to_uint32 (refs h - 1)) h in
  if bool_decide (refs h = 0) then
    guard (in_cache h = false);;
    Some {| capacity_ := capacity_ c; usage_ := usage_ c; lru_ := lru_ c;
            in_use_ := in_use_ c; table_ := table_ c;
            handles := delete e (handles c);
            next_handle := next_handle c;
            deleter_calls :=
              deleter_calls c
              ++ [{| dc_handle := e; dc_deleter := deleter h;
                     dc_key := key h; dc_value := value h |}] |}
  else
    let c := set_handles (<[e := h]> (handles c)) c in
    if in_cache h && bool_decide (refs h = 1)
    then LRU_Append the_lru e <$> LRU_Remove e c
    else Some c.

(** [FinishErase(e)]; the handle comes from the hash table, [None] being
    [nullptr].  Returns whether it was not [nullptr]. *)
Definition FinishErase (e : option ptr) (c : LRUCache) : option (bool * LRUCache) :=
  match e with
  | Some e =>
      h ← handles c !! e;
      guard (in_cache h = true);;
      c ← LRU_Remove e c;
      let c := set_handles (<[e := set_in_cache false h]> (handles c)) c in
      let c := set_usage (to_uint64 (usage_ c - charge h)) c in
      c ← Unref e c;
      Some (true, c)
  | None => Some (false, c)
  end.

Definition Lookup (key : Slice) (hash : Z) (c : LRUCache)
    : option (option ptr * LRUCache) :=
  e ← Table.Lookup (handles c) (table_ c) key hash;
  match e with
  | Some p => c ← Ref p c; Some (e, c)
  | None => Some (e, c)
  end.

Definition Release (handle : ptr) (c : LRUCache) : option LRUCache :=
  Unref handle c.

(** One round of the eviction loops of [Insert] and [Prune], on the oldest
    entry [old] of [lru_]. *)
Definition evict_oldest (old : ptr) (c : LRUCache) : option LRUCache :=
  h ← handles c !! old;
  guard (refs h = 1);;
  '(t, removed) ← Table.Remove (handles c) (table_ c) (key h) (hash h);
  '(erased, c) ← FinishErase removed (set_table t c);
  guard (erased = true);;
  Some c.

(** [while (usage_ > capacity_ && lru_.next != &lru_)]. *)
Fixpoint evict (rounds : nat) (c : LRUCache) : option LRUCache :=
  match lru_ c with
  | old :: _ =>
      if capacity_ c <? usage_ c then
        match rounds with
        | O => None
        | S rounds => c ← evict_oldest old c; evict rounds c
        end
      else Some c
  | [] => Some c
  end.

(** [LRUCache::Insert].  The eviction loop is given as many rounds as
    [lru_] has entries when it starts, one round per entry. *)
Definition Insert (key : Slice) (hash : Z) (value : Z) (charge : Z) (deleter : Z)
    (c : LRUCache) : option (ptr * LRUCache) :=
  let e := next_handle c in
  let h := {| value := value; deleter := deleter; charge := charge;
              key_data := key; in_cache := false; refs := 1; hash := hash |} in
  let c := {| capacity_ := capacity_ c; usage_ := usage_ c; lru_ := lru_ c;
              in_use_ := in_use_ c; table_ := table_ c;
              handles := <[e := h]> (handles c);
              next_handle := S (next_handle c);
              deleter_calls := deleter_calls c |} in
  c ← (if 0 <? capacity_ c then
         let h := set_in_cache true (set_refs (to_uint32 (refs h + 1)) h) in
         let c := set_handles (<[e := h]> (handles c)) c in
         let c := LRU_Append the_in_use e c in
         let c := set_usage (to_uint64 (usage_ c + charge)) c in
         '(t, old) ← Table.Insert (handles c) (table_ c) e;
         '(_, c) ← FinishErase old (set_table t c);
         Some c
       else Some c);
  c ← evict (length (lru_ c)) c;
  Some (e, c).

Definition Erase (key : Slice) (hash : Z) (c : LRUCache) : option LRUCache :=
  '(t, removed) ← Table.Remove (handles c) (table_ c) key hash;
  '(_, c) ← FinishErase removed (set_table t c);
  Some c.

(** [while (lru_.next != &lru_)]. *)
Fixpoint prune (rounds : nat) (c : LRUCache) : option LRUCache :=
  match lru_ c with
  | e :: _ =>
      match rounds with
      | O => None
      | S rounds => c ← evict_oldest e c; prune rounds c
      end
  | [] => Some c
  end.

Definition Prune (c : LRUCache) : option LRUCache :=
  prune (length (lru_ c)) c.

(** *** The shard and its client *)

(** The operations a client makes on a shard. *)
Inductive Operation :=
| DoInsert (key : Slice) (hash value charge deleter : Z)
| DoLookup (key : Slice) (hash : Z)
| DoRelease (handle : ptr)
| DoErase (key : Slice) (hash : Z)
| DoPrune.

(** A shard together with the handles its clients hold: one occurrence for
    each handle returned by [Insert] or [Lookup] and not yet released. *)
Record Client := {
  shard : LRUCache;
  held : gmultiset ptr
}.

Definition step (op : Operation) (s : Client) : option Client :=
  match op with
  | DoInsert key hash value charge deleter =>
      '(e, c) ← Insert key hash value charge deleter (shard s);
      Some {| shard := c; held := {[+ e +]} ⊎ held s |}
  | DoLookup key hash =>
      '(e, c) ← Lookup key hash (shard s);
      Some {| shard := c;
              held := match e with
                      | Some p => {[+ p +]} ⊎ held s
                      | None => held s
                      end |}
  | DoRelease handle =>
      c ← Release handle (shard s);
      Some {| shard := c; held := held s ∖ {[+ handle +]} |}
  | DoErase key hash =>
      c ← Erase key hash (shard s);
      Some {| shard := c; held := held s |}
  | DoPrune =>
      c ← Prune (shard s);
      Some {| shard := c; held := held s |}
  end.

(** The client contract: a handle is released by one who holds it. *)
Definition allowed (op : Operation) (s : Client) : Prop :=
  match op with
  | DoRelease handle => handle ∈ held s
  | _ => True
  end.

(** The empty shard of a given capacity, with no handle held. *)
Definition start (capacity : Z) : Client :=
  {| shard := SetCapacity capacity LRUCache_new; held := ∅ |}.

(** The states of a shard of the given capacity, with the operations that
    lead to them from the empty shard. *)
Inductive Reachable (capacity : Z) : list Operation → Client → Prop :=
| Reachable_init : Reachable capacity [] (start capacity)
| Reachable_step ops s op s' :
    Reachable capacity ops s →
    allowed op s →
    step op s = Some s' →
    Reachable capacity (ops ++ [op]) s'.

#[global] Instance allowed_dec op s : Decision (allowed op s).
Proof. destruct op; cbn; apply _. Defined.

(** Running a sequence of operations, as long as the client contract is
    kept and the shard returns. *)
Fixpoint run (ops : list Operation) (s : Client) : option Client :=
  match ops with
  | [] => Some s
  | op :: ops =>
      if decide (allowed op s) then s' ← step op s; run ops s' else None
  end.

Definition is_insert (op : Operation) : bool :=
  match op with
  | DoInsert _ _ _ _ _ => true
  | _ => false
  end.

(** The number of operations below which no 32-bit counter of the shard
    (a handle's [refs], the table's [elems_] and [length_]) can wrap. *)
Definition kMaxOperations : Z := 2 ^ 31.

(** *** Invariants *)

(** The handles in the hash table. *)
Definition entries (t : HandleTable) : list ptr := mjoin (list_ t).

Record table_ok (heap : Heap) (t : HandleTable) : Prop := {
  tok_pow : ∃ j : Z, 2 <= j <= 31 ∧ length_ t = 2 ^ j;
  tok_len : length (list_ t) = Z.to_nat (length_ t);
  tok_bucket : ∀ i chain p, list_ t !! i = Some chain → p ∈ chain →
    ∃ h, heap !! p = Some h ∧ Table.slot_bucket t (hash h) = i;
  tok_nodup : NoDup (entries t);
  tok_keys : ∀ p q hp hq, p ∈ entries t → q ∈ entries t →
    heap !! p = Some hp → heap !! q = Some hq →
    hash hp = hash hq → key hp = key hq → p = q;
  tok_elems : elems_ t = Z.of_nat (length (entries t))
}.

(** Each handle of a bucket is live and hashes to that bucket. *)
Definition buckets_ok (heap : Heap) (m : Z) (buckets : list (list ptr)) : Prop :=
  ∀ i chain p, buckets !! i = Some chain → p ∈ chain →
    ∃ h, heap !! p = Some h ∧ Z.to_nat (Z.land (hash h) (m - 1)) = i.

(** What the invariant says of one address [p].  [pending] is a handle that
    has been taken out of the hash table and is about to be finish-erased,
    if there is one.  A live handle has one reference for each time a client
    holds it and one for the cache if it is in the cache; it is in the cache
    exactly when the hash table has it; it is on [lru_] when the cache's
    reference is its only one, and on [in_use_] when clients hold it too.
    An address that is not live is nowhere, and its deleter has run exactly
    if it was ever allocated. *)
Definition handle_ok (pending : option ptr) (c : LRUCache) (X : gmultiset ptr)
    (p : ptr) : Prop :=
  match handles c !! p with
  | Some h =>
      refs h = Z.of_nat (multiplicity p X) + (if in_cache h then 1 else 0)
      ∧ 1 <= refs h
      ∧ (in_cache h = true ↔ p ∈ entries (table_ c) ∨ pending = Some p)
      ∧ (pending = Some p → p ∉ entries (table_ c))
      ∧ (p ∈ lru_ c ↔ in_cache h = true ∧ refs h = 1)
      ∧ (p ∈ in_use_ c ↔ in_cache h = true ∧ 2 <= refs h)
      ∧ (p < next_handle c)%nat
      ∧ (p ∉ dc_handle <$> deleter_calls c)
  | None =>
      multiplicity p X = 0%nat
      ∧ (p ∉ entries (table_ c))
      ∧ pending ≠ Some p
      ∧ (p ∉ lru_ c)
      ∧ (p ∉ in_use_ c)
      ∧ (p ∈ dc_handle <$> deleter_calls c ↔ (p < next_handle c)%nat)
  end.

(** The invariant of a shard and its clients after at most [n] operations. *)
Record Inv (pending : option ptr) (n : nat) (s : Client) : Prop := {
  inv_table : table_ok (handles (shard s)) (table_ (shard s));
  inv_handles : ∀ p, handle_ok pending (shard s) (held s) p;
  inv_lru_nodup : NoDup (lru_ (shard s));
  inv_in_use_nodup : NoDup (in_use_ (shard s));
  inv_deleted_nodup : NoDup (dc_handle <$> deleter_calls (shard s));
  inv_held_bound : (size (held s) <= n)%nat;
  inv_entries_bound : (length (entries (table_ (shard s))) <= n)%nat
}.

(** *** The destructor *)

(** The loop of [LRUCache::~LRUCache()] over the entries of [lru_], oldest
    first; the successor of an entry is read before the entry is
    unreferenced, and nothing unlinks an entry from the list. *)
Fixpoint destroy_entries (es : list ptr) (c : LRUCache) : option LRUCache :=
  match es with
  | [] => Some c
  | e :: es =>
      h ← handles c !! e;
      guard (in_cache h = true);;
      let h := set_in_cache false h in
      guard (refs h = 1);;
      c ← Unref e (set_handles (<[e := h]> (handles c)) c);
      destroy_entries es c
  end.

(** [LRUCache::~LRUCache()]: it is an error if a caller has an unreleased
    handle of a cached entry. *)
Definition LRUCache_destroy (c : LRUCache) : option LRUCache :=
  guard (in_use_ c = []);;
  destroy_entries (lru_ c) c.

(** *** What a handle carries *)

(** The fields of a handle that are set when it is made. *)
Definition payload (h : LRUHandle) : Slice * Z * Z * Z * Z :=
  (key h, hash h, value h, charge h, deleter h).

(** The [Insert] that makes a handle with these fields. *)
Definition insert_of (h : LRUHandle) : Operation :=
  DoInsert (key h) (hash h) (value h) (charge h) (deleter h).

(** The call of the deleter of handle [p] with fields [h]. *)
Definition call_of (p : ptr) (h : LRUHandle) : DeleterCall :=
  {| dc_handle := p; dc_deleter := deleter h; dc_key := key h;
     dc_value := value h |}.

(** [evolves c c']: from [c] to [c'] no handle is made, the handles that
    are left carry what they carried, and the deleter calls that are added
    are calls of handles of [c] with what they carried. *)
Record evolves (c c' : LRUCache) : Prop := {
  ev_handles : ∀ q h', handles c' !! q = Some h' →
    ∃ h, handles c !! q = Some h ∧ payload h = payload h';
  ev_calls : ∃ new, deleter_calls c' = deleter_calls c ++ new
    ∧ ∀ call, call ∈ new →
        ∃ h, handles c !! dc_handle call = Some h
          ∧ call = call_of (dc_handle call) h;
  ev_next : next_handle c' = next_handle c;
  ev_capacity : capacity_ c' = capacity_ c
}.

(** The sum of the charges of the handles [ps]. *)
Definition charge_sum (heap : Heap) (ps : list ptr) : Z :=
  foldr (λ p acc, from_option charge 0 (heap !! p) + acc) 0 ps.

(** The usage is the sum of the charges of the entries of the hash table,
    as a [size_t]. *)
Definition usage_ok (c : LRUCache) : Prop :=
  usage_ c = to_uint64 (charge_sum (handles c) (entries (table_ c))).

End Cache.

(** ** Sharded LRU cache ([util/cache.cc], [class ShardedLRUCache]) *)

Module Sharded.
Import Cache.

Definition kNumShardBits : Z := 4.
Definition kNumShards : Z := Z.shiftl 1 kNumShardBits.

(** A [Cache::Handle*]: the address of an [LRUHandle].  Each shard keeps
    the handles that its [Insert] allocates, so an address is the shard
    that allocated the handle and the address there. *)
Record Handle := {
  shard_of : nat;
  in_shard : ptr
}.

#[global] Instance Handle_eq_decision : EqDecision Handle.
Proof. solve_decision. Defined.

Record ShardedLRUCache := {
  shard_ : list LRUCache;
  last_id_ : Z
}.

(** [shard_[i] = c]. *)
Definition set_shard (i : nat) (c : LRUCache) (sc : ShardedLRUCache)
    : ShardedLRUCache :=
  {| shard_ := <[i := c]> (shard_ sc); last_id_ := last_id_ sc |}.

(** [Shard(hash)]: [hash >> (32 - kNumShardBits)]. *)
Definition Shard (hash : Z) : nat :=
  Z.to_nat (Z.shiftr hash (32 - kNumShardBits)).

(** The constructor: [per_shard] is computed in [size_t]. *)
Definition ShardedLRUCache_new (capacity : Z) : ShardedLRUCache :=
  let per_shard := to_uint64 (capacity + (kNumShards - 1)) / kNumShards in
  {| shard_ := replicate (Z.to_nat kNumShards)
                 (SetCapacity per_shard LRUCache_new);
     last_id_ := 0 |}.

(** [NewLRUCache]. *)
Definition NewLRUCache (capacity : Z) : ShardedLRUCache :=
  ShardedLRUCache_new capacity.

Definition Value (handle : Handle) (sc : ShardedLRUCache) : option Z :=
  home ← shard_ sc !! shard_of handle;
  h ← handles home !! in_shard handle;
  Some (value h).

(** [NewId]: [++last_id_] on a [uint64_t]. *)
Definition NewId (sc : ShardedLRUCache) : Z * ShardedLRUCache :=
  let id := to_uint64 (last_id_ sc + 1) in
  (id, {| shard_ := shard_ sc; last_id_ := id |}).

(** [n] calls of [NewId], with the ids they return. *)
Fixpoint NewIds (n : nat) (sc : ShardedLRUCache) : list Z * ShardedLRUCache :=
  match n with
  | O => ([], sc)
  | S n =>
      let '(id, sc) := NewId sc in
      let '(ids, sc) := NewIds n sc in
      (id :: ids, sc)
  end.

(** [Prune]: every shard in turn. *)
Definition Prune (sc : ShardedLRUCache) : option ShardedLRUCache :=
  shards ← mapM Cache.Prune (shard_ sc);
  Some {| shard_ := shards; last_id_ := last_id_ sc |}.

(** [TotalCharge]: the sum, in [size_t], over the shards. *)
Definition TotalCharge (sc : ShardedLRUCache) : Z :=
  foldl (λ total c, to_uint64 (total + Cache.TotalCharge c)) 0 (shard_ sc).

Section Hashing.

(** [Hash(data, n, seed)] is declared in [util/hash.h]; its definition is
    not among the sources.  It is a function of the bytes and the seed. *)
Variable Hash : Slice → Z → Z.

Definition HashSlice (s : Slice) : Z := Hash s 0.

Definition Insert (key : Slice) (value charge deleter : Z)
    (sc : ShardedLRUCache) : option (Handle * ShardedLRUCache) :=
  let hash := HashSlice key in
  c ← shard_ sc !! Shard hash;
  '(e, c) ← Cache.Insert key hash value charge deleter c;
  Some ({| shard_of := Shard hash; in_shard := e |}, set_shard (Shard hash) c sc).

Definition Lookup (key : Slice) (sc : ShardedLRUCache)
    : option (option Handle * ShardedLRUCache) :=
  let hash := HashSlice key in
  c ← shard_ sc !! Shard hash;
  '(e, c) ← Cache.Lookup key hash c;
  Some (match e with
        | Some p => Some {| shard_of := Shard hash; in_shard := p |}
        | None => None
        end,
        set_shard (Shard hash) c sc).

(** [Release]: the shard is chosen by the hash that is read from the
    handle.  The handle is in the shard that allocated it; for a handle
    whose hash led to another shard the shard operation would work on
    lists that do not have the handle, which this model does not follow. *)
Definition Release (handle : Handle) (sc : ShardedLRUCache)
    : option ShardedLRUCache :=
  home ← shard_ sc !! shard_of handle;
  h ← handles home !! in_shard handle;
  let i := Shard (hash h) in
  guard (i = shard_of handle);;
  c ← shard_ sc !! i;
  c ← Cache.Release (in_shard handle) c;
  Some (set_shard i c sc).

Definition Erase (key : Slice) (sc : ShardedLRUCache) : option ShardedLRUCache :=
  let hash := HashSlice key in
  c ← shard_ sc !! Shard hash;
  c ← Cache.Erase key hash c;
  Some (set_shard (Shard hash) c sc).

End Hashing.

End Sharded.

(** * Properties *)

(** ** Machine integers and bytes *)

Lemma to_int32_small z : - 2 ^ 31 <= z < 2 ^ 31 → to_int32 z = z.
Proof. intros Hz. unfold to_int32. rewrite Z.mod_small; lia. Qed.

Lemma to_int32_range z : - 2 ^ 31 <= to_int32 z < 2 ^ 31.
Proof.
  unfold to_int32. pose proof (Z.mod_pos_bound (z + 2 ^ 31) (2 ^ 32)). lia.
Qed.

Lemma to_int32_idemp z : to_int32 (to_int32 z) = to_int32 z.
Proof. apply to_int32_small, to_int32_range. Qed.

Lemma to_int32_uint32 z : to_int32 (to_uint32 z) = to_int32 z.
Proof.
  unfold to_int32, to_uint32.
  rewrite Zplus_mod_idemp_l. reflexivity.
Qed.

Lemma to_uint32_int32 z : to_uint32 (to_int32 z) = to_uint32 z.
Proof.
  unfold to_int32, to_uint32.
  rewrite <- Zminus_mod_idemp_l, Z.mod_mod by lia.
  rewrite Zminus_mod_idemp_l. f_equal. lia.
Qed.

Lemma to_int32_add_l a b : to_int32 (to_int32 a + b) = to_int32 (a + b).
Proof.
  unfold to_int32.
  replace ((a + 2 ^ 31) mod 2 ^ 32 - 2 ^ 31 + b + 2 ^ 31)
    with ((a + 2 ^ 31) mod 2 ^ 32 + b) by lia.
  rewrite Zplus_mod_idemp_l. do 2 f_equal. lia.
Qed.

Lemma to_int32_add_r a b : to_int32 (a + to_int32 b) = to_int32 (a + b).
Proof. rewrite Z.add_comm, to_int32_add_l. f_equal. lia. Qed.

Lemma to_int32_add_cancel a x y :
  to_int32 (a + x) = to_int32 (a + y) → to_int32 x = to_int32 y.
Proof.
  intros Heq.
  replace x with (a + x + - a) by lia. replace y with (a + y + - a) by lia.
  by rewrite <- (to_int32_add_l (a + x)), Heq, to_int32_add_l.
Qed.

Lemma Z_of_byte_range b : 0 <= Z_of_byte b < 256.
Proof. unfold Z_of_byte. pose proof (Byte.to_N_bounded b). lia. Qed.

Lemma Z_of_byte_of_Z z : Z_of_byte (byte_of_Z z) = z mod 256.
Proof.
  unfold Z_of_byte, byte_of_Z.
  pose proof (Z.mod_pos_bound z 256 eq_refl) as Hm.
  destruct (Byte.of_N (Z.to_N (z mod 256))) as [b|] eqn:E.
  - apply Byte.to_of_N in E. simpl. rewrite E. lia.
  - apply Byte.of_N_None_iff in E. lia.
Qed.

Lemma byte_of_Z_of_byte b : byte_of_Z (Z_of_byte b) = b.
Proof.
  unfold byte_of_Z, Z_of_byte.
  pose proof (Byte.to_N_bounded b).
  rewrite Z.mod_small by lia. rewrite N2Z.id, Byte.of_to_N. reflexivity.
Qed.

(** ** Coding helpers *)

Section CodingFacts.
Import Coding.

Lemma EncodeFixed_length width v : length (EncodeFixed width v) = width.
Proof. revert v. induction width; intros; simpl; auto. Qed.

Lemma DecodeFixed_EncodeFixed width v rest :
  DecodeFixed width (EncodeFixed width v ++ rest) = v mod 256 ^ Z.of_nat width.
Proof.
  revert v. induction width as [|w IH]; intros v.
  - simpl. rewrite Z.mod_1_r. reflexivity.
  - cbn [EncodeFixed DecodeFixed app]. rewrite IH, Z_of_byte_of_Z.
    rewrite Nat2Z.inj_succ, Z.pow_succ_r by lia.
    rewrite (Z.rem_mul_r v 256 (256 ^ Z.of_nat w)) by lia. reflexivity.
Qed.

Lemma DecodeFixed_range width p : 0 <= DecodeFixed width p < 256 ^ Z.of_nat width.
Proof.
  revert p. induction width as [|w IH]; intros p.
  - simpl. lia.
  - destruct p as [|b p'].
    + simpl DecodeFixed. split; [lia | apply Z.pow_pos_nonneg; lia].
    + cbn [DecodeFixed]. rewrite Nat2Z.inj_succ, Z.pow_succ_r by lia.
      pose proof (IH p'). pose proof (Z_of_byte_range b). nia.
Qed.

Lemma DecodeFixed_app width p rest :
  (width <= length p)%nat → DecodeFixed width (p ++ rest) = DecodeFixed width p.
Proof.
  revert p. induction width as [|w IH]; intros p Hp; [reflexivity|].
  destruct p as [|b p']; simpl in Hp; [lia|].
  cbn [DecodeFixed app]. rewrite IH by lia. reflexivity.
Qed.

Lemma put_varint_nonempty more v : put_varint more v ≠ [].
Proof. destruct more; simpl; [|destruct (v <? 128)]; discriminate. Qed.

Lemma get_varint_cons n shift result b rest :
  get_varint (S n) shift result (b :: rest)
  = if 128 <=? Z_of_byte b
    then get_varint n (shift + 7) (result + (Z_of_byte b - 128) * 2 ^ shift) rest
    else Some (to_uint32 (result + Z_of_byte b * 2 ^ shift), rest).
Proof. reflexivity. Qed.

Lemma get_put_varint more shift result v rest :
  0 <= v < 128 ^ Z.of_nat (S more) → 0 <= shift →
  get_varint (S more) shift result (put_varint more v ++ rest)
  = Some (to_uint32 (result + v * 2 ^ shift), rest).
Proof.
  revert shift result v. induction more as [|m IH]; intros shift result v Hv Hs.
  - change (128 ^ Z.of_nat 1) with 128 in Hv.
    cbn [put_varint app]. rewrite get_varint_cons, Z_of_byte_of_Z.
    rewrite Z.mod_small by lia.
    destruct (128 <=? v) eqn:E; [lia|]. reflexivity.
  - cbn [put_varint]. destruct (v <? 128) eqn:E.
    + cbn [app]. rewrite get_varint_cons, Z_of_byte_of_Z, Z.mod_small by lia.
      destruct (128 <=? v) eqn:E'; [lia|]. reflexivity.
    + cbn [app]. rewrite get_varint_cons, Z_of_byte_of_Z.
      pose proof (Z.mod_pos_bound v 128 eq_refl) as Hm.
      rewrite (Z.mod_small (v mod 128 + 128)) by lia.
      destruct (128 <=? v mod 128 + 128) eqn:E'; [|lia].
      rewrite IH.
      * f_equal. f_equal. f_equal.
        rewrite Z.pow_add_r by lia. change (2 ^ 7) with 128.
        pose proof (Z.div_mod v 128). nia.
      * rewrite Nat2Z.inj_succ, Z.pow_succ_r in Hv by lia.
        split; [apply Z.div_pos; lia|].
        apply Z.div_lt_upper_bound; lia.
      * lia.
Qed.

Lemma GetVarint32_PutVarint32 v rest :
  0 <= v < 2 ^ 32 → GetVarint32 (PutVarint32 [] v ++ rest) = Some (v, rest).
Proof.
  intros Hv. unfold GetVarint32, PutVarint32, to_uint32.
  rewrite Z.mod_small by lia. cbn [app].
  rewrite get_put_varint.
  - unfold to_uint32. rewrite Z.mod_small by lia. do 2 f_equal. lia.
  - change (128 ^ Z.of_nat 5) with (2 ^ 35). lia.
  - lia.
Qed.

Lemma PutVarint32_app dst v : PutVarint32 dst v = dst ++ PutVarint32 [] v.
Proof. reflexivity. Qed.

Lemma PutLengthPrefixedSlice_app dst value :
  PutLengthPrefixedSlice dst value = dst ++ PutLengthPrefixedSlice [] value.
Proof.
  unfold PutLengthPrefixedSlice. rewrite PutVarint32_app, <- app_assoc.
  reflexivity.
Qed.

Lemma get_varint_shorter n shift result input v rest :
  get_varint n shift result input = Some (v, rest) →
  (length rest < length input)%nat.
Proof.
  revert shift result input. induction n as [|n IH]; intros shift result input.
  - simpl. discriminate.
  - destruct input as [|b input']; simpl; [discriminate|].
    destruct (128 <=? Z_of_byte b).
    + intros H. apply IH in H. lia.
    + intros [= _ <-]. lia.
Qed.

Lemma GetLengthPrefixedSlice_shorter input s rest :
  GetLengthPrefixedSlice input = Some (s, rest) →
  (length rest < length input)%nat.
Proof.
  unfold GetLengthPrefixedSlice, GetVarint32.
  destruct (get_varint 5 0 0 input) as [[len r]|] eqn:E; [|discriminate].
  apply get_varint_shorter in E.
  destruct (len <=? Z.of_nat (length r)); [|discriminate].
  intros [= _ <-]. rewrite length_drop. lia.
Qed.

(** A slice shorter than 4 GiB is read back as it was written. *)
Lemma GetLengthPrefixedSlice_Put value rest :
  Z.of_nat (length value) < 2 ^ 32 →
  GetLengthPrefixedSlice (PutLengthPrefixedSlice [] value ++ rest)
  = Some (value, rest).
Proof.
  intros Hlen. unfold GetLengthPrefixedSlice, PutLengthPrefixedSlice.
  rewrite <- app_assoc, GetVarint32_PutVarint32 by lia.
  rewrite length_app.
  rewrite (proj2 (Z.leb_le _ _)) by lia.
  rewrite Nat2Z.id, take_app_length, drop_app_length. reflexivity.
Qed.

End CodingFacts.

(** ** Write batch *)

Section WriteBatchFacts.
Import Coding WriteBatch.

(** *** Reading a varstring does not depend on what follows it *)

Lemma get_varint_app n shift result input v rest more :
  get_varint n shift result input = Some (v, rest) →
  get_varint n shift result (input ++ more) = Some (v, rest ++ more).
Proof.
  revert shift result input. induction n as [|n IH]; intros shift result input.
  - simpl. discriminate.
  - destruct input as [|b input']; [simpl; discriminate|].
    rewrite <- app_comm_cons, !get_varint_cons.
    destruct (128 <=? Z_of_byte b); [apply IH|].
    intros [= <- <-]. reflexivity.
Qed.

Lemma Varstring_app input s rest more :
  Varstring input s rest → Varstring (input ++ more) s (rest ++ more).
Proof.
  unfold Varstring, GetLengthPrefixedSlice, GetVarint32.
  destruct (get_varint 5 0 0 input) as [[len r]|] eqn:E; [|discriminate].
  rewrite (get_varint_app _ _ _ _ _ _ more E).
  destruct (len <=? Z.of_nat (length r)) eqn:El; [|discriminate].
  apply Z.leb_le in El. intros [= <- <-].
  rewrite length_app, (proj2 (Z.leb_le _ _)) by lia.
  rewrite take_app_le, drop_app_le by lia. reflexivity.
Qed.

Lemma Varstring_shorter input s rest :
  Varstring input s rest → (length rest < length input)%nat.
Proof. apply GetLengthPrefixedSlice_shorter. Qed.

Lemma Varstring_Put s rest :
  fits_varstring s → Varstring (PutLengthPrefixedSlice [] s ++ rest) s rest.
Proof. apply GetLengthPrefixedSlice_Put. Qed.

(** *** The grammar *)

Lemma Parses_shorter input ops rest :
  Parses input ops rest → (length rest <= length input)%nat.
Proof.
  induction 1 as [| ? ? ? ? ? ? ? ? ? Hk Hv _ IH | ? ? ? ? ? ? ? Hk _ IH];
    simpl; repeat match goal with
    | V : Varstring _ _ _ |- _ => apply Varstring_shorter in V
    end; lia.
Qed.

Lemma Parses_app input1 ops1 input2 ops2 rest :
  Parses input1 ops1 [] → Parses input2 ops2 rest →
  Parses (input1 ++ input2) (ops1 ++ ops2) rest.
Proof.
  intros P1 P2. remember [] as e eqn:He.
  induction P1 as [| ? ? ? ? ? ? ? ? ? Hk Hv _ IH | ? ? ? ? ? ? ? Hk _ IH];
    subst.
  - exact P2.
  - rewrite <- !app_comm_cons.
    eapply Parses_put; [done | by apply Varstring_app | | by apply IH].
    by apply Varstring_app.
  - rewrite <- !app_comm_cons.
    eapply Parses_delete; [done | by apply Varstring_app | by apply IH].
Qed.

Lemma Parses_record_bytes ops rest :
  Forall op_fits ops → Parses (concat (map record_bytes ops) ++ rest) ops rest.
Proof.
  induction 1 as [|op ops Hop _ IH]; [constructor|].
  cbn [map concat]. rewrite <- app_assoc.
  destruct op as [key value|key]; cbn [record_bytes op_fits] in *.
  - destruct Hop as [Hk Hv].
    rewrite <- app_comm_cons, <- !app_assoc.
    eapply Parses_put; [by rewrite Z_of_byte_of_Z | by apply Varstring_Put | | exact IH].
    by apply Varstring_Put.
  - rewrite <- app_comm_cons.
    eapply Parses_delete; [by rewrite Z_of_byte_of_Z | by apply Varstring_Put | exact IH].
Qed.

(** *** The record loop against the grammar *)

Section Loop.
Context {H : Type} `{Handler H}.

Lemma dispatch_cons op ops (h : H) :
  dispatch (op :: ops) h
  = dispatch ops match op with
                 | OpPut key value => handler_Put key value h
                 | OpDelete key => handler_Delete key h
                 end.
Proof. reflexivity. Qed.

Lemma Iterate_loop_nil rounds found (h : H) :
  Iterate_loop rounds [] found h = Some (Finished found, h).
Proof. destruct rounds; reflexivity. Qed.

Lemma found_after_S n found :
  found_after (S n) found = found_after n (to_int32 (found + 1)).
Proof. unfold found_after. by rewrite Nat.iter_succ_r. Qed.

(** The loop follows the grammar as far as the grammar goes. *)
Lemma Iterate_loop_Parses input ops rest :
  Parses input ops rest →
  ∀ rounds found (h : H), (length input <= rounds)%nat →
  ∃ rounds', (length rest <= rounds')%nat ∧
    Iterate_loop rounds input found h
    = Iterate_loop rounds' rest (found_after (length ops) found) (dispatch ops h).
Proof.
  induction 1 as [input
                 | tag input key input1 value input2 ops rest Ht Hk Hv _ IH
                 | tag input key input1 ops rest Ht Hk _ IH];
    intros rounds found h Hr.
  - by exists rounds.
  - destruct rounds as [|rounds]; [simpl in Hr; lia|].
    pose proof (Varstring_shorter _ _ _ Hk). pose proof (Varstring_shorter _ _ _ Hv).
    simpl in Hr.
    destruct (IH rounds (to_int32 (found + 1)) (handler_Put key value h))
      as (rounds' & Hr' & Heq); [lia|].
    exists rounds'. split; [done|].
    cbn [Iterate_loop]. rewrite Ht, Z.eqb_refl. unfold Varstring in Hk, Hv.
    cbn [length]. by rewrite Hk, Hv, Heq, dispatch_cons, found_after_S.
  - destruct rounds as [|rounds]; [simpl in Hr; lia|].
    pose proof (Varstring_shorter _ _ _ Hk). simpl in Hr.
    destruct (IH rounds (to_int32 (found + 1)) (handler_Delete key h))
      as (rounds' & Hr' & Heq); [lia|].
    exists rounds'. split; [done|].
    cbn [Iterate_loop]. rewrite Ht. unfold Varstring in Hk.
    change (ValueType_tag kTypeDeletion =? ValueType_tag kTypeValue) with false.
    rewrite Z.eqb_refl. cbv iota.
    cbn [length]. by rewrite Hk, Heq, dispatch_cons, found_after_S.
Qed.

Lemma Iterate_loop_Malformed rest msg :
  Malformed rest msg →
  ∀ rounds found (h : H), (length rest <= rounds)%nat →
  Iterate_loop rounds rest found h = Some (Returned (Corruption msg), h).
Proof.
  intros M rounds found h Hr.
  destruct M as [tag input Ht Hk | tag input key input1 Ht Hk Hv
                | tag input Ht Hk | tag input Hv Hd];
    (destruct rounds as [|rounds]; [simpl in Hr; lia|]);
    cbn [Iterate_loop]; unfold Varstring, Truncated in *.
  - by rewrite Ht, Z.eqb_refl, Hk.
  - by rewrite Ht, Z.eqb_refl, Hk, Hv.
  - rewrite Ht.
    change (ValueType_tag kTypeDeletion =? ValueType_tag kTypeValue) with false.
    by rewrite Z.eqb_refl, Hk.
  - apply Z.eqb_neq in Hv, Hd. by rewrite Hv, Hd.
Qed.

(** Every input is a run of records followed by nothing or by something that
    is no record. *)
Lemma Parses_total input :
  ∃ ops rest, Parses input ops rest ∧ (rest = [] ∨ ∃ msg, Malformed rest msg).
Proof.
  remember (length input) as n eqn:Hn.
  revert input Hn. induction (lt_wf n) as [n _ IH]. intros input ->.
  destruct input as [|tag input].
  { exists [], []. split; [constructor | by left]. }
  destruct (decide (Z_of_byte tag = ValueType_tag kTypeValue)) as [Ht|Ht].
  - destruct (GetLengthPrefixedSlice input) as [[key input1]|] eqn:Hk.
    + destruct (GetLengthPrefixedSlice input1) as [[value input2]|] eqn:Hv.
      * pose proof (Varstring_shorter _ _ _ Hk). pose proof (Varstring_shorter _ _ _ Hv).
        destruct (IH (length input2)) with (input := input2)
          as (ops & rest & HP & Hend); [simpl; lia | done |].
        exists (OpPut key value :: ops), rest. split; [|done].
        by eapply Parses_put.
      * exists [], (tag :: input). split; [constructor|]. right.
        eexists. by eapply Malformed_put_value.
    + exists [], (tag :: input). split; [constructor|]. right.
      eexists. by eapply Malformed_put_key.
  - destruct (decide (Z_of_byte tag = ValueType_tag kTypeDeletion)) as [Hd|Hd].
    + destruct (GetLengthPrefixedSlice input) as [[key input1]|] eqn:Hk.
      * pose proof (Varstring_shorter _ _ _ Hk).
        destruct (IH (length input1)) with (input := input1)
          as (ops & rest & HP & Hend); [simpl; lia | done |].
        exists (OpDelete key :: ops), rest. split; [|done].
        by eapply Parses_delete.
      * exists [], (tag :: input). split; [constructor|]. right.
        eexists. by eapply Malformed_delete.
    + exists [], (tag :: input). split; [constructor|]. right.
      eexists. by eapply Malformed_tag.
Qed.

Lemma found_after_count n : found_after n 0 = to_int32 (Z.of_nat n).
Proof.
  induction n as [|n IH]; [reflexivity|].
  unfold found_after in *. rewrite Nat.iter_succ, IH, to_int32_add_l.
  f_equal. lia.
Qed.

(** The code gives a batch the outcome of the specification, on every
    handler. *)
Lemma Iterate_of_spec b st ops (h : H) :
  IterateSpec b st ops → Iterate b h = Some (st, dispatch ops h).
Proof.
  intros S. unfold Iterate. cbv zeta. fold (records b).
  destruct S as [Hlen | ops rest msg Hlen HP HM | ops Hlen HP Hc | ops Hlen HP Hc].
  - by rewrite (proj2 (Nat.ltb_lt _ _)).
  - rewrite (proj2 (Nat.ltb_ge _ _)) by done.
    destruct (Iterate_loop_Parses _ _ _ HP (length (records b)) 0 h)
      as (rounds' & Hr' & ->); [done|].
    by rewrite (Iterate_loop_Malformed _ _ HM).
  - rewrite (proj2 (Nat.ltb_ge _ _)) by done.
    destruct (Iterate_loop_Parses _ _ _ HP (length (records b)) 0 h)
      as (rounds' & Hr' & ->); [done|].
    rewrite Iterate_loop_nil, found_after_count. by rewrite decide_True.
  - rewrite (proj2 (Nat.ltb_ge _ _)) by done.
    destruct (Iterate_loop_Parses _ _ _ HP (length (records b)) 0 h)
      as (rounds' & Hr' & ->); [done|].
    rewrite Iterate_loop_nil, found_after_count.
    rewrite decide_False; [done|]. by intros ?.
Qed.

Lemma IterateSpec_total b : ∃ st ops, IterateSpec b st ops.
Proof.
  destruct (decide (length (rep_ b) < kHeader)%nat) as [Hlen|Hlen].
  { eexists _, _. by apply Spec_too_small. }
  destruct (Parses_total (records b)) as (ops & rest & HP & [->|[msg HM]]).
  - destruct (decide (to_int32 (Z.of_nat (length ops)) = Count b)).
    + eexists _, _. apply Spec_ok; [lia|done..].
    + eexists _, _. apply Spec_wrong_count; [lia|done..].
  - eexists _, _. eapply Spec_malformed; [lia|done..].
Qed.

(** [Iterate] returns on every batch and every handler. *)
Lemma Iterate_total b (h : H) :
  ∃ st ops, IterateSpec b st ops ∧ Iterate b h = Some (st, dispatch ops h).
Proof.
  destruct (IterateSpec_total b) as (st & ops & S).
  exists st, ops. split; [done|]. by apply Iterate_of_spec.
Qed.

End Loop.

Lemma dispatch_Recorder ops (log : list Op) : dispatch ops log = log ++ ops.
Proof.
  revert log. induction ops as [|op ops IH]; intros log.
  - by rewrite app_nil_r.
  - rewrite dispatch_cons, IH. destruct op; cbn; by rewrite <- app_assoc.
Qed.

(** With the recording handler the code and the specification agree both
    ways. *)
Lemma Iterate_Recorder_iff b st ops :
  Iterate b ([] : list Op) = Some (st, ops) ↔ IterateSpec b st ops.
Proof.
  split.
  - intros Hrun. destruct (Iterate_total b ([] : list Op)) as (st' & ops' & S & Hrun').
    rewrite Hrun', dispatch_Recorder in Hrun. by simplify_eq/=.
  - intros S. by rewrite (Iterate_of_spec _ _ _ _ S), dispatch_Recorder.
Qed.

(** *** Building a batch *)

Lemma Count_SetCount b n :
  (8 <= length (rep_ b))%nat → Count (SetCount b n) = to_int32 n.
Proof.
  intros Hlen. unfold Count, SetCount. cbn [rep_].
  rewrite drop_app_length' by (rewrite length_take; lia).
  unfold DecodeFixed32, EncodeFixed32. rewrite DecodeFixed_EncodeFixed.
  apply to_int32_uint32.
Qed.

Lemma length_SetCount b n :
  (kHeader <= length (rep_ b))%nat →
  length (rep_ (SetCount b n)) = length (rep_ b).
Proof.
  intros Hlen. unfold SetCount, kHeader in *. cbn [rep_].
  rewrite !length_app, length_take, length_drop.
  unfold EncodeFixed32. rewrite EncodeFixed_length. lia.
Qed.

Lemma records_SetCount b n :
  (kHeader <= length (rep_ b))%nat → records (SetCount b n) = records b.
Proof.
  intros Hlen. unfold records, SetCount, kHeader in *. cbn [rep_].
  rewrite app_assoc, drop_app_length'; [done|].
  rewrite length_app, length_take. unfold EncodeFixed32.
  rewrite EncodeFixed_length. lia.
Qed.

Lemma drop_app_header (r more : list byte) :
  (kHeader <= length r)%nat → drop kHeader (r ++ more) = drop kHeader r ++ more.
Proof. intros Hlen. by rewrite drop_app_le. Qed.

Lemma Count_app b more :
  (kHeader <= length (rep_ b))%nat →
  Count {| rep_ := rep_ b ++ more |} = Count b.
Proof.
  intros Hlen. unfold Count, kHeader in *. cbn [rep_].
  rewrite drop_app_le by lia. unfold DecodeFixed32.
  rewrite DecodeFixed_app; [done|]. rewrite length_drop. lia.
Qed.

Lemma Put_rep key value b :
  rep_ (Put key value b)
  = rep_ (SetCount b (to_int32 (Count b + 1))) ++ record_bytes (OpPut key value).
Proof.
  unfold Put. cbv zeta. cbn [rep_ record_bytes].
  rewrite (PutLengthPrefixedSlice_app (PutLengthPrefixedSlice _ key) value).
  rewrite (PutLengthPrefixedSlice_app (_ ++ [_]) key).
  by rewrite <- !app_assoc.
Qed.

Lemma Delete_rep key b :
  rep_ (Delete key b)
  = rep_ (SetCount b (to_int32 (Count b + 1))) ++ record_bytes (OpDelete key).
Proof.
  unfold Delete. cbv zeta. cbn [rep_ record_bytes].
  rewrite (PutLengthPrefixedSlice_app (_ ++ [_]) key).
  by rewrite <- !app_assoc.
Qed.

Lemma apply_op_rep op b :
  apply_ops [op] b
  = {| rep_ := rep_ (SetCount b (to_int32 (Count b + 1))) ++ record_bytes op |}.
Proof.
  destruct op as [key value|key]; cbn [apply_ops fold_left].
  - rewrite <- Put_rep. by destruct (Put key value b).
  - rewrite <- Delete_rep. by destruct (Delete key b).
Qed.

(** What one [Put] or [Delete] does to a batch with a header. *)
Lemma apply_op_facts op b :
  (kHeader <= length (rep_ b))%nat →
  let b' := apply_ops [op] b in
  (kHeader <= length (rep_ b'))%nat
  ∧ records b' = records b ++ record_bytes op
  ∧ Count b' = to_int32 (Count b + 1)
  ∧ take 8 (rep_ b') = take 8 (rep_ b).
Proof.
  intros Hlen.
  set (b1 := SetCount b (to_int32 (Count b + 1))).
  assert (length (rep_ b1) = length (rep_ b)) as Hl1 by by apply length_SetCount.
  assert (records b1 = records b) as Hr1 by by apply records_SetCount.
  assert (Count b1 = to_int32 (Count b + 1)) as Hc1.
  { unfold b1. rewrite Count_SetCount, to_int32_idemp; [done|].
    unfold kHeader in *. lia. }
  assert (take 8 (rep_ b1) = take 8 (rep_ b)) as Ht1.
  { unfold b1, SetCount. cbn [rep_]. rewrite take_app_length'; [done|].
    rewrite length_take. unfold kHeader in *. lia. }
  assert (∀ more, let b' := {| rep_ := rep_ b1 ++ more |} in
    (kHeader <= length (rep_ b'))%nat ∧ records b' = records b ++ more
    ∧ Count b' = to_int32 (Count b + 1) ∧ take 8 (rep_ b') = take 8 (rep_ b))
    as Hmore.
  { intros more b'. unfold b'. repeat split.
    - cbn [rep_]. rewrite length_app. lia.
    - unfold records at 1. cbn [rep_]. rewrite drop_app_header by lia.
      by fold (records b1); rewrite Hr1.
    - rewrite Count_app by lia. done.
    - cbn [rep_]. rewrite take_app_le by (unfold kHeader in *; lia). done. }
  rewrite apply_op_rep. apply Hmore.
Qed.

Lemma apply_ops_snoc ops op b :
  apply_ops (ops ++ [op]) b = apply_ops [op] (apply_ops ops b).
Proof. unfold apply_ops. by rewrite fold_left_app. Qed.

Lemma Count_range b : - 2 ^ 31 <= Count b < 2 ^ 31.
Proof. apply to_int32_range. Qed.

Lemma apply_ops_facts ops b :
  (kHeader <= length (rep_ b))%nat →
  let b' := apply_ops ops b in
  (kHeader <= length (rep_ b'))%nat
  ∧ records b' = records b ++ concat (map record_bytes ops)
  ∧ Count b' = to_int32 (Count b + Z.of_nat (length ops))
  ∧ take 8 (rep_ b') = take 8 (rep_ b).
Proof.
  intros Hlen. induction ops as [|op ops IH] using rev_ind.
  - cbn. rewrite app_nil_r, Z.add_0_r, to_int32_small by apply Count_range. done.
  - cbv zeta in *. destruct IH as (IH1 & IH2 & IH3 & IH4).
    rewrite apply_ops_snoc.
    destruct (apply_op_facts op _ IH1) as (F1 & F2 & F3 & F4).
    repeat split; [done| | |congruence].
    + rewrite F2, IH2, map_app, concat_app, <- app_assoc. cbn.
      by rewrite app_nil_r.
    + rewrite F3, IH3, to_int32_add_l, length_app. f_equal. cbn. lia.
Qed.

Lemma Clear_facts b :
  (kHeader <= length (rep_ (Clear b)))%nat
  ∧ records (Clear b) = [] ∧ Count (Clear b) = 0 ∧ Sequence (Clear b) = 0.
Proof. by vm_compute. Qed.

(** C1.  Round trip: whatever sequence of [Put] and [Delete] calls is made
    on a freshly cleared batch, [Iterate] returns OK and hands the handler
    the same operations, in the same order, with the same key and value
    bytes: a recording handler ends with exactly the sequence of the calls,
    and any other handler receives that sequence.  Keys and values have
    lengths that a varstring's 32-bit length prefix can carry. *)
Theorem Put_Delete_Iterate_roundtrip (ops : list Op) (b : WriteBatch) :
  Forall op_fits ops →
  Iterate (apply_ops ops (Clear b)) ([] : list Op) = Some (OK, ops)
  ∧ ∀ (H : Type) (HH : Handler H) (handler : H),
      Iterate (apply_ops ops (Clear b)) handler = Some (OK, dispatch ops handler).
Proof.
  intros Hfit.
  destruct (Clear_facts b) as (C1 & C2 & C3 & _).
  destruct (apply_ops_facts ops _ C1) as (F1 & F2 & F3 & _).
  assert (IterateSpec (apply_ops ops (Clear b)) OK ops) as S.
  { apply Spec_ok; [done| |].
    - rewrite F2, C2. cbn [app].
      rewrite <- (app_nil_r (concat _)). by apply Parses_record_bytes.
    - by rewrite F3, C3. }
  split.
  - by apply Iterate_Recorder_iff.
  - intros H HH handler. by apply Iterate_of_spec.
Qed.

(** The batch of the specification's sequencing scenario:
    put("k","v1"); delete("k"); put("k","v2"). *)
Lemma Put_Delete_Iterate_roundtrip_witness :
  let ops := [OpPut ["k"%byte] ["v"%byte; "1"%byte]; OpDelete ["k"%byte];
              OpPut ["k"%byte] ["v"%byte; "2"%byte]] in
  Forall op_fits ops
  ∧ Iterate (apply_ops ops (Clear WriteBatch_new)) ([] : list Op) = Some (OK, ops).
Proof.
  intros ops.
  assert (Forall op_fits ops) as Hfit.
  { unfold ops. repeat constructor. }
  split; [exact Hfit|].
  exact (proj1 (Put_Delete_Iterate_roundtrip ops WriteBatch_new Hfit)).
Defined.

(** *** The outcomes of [Iterate] *)

Lemma Malformed_cases rest msg :
  Malformed rest msg ↔
  ∃ tag input, rest = tag :: input ∧
    ((msg = "bad WriteBatch Put"%string
      ∧ Z_of_byte tag = ValueType_tag kTypeValue
      ∧ (Truncated input
         ∨ ∃ key input1, Varstring input key input1 ∧ Truncated input1))
     ∨ (msg = "bad WriteBatch Delete"%string
        ∧ Z_of_byte tag = ValueType_tag kTypeDeletion ∧ Truncated input)
     ∨ (msg = "unknown WriteBatch tag"%string
        ∧ Z_of_byte tag ≠ ValueType_tag kTypeValue
        ∧ Z_of_byte tag ≠ ValueType_tag kTypeDeletion)).
Proof.
  split.
  - intros [tag input Ht Hk | tag input key input1 Ht Hk Hv
           | tag input Ht Hk | tag input Hv Hd];
      exists tag, input; (split; [done|]); eauto 10.
  - intros (tag & input & -> & [(-> & Ht & [Hk|(key & input1 & Hk & Hv)])
                               |[(-> & Ht & Hk)|(-> & Hv & Hd)]]).
    + by apply Malformed_put_key.
    + by eapply Malformed_put_value.
    + by apply Malformed_delete.
    + by apply Malformed_tag.
Qed.

(** Below 2 GiB the [int] comparison of the record counter with the count
    is the comparison of the number of records with the stored field. *)
Lemma count_check_plain b ops rest :
  Z.of_nat (length (rep_ b)) < 2 ^ 31 →
  Parses (records b) ops rest →
  to_int32 (Z.of_nat (length ops)) = Count b
  ↔ Z.of_nat (length ops) = count_field b.
Proof.
  intros Hlen HP.
  assert (length ops <= length (records b))%nat as Hn.
  { clear Hlen. induction HP as [| ? ? ? ? ? ? ? ? ? Hk Hv _ IH | ? ? ? ? ? ? ? Hk _ IH];
      cbn [length]; repeat match goal with
      | V : Varstring _ _ _ |- _ => apply Varstring_shorter in V
      end; lia. }
  unfold records in Hn. rewrite length_drop in Hn.
  unfold Count. fold (count_field b).
  pose proof (DecodeFixed_range 4 (drop 8 (rep_ b))) as Hc.
  change (256 ^ Z.of_nat 4) with (2 ^ 32) in Hc. fold (DecodeFixed32 (drop 8 (rep_ b))) in Hc.
  fold (count_field b) in Hc.
  rewrite (to_int32_small (Z.of_nat (length ops))) by lia.
  destruct (decide (count_field b < 2 ^ 31)) as [Hs|Hs].
  - rewrite to_int32_small by lia. done.
  - pose proof (to_int32_range (count_field b)).
    assert (to_int32 (count_field b) = count_field b - 2 ^ 32) as ->.
    { unfold to_int32.
      replace (count_field b + 2 ^ 31) with (count_field b - 2 ^ 31 + 1 * 2 ^ 32) by lia.
      rewrite Z_mod_plus_full, Z.mod_small; lia. }
    lia.
Qed.

Ltac spec_inv S :=
  inversion S as [Hlen | ops' rest' msg' Hlen HP HM
                 | ops' Hlen HP Hc | ops' Hlen HP Hc]; subst.

Ltac malformed_inv HM :=
  apply Malformed_cases in HM;
  destruct HM as (tag & input & -> & [(Hm & Ht & Hk)|[(Hm & Ht & Hk)|(Hm & Hv & Hd)]]);
  try discriminate Hm.

(** C3.  The outcomes of [Iterate], on the recording handler [[]] that
    collects the operations handed over:
    - it always returns;
    - "malformed WriteBatch (too small)" exactly when the buffer is shorter
      than the 12-byte header;
    - "bad WriteBatch Put" exactly when, after a run of well-formed
      records, a record tagged 1 has a truncated key or value varstring;
    - "bad WriteBatch Delete" exactly when such a record tagged 0 has a
      truncated key varstring;
    - "unknown WriteBatch tag" exactly when the next tag is neither 1 nor 0;
    - "WriteBatch has wrong count" exactly when the whole record area parses
      and the number of records differs from the header's count;
    - OK exactly when the whole record area parses and the count matches;
    - there is no other outcome, and the status is the same on every
      handler.
    The count is compared as the code compares it, as C++ [int]s; on buffers
    below 2 GiB that is the comparison of the number of records with the
    stored count field. *)
Theorem Iterate_error_taxonomy (b : WriteBatch) :
  let run := Iterate b ([] : list Op) in
  (∃ st ops, run = Some (st, ops))
  ∧ (∀ ops, run = Some (Corruption "malformed WriteBatch (too small)", ops)
       ↔ (length (rep_ b) < kHeader)%nat ∧ ops = [])
  ∧ (∀ ops, run = Some (Corruption "bad WriteBatch Put", ops)
       ↔ (kHeader <= length (rep_ b))%nat
         ∧ ∃ tag input, Parses (records b) ops (tag :: input)
             ∧ Z_of_byte tag = ValueType_tag kTypeValue
             ∧ (Truncated input
                ∨ ∃ key input1, Varstring input key input1 ∧ Truncated input1))
  ∧ (∀ ops, run = Some (Corruption "bad WriteBatch Delete", ops)
       ↔ (kHeader <= length (rep_ b))%nat
         ∧ ∃ tag input, Parses (records b) ops (tag :: input)
             ∧ Z_of_byte tag = ValueType_tag kTypeDeletion
             ∧ Truncated input)
  ∧ (∀ ops, run = Some (Corruption "unknown WriteBatch tag", ops)
       ↔ (kHeader <= length (rep_ b))%nat
         ∧ ∃ tag input, Parses (records b) ops (tag :: input)
             ∧ Z_of_byte tag ≠ ValueType_tag kTypeValue
             ∧ Z_of_byte tag ≠ ValueType_tag kTypeDeletion)
  ∧ (∀ ops, run = Some (Corruption "WriteBatch has wrong count", ops)
       ↔ (kHeader <= length (rep_ b))%nat
         ∧ Parses (records b) ops []
         ∧ to_int32 (Z.of_nat (length ops)) ≠ Count b)
  ∧ (∀ ops, run = Some (OK, ops)
       ↔ (kHeader <= length (rep_ b))%nat
         ∧ Parses (records b) ops []
         ∧ to_int32 (Z.of_nat (length ops)) = Count b)
  ∧ (∀ msg ops, run = Some (Corruption msg, ops) →
       msg ∈ ["malformed WriteBatch (too small)"; "bad WriteBatch Put";
              "bad WriteBatch Delete"; "unknown WriteBatch tag";
              "WriteBatch has wrong count"]%string)
  ∧ (∀ st ops, run = Some (st, ops) →
       ∀ (H : Type) (HH : Handler H) (handler : H),
         Iterate b handler = Some (st, dispatch ops handler))
  ∧ (Z.of_nat (length (rep_ b)) < 2 ^ 31 →
       ∀ ops rest, Parses (records b) ops rest →
         to_int32 (Z.of_nat (length ops)) = Count b
         ↔ Z.of_nat (length ops) = count_field b).
Proof.
  intros run. unfold run. clear run.
  split.
  { destruct (Iterate_total b ([] : list Op)) as (st & ops & _ & Hrun).
    rewrite dispatch_Recorder in Hrun. eauto. }
  split.
  { intros ops. rewrite Iterate_Recorder_iff. split.
    - intros S. spec_inv S; [done|]. malformed_inv HM.
    - intros [Hlen ->]. by constructor. }
  split.
  { intros ops. rewrite Iterate_Recorder_iff. split.
    - intros S. spec_inv S. malformed_inv HM. eauto 10.
    - intros (Hlen & tag & input & HP & Ht & Hk).
      eapply Spec_malformed; [done..|]. apply Malformed_cases. eauto 10. }
  split.
  { intros ops. rewrite Iterate_Recorder_iff. split.
    - intros S. spec_inv S. malformed_inv HM. eauto 10.
    - intros (Hlen & tag & input & HP & Ht & Hk).
      eapply Spec_malformed; [done..|]. apply Malformed_cases. eauto 10. }
  split.
  { intros ops. rewrite Iterate_Recorder_iff. split.
    - intros S. spec_inv S. malformed_inv HM. eauto 10.
    - intros (Hlen & tag & input & HP & Ht & Hk).
      eapply Spec_malformed; [done..|]. apply Malformed_cases. eauto 10. }
  split.
  { intros ops. rewrite Iterate_Recorder_iff. split.
    - intros S. spec_inv S; [|done]. malformed_inv HM.
    - intros (Hlen & HP & Hc). by constructor. }
  split.
  { intros ops. rewrite Iterate_Recorder_iff. split.
    - intros S. by spec_inv S.
    - intros (Hlen & HP & Hc). by constructor. }
  split.
  { intros msg ops S%Iterate_Recorder_iff. spec_inv S.
    - set_solver.
    - malformed_inv HM; subst; rewrite !elem_of_cons; auto 10.
    - set_solver. }
  split.
  { intros st ops S%Iterate_Recorder_iff H HH handler. by apply Iterate_of_spec. }
  intros Hlen ops rest HP. by eapply count_check_plain.
Qed.

(** The corruption scenario of the specification: [seq = 0], [count = 2],
    one record [PUT "a" "1"]. *)
Lemma Iterate_error_taxonomy_witness :
  let b := {| rep_ := replicate 8 x00 ++ [x02; x00; x00; x00]
                      ++ [x01; x01; "a"%byte; x01; "1"%byte] |} in
  Z.of_nat (length (rep_ b)) < 2 ^ 31
  ∧ Parses (records b) [OpPut ["a"%byte] ["1"%byte]] []
  ∧ (to_int32 (Z.of_nat (length [OpPut ["a"%byte] ["1"%byte]])) = Count b
     ↔ Z.of_nat (length [OpPut ["a"%byte] ["1"%byte]]) = count_field b).
Proof.
  intros b.
  assert (Z.of_nat (length (rep_ b)) < 2 ^ 31) as Hlen by reflexivity.
  assert (Parses (records b) [OpPut ["a"%byte] ["1"%byte]] []) as HP.
  { eapply Parses_put; [reflexivity | reflexivity | reflexivity | constructor]. }
  split; [exact Hlen|]. split; [exact HP|].
  pose proof (Iterate_error_taxonomy b) as T. cbv zeta in T.
  exact (proj2 (proj2 (proj2 (proj2 (proj2 (proj2 (proj2 (proj2 (proj2 T))))))))
           Hlen _ _ HP).
Defined.

(** *** Replay into a memtable *)

Lemma dispatch_MemTableInserter ops seq mem :
  0 <= seq → seq + Z.of_nat (length ops) <= 2 ^ 64 →
  mem_ (dispatch ops {| sequence_ := seq; mem_ := mem |})
  = mem ++ imap (add_of seq) ops.
Proof.
  revert seq mem. induction ops as [|op ops IH]; intros seq mem Hs Hn.
  - cbn. by rewrite app_nil_r.
  - rewrite dispatch_cons, imap_cons. cbn [length] in Hn.
    assert (imap (add_of seq ∘ S) ops = imap (add_of (seq + 1)) ops) as ->.
    { apply imap_ext. intros i x _. unfold add_of. cbn.
      destruct x; f_equal; lia. }
    destruct ops as [|op' ops].
    + destruct op; cbn; unfold MemTable_Add, add_of; cbn;
        by rewrite Z.add_0_r.
    + cbn [length] in Hn.
      assert (to_uint64 (seq + 1) = seq + 1) as Hw.
      { unfold to_uint64. rewrite Z.mod_small; lia. }
      destruct op as [key value|key]; cbn [handler_Put handler_Delete
        MemTableInserter_Handler sequence_ mem_]; rewrite Hw, IH
        by (cbn [length]; lia); unfold MemTable_Add, add_of at 2;
        rewrite Z.add_0_r, <- app_assoc; reflexivity.
Qed.

Lemma Sequence_range b : 0 <= Sequence b < 2 ^ 64.
Proof. apply (DecodeFixed_range 8). Qed.

(** C2.  Replay sequencing: for a batch that [Iterate] accepts (its record
    area parses into [ops] and the count matches), [InsertInto] returns OK
    and the memtable receives, after what it held, one [Add] per record, in
    the order of the batch: the [i]-th with sequence [S + i], [S] the
    header's sequence, with type [kTypeValue] and the record's value for a
    Put, and type [kTypeDeletion] and the empty value for a Delete.  The
    number of calls is the header's count.  The sequence numbers are those
    of a [uint64_t] counter, so the run [S .. S + count - 1] has to fit. *)
Theorem InsertInto_sequencing (b : WriteBatch) (mem : MemTable) (ops : list Op) :
  Iterate b ([] : list Op) = Some (OK, ops) →
  Sequence b + Z.of_nat (length ops) <= 2 ^ 64 →
  InsertInto b mem = Some (OK, mem ++ imap (add_of (Sequence b)) ops)
  ∧ to_int32 (Z.of_nat (length ops)) = Count b
  ∧ (Z.of_nat (length (rep_ b)) < 2 ^ 31 → Z.of_nat (length ops) = Count b)
  ∧ ∀ i op, ops !! i = Some op →
      ∃ call, imap (add_of (Sequence b)) ops !! i = Some call
        ∧ add_seq call = Sequence b + Z.of_nat i
        ∧ add_key call = match op with OpPut key _ | OpDelete key => key end
        ∧ add_type call
          = match op with OpPut _ _ => kTypeValue | OpDelete _ => kTypeDeletion end
        ∧ add_value call
          = match op with OpPut _ value => value | OpDelete _ => [] end.
Proof.
  intros Hrun Hfit. pose proof Hrun as S%Iterate_Recorder_iff.
  pose proof (Sequence_range b) as Hseq.
  split; [|split; [|split]].
  - unfold InsertInto. cbv zeta.
    rewrite (Iterate_of_spec _ _ _ _ S).
    by rewrite dispatch_MemTableInserter by lia.
  - by inversion S.
  - intros Hlen. inversion S as [| | |ops' Hl HP Hc]; subst.
    rewrite <- Hc. symmetry. apply to_int32_small.
    pose proof (Parses_shorter _ _ _ HP) as Hsh. clear Hrun S.
    enough (length ops <= length (records b))%nat as Hn.
    { unfold records in Hn. rewrite length_drop in Hn. lia. }
    clear -HP. induction HP as [| ? ? ? ? ? ? ? ? ? Hk Hv _ IH | ? ? ? ? ? ? ? Hk _ IH];
      cbn [length]; repeat match goal with
      | V : Varstring _ _ _ |- _ => apply Varstring_shorter in V
      end; lia.
  - intros i op Hi. rewrite list_lookup_imap, Hi. cbn.
    eexists. split; [done|]. by destruct op.
Qed.

(** The sequencing scenario of the specification: put("k","v1"),
    delete("k"), put("k","v2"), sequence 10. *)
Lemma InsertInto_sequencing_witness :
  let ops := [OpPut ["k"%byte] ["v"%byte; "1"%byte]; OpDelete ["k"%byte];
              OpPut ["k"%byte] ["v"%byte; "2"%byte]] in
  let b := SetSequence (apply_ops ops (Clear WriteBatch_new)) 10 in
  Iterate b ([] : list Op) = Some (OK, ops)
  ∧ Sequence b + Z.of_nat (length ops) <= 2 ^ 64
  ∧ InsertInto b [] = Some (OK,
      [ {| add_seq := 10; add_type := kTypeValue; add_key := ["k"%byte];
           add_value := ["v"%byte; "1"%byte] |};
        {| add_seq := 11; add_type := kTypeDeletion; add_key := ["k"%byte];
           add_value := [] |};
        {| add_seq := 12; add_type := kTypeValue; add_key := ["k"%byte];
           add_value := ["v"%byte; "2"%byte] |} ]).
Proof.
  intros ops b.
  assert (Iterate b ([] : list Op) = Some (OK, ops)) as Hrun by reflexivity.
  assert (Sequence b + Z.of_nat (length ops) <= 2 ^ 64) as Hfit by discriminate.
  split; [exact Hrun|]. split; [exact Hfit|].
  exact (proj1 (InsertInto_sequencing b [] ops Hrun Hfit)).
Defined.

(** *** Append *)

Lemma Append_facts b1 b2 :
  (kHeader <= length (rep_ b1))%nat → (kHeader <= length (rep_ b2))%nat →
  ∃ b, Append b1 b2 = Some b
    ∧ rep_ b = rep_ (SetCount b1 (to_int32 (Count b1 + Count b2))) ++ records b2
    ∧ (kHeader <= length (rep_ b))%nat
    ∧ records b = records b1 ++ records b2
    ∧ Count b = to_int32 (Count b1 + Count b2).
Proof.
  intros H1 H2. unfold Append. cbv zeta.
  rewrite (proj2 (Nat.leb_le _ _)) by done.
  set (b1' := SetCount b1 _).
  assert (length (rep_ b1') = length (rep_ b1)) as Hl by by apply length_SetCount.
  eexists. split; [done|]. cbn [rep_]. fold (records b2).
  split; [done|]. split; [rewrite length_app; lia|]. split.
  - unfold records at 1. cbn [rep_]. rewrite drop_app_header by lia.
    fold (records b1'). unfold b1'. by rewrite records_SetCount.
  - rewrite Count_app by lia. unfold b1'.
    rewrite Count_SetCount, to_int32_idemp; [done|]. unfold kHeader in *. lia.
Qed.

(** C4.  Append: for a batch [b1] that [Iterate] accepts and a batch [b2]
    with a header, [Append b1 b2] succeeds; it sets the count of [b1] to the
    sum of the two counts (an [int] sum) and adds the record bytes of [b2],
    without its header, after those of [b1]; [Iterate] on the result hands
    over the operations of [b1] followed by those of [b2], with the status
    [Iterate] gives [b2], on the recording handler and on every other. *)
Theorem Append_concatenates (b1 b2 : WriteBatch) (ops1 ops2 : list Op)
    (st2 : Status) :
  Iterate b1 ([] : list Op) = Some (OK, ops1) →
  Iterate b2 ([] : list Op) = Some (st2, ops2) →
  (kHeader <= length (rep_ b2))%nat →
  ∃ b, Append b1 b2 = Some b
    ∧ rep_ b = rep_ (SetCount b1 (to_int32 (Count b1 + Count b2))) ++ records b2
    ∧ Count b = to_int32 (Count b1 + Count b2)
    ∧ (- 2 ^ 31 <= Count b1 + Count b2 < 2 ^ 31 → Count b = Count b1 + Count b2)
    ∧ Iterate b ([] : list Op) = Some (st2, ops1 ++ ops2)
    ∧ ∀ (H : Type) (HH : Handler H) (handler : H),
        Iterate b handler = Some (st2, dispatch (ops1 ++ ops2) handler).
Proof.
  intros S1%Iterate_Recorder_iff S2%Iterate_Recorder_iff Hl2.
  inversion S1 as [| | |ops' Hl1 HP1 Hc1]; subst.
  destruct (Append_facts b1 b2 Hl1 Hl2) as (b & HA & Hrep & Hl & Hrec & Hc).
  exists b. split; [done|]. split; [done|]. split; [done|].
  split; [intros Hr; by rewrite Hc, to_int32_small|].
  assert (IterateSpec b st2 (ops1 ++ ops2)) as S.
  { inversion S2 as [Hs | ops' rest msg _ HP2 HM | ops' _ HP2 Hc2 | ops' _ HP2 Hc2]; subst.
    - lia.
    - eapply Spec_malformed; [done| |done]. rewrite Hrec. by apply Parses_app.
    - apply Spec_wrong_count; [done|rewrite Hrec; by apply Parses_app|].
      rewrite Hc, length_app, Nat2Z.inj_add, <- Hc1.
      rewrite to_int32_add_l. intros Heq%to_int32_add_cancel.
      rewrite (to_int32_small (Count b2)) in Heq by apply Count_range. done.
    - apply Spec_ok; [done|rewrite Hrec; by apply Parses_app|].
      rewrite Hc, length_app, Nat2Z.inj_add, <- Hc1, <- Hc2.
      by rewrite to_int32_add_l, to_int32_add_r. }
  split; [by apply Iterate_Recorder_iff|].
  intros H HH handler. by apply Iterate_of_spec.
Qed.

Lemma Append_concatenates_witness :
  let ops1 := [OpPut ["a"%byte] ["1"%byte]] in
  let ops2 := [OpDelete ["a"%byte]; OpPut ["b"%byte] []] in
  let b1 := apply_ops ops1 (Clear WriteBatch_new) in
  let b2 := apply_ops ops2 (Clear WriteBatch_new) in
  Iterate b1 ([] : list Op) = Some (OK, ops1)
  ∧ Iterate b2 ([] : list Op) = Some (OK, ops2)
  ∧ (kHeader <= length (rep_ b2))%nat
  ∧ ∃ b, Append b1 b2 = Some b
      ∧ Count b = 3
      ∧ Iterate b ([] : list Op) = Some (OK, ops1 ++ ops2).
Proof.
  intros ops1 ops2 b1 b2.
  assert (Iterate b1 ([] : list Op) = Some (OK, ops1)) as H1 by reflexivity.
  assert (Iterate b2 ([] : list Op) = Some (OK, ops2)) as H2 by reflexivity.
  assert (kHeader <= length (rep_ b2))%nat as Hl.
  { apply Nat.leb_le. reflexivity. }
  split; [exact H1|]. split; [exact H2|]. split; [exact Hl|].
  destruct (Append_concatenates b1 b2 ops1 ops2 OK H1 H2 Hl)
    as (b & HA & _ & Hc & _ & Hrun & _).
  exists b. split; [exact HA|]. split; [|exact Hrun].
  rewrite Hc. reflexivity.
Defined.

(** *** Corruption *)

(** C5, as stated, fails: on the corruption scenario of the specification
    ([seq = 0], [count = 2], the single record [PUT "a" "1"]) [Iterate]
    reports a corruption after the handler has received the record, and
    [InsertInto] has by then added it to the memtable. *)
Lemma Iterate_corruption_partial_counterexample :
  let b := {| rep_ := replicate 8 x00 ++ [x02; x00; x00; x00]
                      ++ [x01; x01; "a"%byte; x01; "1"%byte] |} in
  Iterate b ([] : list Op)
  = Some (Corruption "WriteBatch has wrong count", [OpPut ["a"%byte] ["1"%byte]])
  ∧ InsertInto b []
    = Some (Corruption "WriteBatch has wrong count",
            [ {| add_seq := 0; add_type := kTypeValue; add_key := ["a"%byte];
                 add_value := ["1"%byte] |} ])
  ∧ ¬ (∀ (b : WriteBatch) (log log' : list Op) msg,
         Iterate b log = Some (Corruption msg, log') → log' = log).
Proof.
  intros b. split; [reflexivity|]. split; [reflexivity|].
  intros Hclaim. specialize (Hclaim b [] _ _ eq_refl). discriminate Hclaim.
Qed.

(** C5, amended.  When [Iterate] returns a corruption, the replay stopped
    where the corruption was found and the handler has received exactly
    the operations of the well-formed records that precede that point, in
    order, and nothing of what follows: none when the buffer is too
    small, the records before the first malformed one for a bad record or
    an unknown tag, and all of them for a count mismatch. *)
Theorem Iterate_corruption_prefix (H : Type) (HH : Handler H) (b : WriteBatch)
    (handler handler' : H) (msg : string) :
  Iterate b handler = Some (Corruption msg, handler') →
  ∃ ops rest,
    handler' = dispatch ops handler
    ∧ (((length (rep_ b) < kHeader)%nat ∧ ops = [])
       ∨ ((kHeader <= length (rep_ b))%nat
          ∧ Parses (records b) ops rest
          ∧ (Malformed rest msg
             ∨ (rest = [] ∧ msg = "WriteBatch has wrong count"%string
                ∧ to_int32 (Z.of_nat (length ops)) ≠ Count b)))).
Proof.
  intros Hrun.
  destruct (Iterate_total b handler) as (st & ops & S & Hrun').
  rewrite Hrun' in Hrun. injection Hrun as -> <-.
  inversion S as [Hlen | ops' rest msg' Hlen HP HM | ops' Hlen HP Hc |]; subst.
  - exists [], []. split; [done|]. by left.
  - exists ops, rest. split; [done|]. right. eauto.
  - exists ops, []. split; [done|]. right. eauto 10.
Qed.

Lemma Iterate_corruption_prefix_witness :
  let b := {| rep_ := replicate 8 x00 ++ [x02; x00; x00; x00]
                      ++ [x01; x01; "a"%byte; x01; "1"%byte] |} in
  Iterate b ([] : list Op)
  = Some (Corruption "WriteBatch has wrong count", [OpPut ["a"%byte] ["1"%byte]])
  ∧ ∃ ops rest,
      [OpPut ["a"%byte] ["1"%byte]] = dispatch ops ([] : list Op)
      ∧ (((length (rep_ b) < kHeader)%nat ∧ ops = [])
         ∨ ((kHeader <= length (rep_ b))%nat
            ∧ Parses (records b) ops rest
            ∧ (Malformed rest "WriteBatch has wrong count"
               ∨ (rest = [] ∧ "WriteBatch has wrong count"%string
                              = "WriteBatch has wrong count"%string
                  ∧ to_int32 (Z.of_nat (length ops)) ≠ Count b)))).
Proof.
  intros b. split; [reflexivity|].
  exact (Iterate_corruption_prefix (list Op) Recorder b [] _ _ eq_refl).
Defined.


(** *** The header fields, batch sizes and composition *)

Lemma length_SetSequence b seq :
  (8 <= length (rep_ b))%nat →
  length (rep_ (SetSequence b seq)) = length (rep_ b).
Proof.
  intros Hlen. unfold SetSequence, EncodeFixed64. cbn [rep_].
  rewrite length_app, length_drop, EncodeFixed_length. lia.
Qed.

Lemma drop_SetSequence b seq n :
  (8 <= n)%nat → drop n (rep_ (SetSequence b seq)) = drop n (rep_ b).
Proof.
  intros Hn. unfold SetSequence, EncodeFixed64. cbn [rep_].
  rewrite drop_app_ge by (rewrite EncodeFixed_length; lia).
  rewrite EncodeFixed_length, drop_drop. f_equal. lia.
Qed.

Lemma Sequence_SetCount b n :
  (8 <= length (rep_ b))%nat → Sequence (SetCount b n) = Sequence b.
Proof.
  intros Hlen. unfold Sequence, SetCount, DecodeFixed64. cbn [rep_].
  rewrite DecodeFixed_app by (rewrite length_take; lia).
  rewrite <- (take_drop 8 (rep_ b)) at 2.
  by rewrite DecodeFixed_app by (rewrite length_take; lia).
Qed.

Lemma Sequence_app b b' more :
  rep_ b' = rep_ b ++ more → (8 <= length (rep_ b))%nat →
  Sequence b' = Sequence b.
Proof.
  intros Hrep Hlen. unfold Sequence, DecodeFixed64.
  by rewrite Hrep, DecodeFixed_app.
Qed.

(** The sequence number and the count are separate fields of the header:
    writing one is read back (as a [uint64_t], as an [int]) and leaves the
    other and the records alone; [Iterate] does not look at the sequence
    number.  The batch has its 12-byte header. *)
Theorem header_fields_independent (b : WriteBatch) (seq n : Z) :
  (kHeader <= length (rep_ b))%nat →
  Sequence (SetSequence b seq) = to_uint64 seq
  ∧ Count (SetSequence b seq) = Count b
  ∧ records (SetSequence b seq) = records b
  ∧ Count (SetCount b n) = to_int32 n
  ∧ Sequence (SetCount b n) = Sequence b
  ∧ records (SetCount b n) = records b
  ∧ ApproximateSize (SetSequence b seq) = ApproximateSize b
  ∧ ApproximateSize (SetCount b n) = ApproximateSize b
  ∧ (∀ (H : Type) (HH : Handler H) (handler : H),
       Iterate (SetSequence b seq) handler = Iterate b handler).
Proof.
  intros Hlen. assert (8 <= length (rep_ b))%nat as Hlen8
    by (unfold kHeader in Hlen; lia).
  split_and!.
  - unfold Sequence, SetSequence, DecodeFixed64, EncodeFixed64. cbn [rep_].
    by rewrite DecodeFixed_EncodeFixed.
  - unfold Count. by rewrite drop_SetSequence.
  - unfold records. rewrite drop_SetSequence; [done|]. unfold kHeader. lia.
  - by apply Count_SetCount.
  - by apply Sequence_SetCount.
  - by apply records_SetCount.
  - unfold ApproximateSize. by rewrite length_SetSequence.
  - unfold ApproximateSize. by rewrite length_SetCount.
  - intros H HH handler. unfold Iterate, Count. cbv zeta.
    rewrite length_SetSequence by done.
    rewrite !drop_SetSequence by (unfold kHeader; lia). done.
Qed.

Lemma header_fields_independent_witness :
  let b := Put ["k"%byte] ["v"%byte] WriteBatch_new in
  (kHeader <= length (rep_ b))%nat
  ∧ Sequence (SetSequence b 100) = to_uint64 100
  ∧ Count (SetSequence b 100) = Count b.
Proof.
  intros b.
  assert (kHeader <= length (rep_ b))%nat as Hlen by (vm_compute; lia).
  split; [exact Hlen|].
  destruct (header_fields_independent b 100 0 Hlen) as (H1 & H2 & _).
  split; [exact H1|exact H2].
Defined.

(** One more [Put] or [Delete] on a batch that [Iterate] accepts. *)
Lemma apply_op_accepted b ops op :
  IterateSpec b OK ops → op_fits op →
  IterateSpec (apply_ops [op] b) OK (ops ++ [op]).
Proof.
  intros S Hfit. inversion S as [| | |ops' Hl HP Hc]; subst.
  destruct (apply_op_facts op b Hl) as (F1 & F2 & F3 & _).
  apply Spec_ok; [done| |].
  - rewrite F2. apply Parses_app; [done|].
    pose proof (Parses_record_bytes [op] []) as HP'.
    cbn [map concat] in HP'. rewrite !app_nil_r in HP'. apply HP'.
    by apply Forall_singleton.
  - rewrite F3, <- Hc, to_int32_add_l, length_app. f_equal. cbn. lia.
Qed.

(** [Put] and [Delete] on any batch that [Iterate] accepts, however it was
    made: [Iterate] accepts the new batch and hands over the operations of
    the old one followed by the new operation; the count goes up by one (as
    an [int]).  Key and value have lengths that fit a varstring's 32-bit
    length prefix. *)
Theorem Put_Delete_extend_accepted (b : WriteBatch) (ops : list Op)
    (key value : Slice) :
  Iterate b ([] : list Op) = Some (OK, ops) →
  fits_varstring key → fits_varstring value →
  Iterate (Put key value b) ([] : list Op) = Some (OK, ops ++ [OpPut key value])
  ∧ Iterate (Delete key b) ([] : list Op) = Some (OK, ops ++ [OpDelete key])
  ∧ Count (Put key value b) = to_int32 (Count b + 1)
  ∧ Count (Delete key b) = to_int32 (Count b + 1)
  ∧ Sequence (Put key value b) = Sequence b
  ∧ Sequence (Delete key b) = Sequence b.
Proof.
  intros Hrun Hk Hv. apply Iterate_Recorder_iff in Hrun.
  assert (kHeader <= length (rep_ b))%nat as Hl by by inversion Hrun.
  assert (8 <= length (rep_ b))%nat as Hl8 by (unfold kHeader in Hl; lia).
  pose proof (apply_op_accepted b ops (OpPut key value) Hrun (conj Hk Hv)) as SP.
  pose proof (apply_op_accepted b ops (OpDelete key) Hrun Hk) as SD.
  destruct (apply_op_facts (OpPut key value) b Hl) as (_ & _ & CP & _).
  destruct (apply_op_facts (OpDelete key) b Hl) as (_ & _ & CD & _).
  apply Iterate_Recorder_iff in SP, SD.
  split_and!; try done.
  - rewrite (Sequence_app _ _ _ (Put_rep key value b))
      by (by rewrite length_SetCount).
    by apply Sequence_SetCount.
  - rewrite (Sequence_app _ _ _ (Delete_rep key b))
      by (by rewrite length_SetCount).
    by apply Sequence_SetCount.
Qed.

Lemma Put_Delete_extend_accepted_witness :
  let b := {| rep_ := replicate 8 x00 ++ [x01; x00; x00; x00]
                      ++ [x00; x01; "a"%byte] |} in
  Iterate b ([] : list Op) = Some (OK, [OpDelete ["a"%byte]])
  ∧ fits_varstring ["b"%byte] ∧ fits_varstring []
  ∧ Iterate (Put ["b"%byte] [] b) ([] : list Op)
    = Some (OK, [OpDelete ["a"%byte]; OpPut ["b"%byte] []]).
Proof.
  intros b.
  assert (Iterate b ([] : list Op) = Some (OK, [OpDelete ["a"%byte]])) as Hrun
    by (vm_compute; reflexivity).
  assert (fits_varstring ["b"%byte]) as Hk by (vm_compute; reflexivity).
  assert (fits_varstring []) as Hv by (vm_compute; reflexivity).
  split; [exact Hrun|]. split; [exact Hk|]. split; [exact Hv|].
  exact (proj1 (Put_Delete_extend_accepted b _ ["b"%byte] [] Hrun Hk Hv)).
Defined.

Lemma put_varint_length more v :
  (1 <= length (put_varint more v) <= S more)%nat.
Proof.
  revert v. induction more as [|more IH]; intros v; cbn [put_varint].
  - cbn. lia.
  - destruct (v <? 128); cbn [length]; [lia|]. specialize (IH (v / 128)). lia.
Qed.

Lemma put_varint_short more v : 0 <= v < 128 → length (put_varint more v) = 1%nat.
Proof.
  intros Hv. destruct more; cbn [put_varint]; [done|].
  by rewrite (proj2 (Z.ltb_lt _ _)) by lia.
Qed.

Lemma varstring_length (s : Slice) :
  (length s + 1 <= length (PutLengthPrefixedSlice [] s) <= length s + 5)%nat
  ∧ (Z.of_nat (length s) < 128 →
     length (PutLengthPrefixedSlice [] s) = (length s + 1)%nat).
Proof.
  unfold PutLengthPrefixedSlice, PutVarint32. cbn [app].
  rewrite length_app.
  pose proof (put_varint_length 4 (to_uint32 (Z.of_nat (length s)))).
  split; [lia|]. intros Hs.
  rewrite put_varint_short; [lia|].
  unfold to_uint32. rewrite Z.mod_small; lia.
Qed.

(** [ApproximateSize] is the length of the representation: 12 for a cleared
    batch; a [Put] adds the tag byte, the key and value bytes and a length
    prefix of one to five bytes for each; a [Delete] adds the tag byte, the
    key bytes and one length prefix.  A length prefix is one byte for fewer
    than 128 bytes.  The batch has its 12-byte header. *)
Theorem ApproximateSize_growth (b : WriteBatch) (key value : Slice) :
  (kHeader <= length (rep_ b))%nat →
  let k := Z.of_nat (length key) in
  let v := Z.of_nat (length value) in
  ApproximateSize (Clear b) = 12
  ∧ ApproximateSize b + k + v + 3 <= ApproximateSize (Put key value b)
      <= ApproximateSize b + k + v + 11
  ∧ ApproximateSize b + k + 2 <= ApproximateSize (Delete key b)
      <= ApproximateSize b + k + 6
  ∧ (k < 128 → v < 128 →
     ApproximateSize (Put key value b) = ApproximateSize b + k + v + 3)
  ∧ (k < 128 → ApproximateSize (Delete key b) = ApproximateSize b + k + 2).
Proof.
  intros Hlen k v. unfold ApproximateSize.
  rewrite Put_rep, Delete_rep, !length_app, length_SetCount by done.
  cbn [record_bytes length]. rewrite length_app.
  destruct (varstring_length key) as [Hk Hk1].
  destruct (varstring_length value) as [Hv Hv1].
  split; [done|]. split; [lia|]. split; [lia|]. split.
  - intros Hks Hvs. rewrite Hk1, Hv1 by done. lia.
  - intros Hks. rewrite Hk1 by done. lia.
Qed.

Lemma ApproximateSize_growth_witness :
  (kHeader <= length (rep_ WriteBatch_new))%nat
  ∧ ApproximateSize (Put ["k"%byte] ["v"%byte; "1"%byte] WriteBatch_new)
    = ApproximateSize WriteBatch_new + 1 + 2 + 3.
Proof.
  assert (kHeader <= length (rep_ WriteBatch_new))%nat as Hlen
    by (vm_compute; lia).
  split; [exact Hlen|].
  destruct (ApproximateSize_growth WriteBatch_new ["k"%byte]
              ["v"%byte; "1"%byte] Hlen) as (_ & _ & _ & Heq & _).
  apply Heq; reflexivity.
Defined.

Lemma Parses_count input ops rest :
  Parses input ops rest → (length ops + length rest <= length input)%nat.
Proof.
  induction 1 as [| ? ? ? ? ? ? ? ? ? Hk Hv _ IH | ? ? ? ? ? ? ? Hk _ IH];
    cbn [length];
    repeat match goal with
    | V : Varstring _ _ _ |- _ => apply Varstring_shorter in V
    end; lia.
Qed.

Lemma IterateSpec_count b st ops :
  IterateSpec b st ops → (length ops <= length (rep_ b))%nat.
Proof.
  intros S.
  assert (∀ rest, Parses (records b) ops rest →
            (length ops <= length (rep_ b))%nat) as HP.
  { intros rest HP. apply Parses_count in HP. unfold records in HP.
    rewrite length_drop in HP. lia. }
  inversion S; subst; cbn [length]; eauto with lia.
Qed.

(** [InsertInto] with any batch, accepted or not: it returns the status of
    [Iterate], and the memtable keeps what it held and receives after it
    one [Add] for each record that [Iterate] hands over before it returns,
    with the sequence numbers that follow the header's.  On a corrupt batch
    these are the records before the corruption.  The sequence numbers stay
    below [2^64]. *)
Theorem InsertInto_extends_memtable (b : WriteBatch) (mem : MemTable) :
  Sequence b + Z.of_nat (length (rep_ b)) <= 2 ^ 64 →
  ∃ st ops,
    Iterate b ([] : list Op) = Some (st, ops)
    ∧ InsertInto b mem = Some (st, mem ++ imap (add_of (Sequence b)) ops).
Proof.
  intros Hseq.
  destruct (IterateSpec_total b) as (st & ops & S).
  exists st, ops. split; [by apply Iterate_Recorder_iff|].
  unfold InsertInto. cbv zeta. rewrite (Iterate_of_spec _ _ _ _ S).
  pose proof (IterateSpec_count _ _ _ S) as Hn.
  pose proof (Sequence_range b) as Hr.
  by rewrite dispatch_MemTableInserter by lia.
Qed.

Lemma InsertInto_extends_memtable_witness :
  let b := {| rep_ := replicate 8 x00 ++ [x01; x00; x00; x00]
                      ++ [x01; x01; "a"%byte; x01; "1"%byte; x07] |} in
  let old := {| add_seq := 0; add_type := kTypeDeletion; add_key := ["z"%byte];
                add_value := [] |} in
  Sequence b + Z.of_nat (length (rep_ b)) <= 2 ^ 64
  ∧ InsertInto b [old]
    = Some (Corruption "unknown WriteBatch tag",
            [old; {| add_seq := 0; add_type := kTypeValue; add_key := ["a"%byte];
                     add_value := ["1"%byte] |}]).
Proof.
  intros b old.
  assert (Sequence b + Z.of_nat (length (rep_ b)) <= 2 ^ 64) as Hseq
    by (vm_compute; discriminate).
  split; [exact Hseq|].
  destruct (InsertInto_extends_memtable b [old] Hseq) as (st & ops & Hrun & Hins).
  vm_compute in Hrun. injection Hrun as <- <-. exact Hins.
Defined.

(** *** [Append] as a composition *)

Lemma byte_of_Z_mod z : byte_of_Z (z mod 256) = byte_of_Z z.
Proof. unfold byte_of_Z. by rewrite Z.mod_mod. Qed.

Lemma EncodeFixed_congr width x y :
  x mod 256 ^ Z.of_nat width = y mod 256 ^ Z.of_nat width →
  EncodeFixed width x = EncodeFixed width y.
Proof.
  revert x y. induction width as [|w IH]; intros x y Heq; [done|].
  cbn [EncodeFixed].
  rewrite Nat2Z.inj_succ, Z.pow_succ_r in Heq by lia.
  rewrite !Z.rem_mul_r in Heq by lia.
  pose proof (Z.mod_pos_bound x 256 eq_refl).
  pose proof (Z.mod_pos_bound y 256 eq_refl).
  assert (x mod 256 = y mod 256 ∧ (x / 256) mod 256 ^ Z.of_nat w
                                   = (y / 256) mod 256 ^ Z.of_nat w) as [H1 H2] by lia.
  f_equal; [|by apply IH].
  by rewrite <- (byte_of_Z_mod x), <- (byte_of_Z_mod y), H1.
Qed.

Lemma EncodeFixed_DecodeFixed width p :
  (width <= length p)%nat → EncodeFixed width (DecodeFixed width p) = take width p.
Proof.
  revert p. induction width as [|w IH]; intros p Hlen; [done|].
  destruct p as [|b p]; [cbn in Hlen; lia|]. cbn [DecodeFixed EncodeFixed take].
  pose proof (Z_of_byte_range b).
  f_equal.
  - rewrite <- byte_of_Z_mod.
    replace ((Z_of_byte b + 256 * DecodeFixed w p) mod 256) with (Z_of_byte b).
    + apply byte_of_Z_of_byte.
    + replace (Z_of_byte b + 256 * DecodeFixed w p)
        with (Z_of_byte b + DecodeFixed w p * 256) by lia.
      rewrite Z.mod_add by lia. by rewrite Z.mod_small.
  - replace ((Z_of_byte b + 256 * DecodeFixed w p) / 256) with (DecodeFixed w p).
    + apply IH. cbn in Hlen. lia.
    + replace (Z_of_byte b + 256 * DecodeFixed w p)
        with (Z_of_byte b + DecodeFixed w p * 256) by lia.
      rewrite Z.div_add by lia. rewrite Z.div_small by lia. lia.
Qed.

Lemma to_int32_mod z : to_int32 z mod 2 ^ 32 = z mod 2 ^ 32.
Proof. apply to_uint32_int32. Qed.

(** Writing back the count that is there changes nothing. *)
Lemma SetCount_Count b :
  (kHeader <= length (rep_ b))%nat → SetCount b (to_int32 (Count b)) = b.
Proof.
  intros Hlen. destruct b as [r]. unfold SetCount, Count, kHeader in *.
  cbn [rep_] in *. f_equal.
  rewrite to_int32_idemp.
  unfold EncodeFixed32, DecodeFixed32.
  rewrite (EncodeFixed_congr 4 _ (DecodeFixed 4 (drop 8 r)))
    by apply to_int32_mod.
  rewrite EncodeFixed_DecodeFixed by (rewrite length_drop; lia).
  replace (drop 12 r) with (drop 4 (drop 8 r)) by (by rewrite drop_drop).
  by rewrite !take_drop.
Qed.

Lemma WriteBatch_eta b : {| rep_ := rep_ b |} = b.
Proof. by destruct b. Qed.

Lemma SetCount_app_rep r more n :
  (kHeader <= length r)%nat →
  rep_ (SetCount {| rep_ := r ++ more |} n)
  = rep_ (SetCount {| rep_ := r |} n) ++ more.
Proof.
  intros Hlen. unfold SetCount, kHeader in *. cbn [rep_].
  rewrite take_app_le, drop_app_le by lia. by rewrite <- !app_assoc.
Qed.

Lemma SetCount_SetCount b m n :
  (kHeader <= length (rep_ b))%nat → SetCount (SetCount b m) n = SetCount b n.
Proof.
  intros Hlen. unfold SetCount, kHeader in *. cbn [rep_]. f_equal.
  rewrite take_app_length' by (rewrite length_take; lia).
  do 2 f_equal.
  rewrite app_assoc, drop_app_length'; [done|].
  rewrite length_app, length_take. unfold EncodeFixed32.
  rewrite EncodeFixed_length. lia.
Qed.

(** [Append] is associative: appending [c] to the result of appending [b]
    to [a] gives the same bytes as appending to [a] the result of appending
    [c] to [b]; the sequence number is that of [a].  The three batches have
    their 12-byte headers. *)
Theorem Append_assoc (a b c : WriteBatch) :
  (kHeader <= length (rep_ a))%nat →
  (kHeader <= length (rep_ b))%nat →
  (kHeader <= length (rep_ c))%nat →
  ∃ ab bc abc,
    Append a b = Some ab ∧ Append b c = Some bc
    ∧ Append ab c = Some abc ∧ Append a bc = Some abc
    ∧ Sequence abc = Sequence a
    ∧ Count abc = to_int32 (Count a + Count b + Count c)
    ∧ records abc = records a ++ records b ++ records c.
Proof.
  intros Ha Hb Hc.
  destruct (Append_facts a b Ha Hb) as (ab & Hab & Rab & Lab & RRab & Cab).
  destruct (Append_facts b c Hb Hc) as (bc & Hbc & Rbc & Lbc & RRbc & Cbc).
  destruct (Append_facts ab c Lab Hc) as (abc & Habc & Rabc & Labc & RRabc & Cabc).
  destruct (Append_facts a bc Ha Lbc) as (abc' & Habc' & Rabc' & _ & _ & _).
  assert (8 <= length (rep_ a))%nat as Ha8 by (unfold kHeader in Ha; lia).
  assert (abc' = abc) as ->.
  { destruct abc as [r], abc' as [r']. cbn [rep_] in *. f_equal.
    rewrite Rabc, Rabc', RRbc, Cbc, Cab.
    rewrite to_int32_add_l, to_int32_add_r, Z.add_assoc.
    destruct ab as [rab]. cbn [rep_] in Rab. rewrite Rab.
    rewrite SetCount_app_rep by (rewrite length_SetCount; done).
    rewrite <- app_assoc. f_equal.
    by rewrite WriteBatch_eta, SetCount_SetCount. }
  exists ab, bc, abc. split_and!; try done.
  - rewrite (Sequence_app _ _ _ Rabc)
      by (rewrite length_SetCount by done; unfold kHeader in Lab; lia).
    rewrite Sequence_SetCount by (unfold kHeader in Lab; lia).
    rewrite (Sequence_app _ _ _ Rab) by (by rewrite length_SetCount).
    by apply Sequence_SetCount.
  - by rewrite Cabc, Cab, to_int32_add_l.
  - by rewrite RRabc, RRab, <- app_assoc.
Qed.

Lemma Append_assoc_witness :
  let a := Put ["a"%byte] ["1"%byte] WriteBatch_new in
  let b := Delete ["a"%byte] WriteBatch_new in
  let c := Put ["c"%byte] [] WriteBatch_new in
  (kHeader <= length (rep_ a))%nat
  ∧ (kHeader <= length (rep_ b))%nat
  ∧ (kHeader <= length (rep_ c))%nat
  ∧ ∃ ab bc abc,
      Append a b = Some ab ∧ Append b c = Some bc
      ∧ Append ab c = Some abc ∧ Append a bc = Some abc.
Proof.
  intros a b c.
  assert (kHeader <= length (rep_ a))%nat as Ha by (vm_compute; lia).
  assert (kHeader <= length (rep_ b))%nat as Hb by (vm_compute; lia).
  assert (kHeader <= length (rep_ c))%nat as Hc by (vm_compute; lia).
  split; [exact Ha|]. split; [exact Hb|]. split; [exact Hc|].
  destruct (Append_assoc a b c Ha Hb Hc)
    as (ab & bc & abc & H1 & H2 & H3 & H4 & _).
  exists ab, bc, abc. repeat split; assumption.
Defined.

(** The empty batch and [Append]: appending a cleared batch changes
    nothing; appending to a cleared batch gives the source with the
    sequence number 0; a source shorter than a header fails the assertion.
    The batch has its 12-byte header. *)
Theorem Append_empty (b e : WriteBatch) :
  (kHeader <= length (rep_ b))%nat →
  Append b (Clear e) = Some b
  ∧ Append (Clear e) b = Some (SetSequence b 0)
  ∧ (∀ src, (length (rep_ src) < kHeader)%nat → Append b src = None).
Proof.
  intros Hlen. split_and!.
  - destruct (Append_facts b (Clear e) Hlen) as (r & -> & Hr & _).
    { by vm_compute. }
    f_equal. destruct r as [r]. cbn [rep_] in Hr. rewrite Hr.
    destruct (Clear_facts e) as (_ & -> & -> & _).
    rewrite app_nil_r, Z.add_0_r, SetCount_Count by done. by destruct b.
  - destruct (Append_facts (Clear e) b) as (r & -> & Hr & _); [by vm_compute|done|].
    f_equal. destruct r as [r]. cbn [rep_] in Hr. rewrite Hr.
    destruct (Clear_facts e) as (_ & _ & -> & _).
    rewrite Z.add_0_l. unfold SetSequence. f_equal.
    pose proof (SetCount_Count b Hlen) as Hb.
    apply (f_equal rep_) in Hb. unfold SetCount in Hb |- *. cbn [rep_] in Hb |- *.
    unfold records. unfold kHeader in *.
    assert (drop 8 (rep_ b)
            = EncodeFixed32 (to_int32 (Count b)) ++ drop 12 (rep_ b)) as ->.
    { rewrite <- Hb at 1.
      by rewrite drop_app_length' by (rewrite length_take; lia). }
    change (take 8 (rep_ (Clear e))) with (EncodeFixed64 0).
    change (drop 12 (rep_ (Clear e))) with (@nil byte).
    by rewrite app_nil_r, <- !app_assoc.
  - intros src Hsrc. unfold Append. cbv zeta.
    by rewrite (proj2 (Nat.leb_gt _ _)).
Qed.

Lemma Append_empty_witness :
  let b := Put ["k"%byte] ["v"%byte] (SetSequence WriteBatch_new 7) in
  (kHeader <= length (rep_ b))%nat
  ∧ Append b WriteBatch_new = Some b
  ∧ Append WriteBatch_new b = Some (SetSequence b 0).
Proof.
  intros b.
  assert (kHeader <= length (rep_ b))%nat as Hlen by (vm_compute; lia).
  split; [exact Hlen|].
  destruct (Append_empty b {| rep_ := [] |} Hlen) as (H1 & H2 & _).
  split; [exact H1|exact H2].
Defined.
End WriteBatchFacts.

(** ** Arena *)

Section ArenaFacts.
Import Arena.

Variable bookkeeping : Z.
Hypothesis bookkeeping_nonneg : 0 <= bookkeeping.

(** C9.  The allocation algorithm, for a request of [n > 0] bytes:
    - if [n] is at most what remains of the current block, the current
      pointer is returned and advances by [n];
    - otherwise, if [n > 4096/4], a dedicated block of exactly [n] bytes is
      allocated and returned, and the current block's pointer and
      remaining bytes are as before;
    - otherwise a fresh block of 4096 bytes becomes the current block and
      serves the request, what was left of the old one being dropped.
    On a fresh arena, 5000 bytes and then 100 bytes give a dedicated block of
    5000 bytes, then a 4096-byte block that serves the 100 bytes, and a
    memory usage of at least 9096. *)
Theorem Allocate_algorithm :
  (∀ (a : Arena) (n : Z), 0 < n →
     (n <= alloc_bytes_remaining_ a →
        Allocate bookkeeping n a
        = Some (alloc_ptr_ a,
                {| alloc_ptr_ := ptr_add (alloc_ptr_ a) n;
                   alloc_bytes_remaining_ := alloc_bytes_remaining_ a - n;
                   blocks_ := blocks_ a;
                   memory_usage_ := memory_usage_ a |}))
     ∧ (alloc_bytes_remaining_ a < n → 4096 / 4 < n →
        Allocate bookkeeping n a
        = Some (at_block (length (blocks_ a)) 0,
                {| alloc_ptr_ := alloc_ptr_ a;
                   alloc_bytes_remaining_ := alloc_bytes_remaining_ a;
                   blocks_ := blocks_ a ++ [n];
                   memory_usage_ := memory_usage_ a + n + bookkeeping |}))
     ∧ (alloc_bytes_remaining_ a < n → n <= 4096 / 4 →
        Allocate bookkeeping n a
        = Some (at_block (length (blocks_ a)) 0,
                {| alloc_ptr_ := at_block (length (blocks_ a)) n;
                   alloc_bytes_remaining_ := 4096 - n;
                   blocks_ := blocks_ a ++ [4096];
                   memory_usage_ := memory_usage_ a + 4096 + bookkeeping |})))
  ∧ ∃ a1 a2,
      Allocate bookkeeping 5000 Arena_new = Some (at_block 0 0, a1)
      ∧ blocks_ a1 = [5000]
      ∧ alloc_ptr_ a1 = nullptr ∧ alloc_bytes_remaining_ a1 = 0
      ∧ Allocate bookkeeping 100 a1 = Some (at_block 1 0, a2)
      ∧ blocks_ a2 = [5000; 4096]
      ∧ alloc_ptr_ a2 = at_block 1 100 ∧ alloc_bytes_remaining_ a2 = 3996
      ∧ 9096 <= MemoryUsage a2.
Proof using bookkeeping_nonneg.
  split.
  - intros a n Hn. unfold Allocate.
    rewrite (proj2 (Z.ltb_lt 0 n)) by done. cbn [negb].
    split; [|split].
    + intros Hfit. by rewrite (proj2 (Z.leb_le _ _)).
    + intros Hbig Hquarter. rewrite (proj2 (Z.leb_gt _ _)) by done.
      unfold AllocateFallback, kBlockSize.
      by rewrite (proj2 (Z.ltb_lt _ _)).
    + intros Hbig Hquarter. rewrite (proj2 (Z.leb_gt _ _)) by done.
      unfold AllocateFallback, kBlockSize.
      rewrite (proj2 (Z.ltb_ge _ _)) by done. cbn. by rewrite Z.add_0_l.
  - eexists _, _. split; [reflexivity|]. cbn.
    repeat (split; [reflexivity|]). unfold MemoryUsage, kBlockSize. cbn. lia.
Qed.

End ArenaFacts.

(** The arena scenarios of the specification, with one pointer of
    bookkeeping per block. *)
Lemma Allocate_algorithm_witness :
  0 <= 8
  ∧ ∃ a1 a2,
      Arena.Allocate 8 5000 Arena.Arena_new = Some (Arena.at_block 0 0, a1)
      ∧ Arena.Allocate 8 100 a1 = Some (Arena.at_block 1 0, a2)
      ∧ Arena.blocks_ a2 = [5000; 4096]
      ∧ 9096 <= Arena.MemoryUsage a2.
Proof.
  assert (0 <= 8) as Hb by discriminate.
  split; [exact Hb|].
  destruct (proj2 (Allocate_algorithm 8 Hb))
    as (a1 & a2 & H1 & _ & _ & _ & H2 & Hbl & _ & _ & Hm).
  exists a1, a2. repeat split; assumption.
Defined.

(** *** Allocations from the current block *)

Section ArenaRun.
Import Arena.

Variable bookkeeping : Z.

Lemma total_bytes_nonneg sizes :
  Forall (λ n, 0 < n) sizes → 0 <= total_bytes sizes.
Proof.
  unfold total_bytes. induction 1 as [|n sizes Hn _ IH]; cbn [foldr]; lia.
Qed.

Lemma total_bytes_take_le sizes i :
  Forall (λ n, 0 < n) sizes → total_bytes (take i sizes) <= total_bytes sizes.
Proof.
  intros Hpos. revert i.
  induction Hpos as [|n sizes Hn Hpos IH]; intros [|i];
    unfold total_bytes in *; cbn [take foldr]; try lia.
  - pose proof (total_bytes_nonneg sizes Hpos) as H0.
    unfold total_bytes in H0. lia.
  - specialize (IH i). lia.
Qed.

Lemma total_bytes_take_S sizes i n :
  sizes !! i = Some n →
  total_bytes (take (S i) sizes) = total_bytes (take i sizes) + n.
Proof.
  unfold total_bytes. revert i.
  induction sizes as [|m sizes IH]; intros [|i] Hi; try done.
  - cbn in Hi. injection Hi as ->. cbn [take foldr]. rewrite take_0. cbn. lia.
  - cbn in Hi. specialize (IH i Hi). cbn [take foldr] in *. lia.
Qed.

Lemma total_bytes_take_mono sizes i j :
  Forall (λ n, 0 < n) sizes → (i <= j)%nat →
  total_bytes (take i sizes) <= total_bytes (take j sizes).
Proof.
  intros Hpos Hij.
  replace (take i sizes) with (take i (take j sizes))
    by (rewrite take_take; f_equal; lia).
  apply total_bytes_take_le. by apply Forall_take.
Qed.

Lemma Allocates_current_block (b : nat) sizes :
  ∀ (a : Arena) (off : Z),
    alloc_ptr_ a = at_block b off →
    Forall (λ n, 0 < n) sizes →
    total_bytes sizes <= alloc_bytes_remaining_ a →
    Allocates bookkeeping sizes a
    = Some ((λ i, at_block b (off + total_bytes (take i sizes)))
              <$> seq 0 (length sizes),
            {| alloc_ptr_ := at_block b (off + total_bytes sizes);
               alloc_bytes_remaining_ :=
                 alloc_bytes_remaining_ a - total_bytes sizes;
               blocks_ := blocks_ a;
               memory_usage_ := memory_usage_ a |}).
Proof.
  induction sizes as [|n sizes IH]; intros a off Hptr Hpos Hfit.
  - cbn. rewrite Z.add_0_r, Z.sub_0_r, <- Hptr. by destruct a.
  - apply Forall_cons in Hpos as [Hn Hpos].
    pose proof (total_bytes_nonneg sizes Hpos) as H0.
    cbn [total_bytes foldr] in Hfit. fold (total_bytes sizes) in Hfit.
    cbn [Allocates]. unfold Allocate.
    rewrite (proj2 (Z.ltb_lt 0 n)) by done. cbn [negb].
    rewrite (proj2 (Z.leb_le n (alloc_bytes_remaining_ a))) by lia.
    cbv zeta. cbn [mbind option_bind].
    rewrite (IH _ (off + n)); [|by rewrite Hptr|done|cbn; lia].
    cbn [mbind option_bind alloc_bytes_remaining_ blocks_ memory_usage_
         length seq fmap list_fmap take].
    rewrite Hptr. f_equal. f_equal.
    + f_equal; [cbn; by rewrite Z.add_0_r|].
      rewrite <- seq_shift, <- list_fmap_compose. apply list_fmap_ext.
      intros i x _. cbn [compose take total_bytes foldr].
      fold (total_bytes (take x sizes)). f_equal. lia.
    + cbn [total_bytes foldr]. fold (total_bytes sizes). f_equal; [f_equal|]; lia.
Qed.

(** [Arena::Allocate] while the current block has room.  Requests of
    positive sizes that together fit in what remains of the current block
    are served from it one after the other: the [i]-th pointer is the
    current pointer advanced by the sizes of the requests before it, so
    the [i]-th region ends where the next begins, no two regions overlap
    and all lie in what remained; what remains shrinks by the total, and
    no block is allocated nor the memory usage changed. *)
Theorem Allocate_regions_disjoint (a : Arena) (b : nat) (off : Z)
    (sizes : list Z) :
  alloc_ptr_ a = at_block b off →
  Forall (λ n, 0 < n) sizes →
  total_bytes sizes <= alloc_bytes_remaining_ a →
  ∃ offs a',
    Allocates bookkeeping sizes a = Some (at_block b <$> offs, a')
    ∧ length offs = length sizes
    ∧ (∀ i o n, offs !! i = Some o → sizes !! i = Some n →
         off <= o ∧ o + n <= off + alloc_bytes_remaining_ a
         ∧ offs !! S i = (if decide (S i < length sizes)%nat
                          then Some (o + n) else None)
         ∧ ∀ j o', (i < j)%nat → offs !! j = Some o' → o + n <= o')
    ∧ alloc_ptr_ a' = at_block b (off + total_bytes sizes)
    ∧ alloc_bytes_remaining_ a'
      = alloc_bytes_remaining_ a - total_bytes sizes
    ∧ blocks_ a' = blocks_ a
    ∧ MemoryUsage a' = MemoryUsage a.
Proof.
  intros Hptr Hpos Hfit.
  exists ((λ i, off + total_bytes (take i sizes)) <$> seq 0 (length sizes)).
  eexists. split.
  { rewrite (Allocates_current_block b sizes a off Hptr Hpos Hfit).
    by rewrite <- list_fmap_compose. }
  split; [by rewrite length_fmap, length_seq|].
  split; [|done].
  assert (∀ i o, ((λ i, off + total_bytes (take i sizes))
                    <$> seq 0 (length sizes)) !! i = Some o →
            (i < length sizes)%nat ∧ o = off + total_bytes (take i sizes))
    as Hoffs.
  { intros i o Hi. rewrite list_lookup_fmap in Hi.
    destruct (seq 0 (length sizes) !! i) as [x|] eqn:Hx; [|done].
    apply lookup_seq in Hx as [-> Hlt]. cbn in Hi. injection Hi as <-. done. }
  intros i o n Ho Hn. destruct (Hoffs i o Ho) as [Hlt ->].
  pose proof (total_bytes_take_S sizes i n Hn) as HS.
  pose proof (total_bytes_nonneg (take i sizes) (Forall_take _ _ _ Hpos)) as H0.
  pose proof (total_bytes_take_le sizes (S i) Hpos) as Hle.
  split; [lia|]. split; [lia|]. split.
  - rewrite list_lookup_fmap. case_decide as Hnext.
    + rewrite lookup_seq_lt by done. cbn [fmap option_fmap option_map].
      f_equal. cbn [Nat.add]. lia.
    + rewrite lookup_seq_ge by lia. done.
  - intros j o' Hij Ho'. destruct (Hoffs j o' Ho') as [Hj ->].
    pose proof (total_bytes_take_mono sizes (S i) j Hpos ltac:(lia)). lia.
Qed.

End ArenaRun.

Lemma Allocate_regions_disjoint_witness :
  let a := {| Arena.alloc_ptr_ := Arena.at_block 0 100;
              Arena.alloc_bytes_remaining_ := 3996;
              Arena.blocks_ := [4096]; Arena.memory_usage_ := 4104 |} in
  Arena.alloc_ptr_ a = Arena.at_block 0 100
  ∧ Forall (λ n, 0 < n) [10; 20; 30]
  ∧ Arena.total_bytes [10; 20; 30] <= Arena.alloc_bytes_remaining_ a
  ∧ ∃ offs a',
      Arena.Allocates 8 [10; 20; 30] a = Some (Arena.at_block 0 <$> offs, a')
      ∧ length offs = 3%nat
      ∧ Arena.alloc_bytes_remaining_ a' = 3996 - Arena.total_bytes [10; 20; 30].
Proof.
  intros a.
  assert (Arena.alloc_ptr_ a = Arena.at_block 0 100) as Hptr by reflexivity.
  assert (Forall (λ n, 0 < n) [10; 20; 30]) as Hpos
    by (repeat constructor).
  assert (Arena.total_bytes [10; 20; 30] <= Arena.alloc_bytes_remaining_ a)
    as Hfit
    by (vm_compute; discriminate).
  split; [exact Hptr|]. split; [exact Hpos|]. split; [exact Hfit|].
  destruct (Allocate_regions_disjoint 8 a 0 100 [10; 20; 30] Hptr Hpos Hfit)
    as (offs & a' & H1 & H2 & _ & _ & H3 & _).
  exists offs, a'. split; [exact H1|]. split; [exact H2|exact H3].
Defined.

(** ** Reference count of the memtable *)

Section MemTableFacts.
Import MemTableRefs.

Lemma balance_cons c cs :
  balance (c :: cs) = match c with DoRef => 1 | DoUnref => -1 end + balance cs.
Proof. reflexivity. Qed.

Lemma calls_Deleted cs : cs ≠ [] → calls cs Deleted = None.
Proof. destruct cs as [|[] cs]; done. Qed.

(** One call on a live memtable whose count stays positive. *)
Lemma call_Live c r :
  0 <= r → r + 1 <= INT_MAX →
  0 < r + match c with DoRef => 1 | DoUnref => -1 end →
  call c (Live r) = Some (Live (r + match c with DoRef => 1 | DoUnref => -1 end)).
Proof.
  unfold INT_MAX. intros H0 Hmax Hpos. destruct c; cbn [call Ref Unref].
  - rewrite option_guard_True by (unfold INT_MAX; lia). done.
  - rewrite option_guard_True by (unfold INT_MIN; lia).
    cbn [mbind option_bind]. cbv zeta.
    rewrite option_guard_True by lia. cbn [mbind option_bind].
    rewrite decide_False by lia. done.
Qed.

(** The last call. *)
Lemma call_last c r :
  0 <= r → r + 1 <= INT_MAX →
  let final := r + match c with DoRef => 1 | DoUnref => -1 end in
  call c (Live r)
  = if decide (0 < final) then Some (Live final)
    else if decide (final = 0) then Some Deleted else None.
Proof.
  intros H0 Hmax final. destruct (decide (0 < final)) as [Hpos|Hpos].
  - by apply call_Live.
  - unfold final in *. destruct c; [lia|]. cbn [call Unref].
    rewrite option_guard_True by (unfold INT_MIN; lia).
    cbn [mbind option_bind]. cbv zeta.
    destruct (decide (r + -1 = 0)) as [Hz|Hz].
    + rewrite option_guard_True by lia. cbn [mbind option_bind].
      rewrite decide_True by lia. done.
    + rewrite option_guard_False by lia. done.
Qed.

Lemma calls_positive cs :
  ∀ r, 0 <= r → r + Z.of_nat (length cs) <= INT_MAX → cs ≠ [] →
  (∀ k, (0 < k < length cs)%nat → 0 < r + balance (take k cs)) →
  calls cs (Live r)
  = if decide (0 < r + balance cs) then Some (Live (r + balance cs))
    else if decide (r + balance cs = 0) then Some Deleted else None.
Proof.
  induction cs as [|c cs IH]; intros r H0 Hmax Hne Hpre; [done|].
  cbn [length] in Hmax.
  assert (match c with DoRef => 1 | DoUnref => -1 end <= 1) as Hd
    by (destruct c; lia).
  destruct cs as [|c' cs].
  - cbn [calls]. rewrite balance_cons. change (balance []) with 0.
    rewrite Z.add_0_r, (call_last c r H0) by lia. cbv zeta.
    by repeat case_decide.
  - pose proof (Hpre 1%nat ltac:(cbn [length]; lia)) as H1.
    change (take 1 (c :: c' :: cs)) with [c] in H1.
    rewrite balance_cons in H1.
    change (balance []) with 0 in H1. rewrite Z.add_0_r in H1.
    change (calls (c :: c' :: cs) (Live r))
      with (call c (Live r) ≫= calls (c' :: cs)).
    rewrite (call_Live c r H0) by lia.
    cbn [mbind option_bind].
    rewrite IH; [|lia|cbn [length] in *; lia|done|].
    + rewrite (balance_cons c (c' :: cs)).
      by rewrite !Z.add_assoc.
    + intros k Hk. specialize (Hpre (S k) ltac:(cbn [length] in *; lia)).
      cbn [take] in Hpre. rewrite balance_cons in Hpre. lia.
Qed.

Lemma calls_after_zero cs :
  ∀ r, 0 <= r → r + Z.of_nat (length cs) <= INT_MAX →
  (∃ k, (0 < k < length cs)%nat ∧ r + balance (take k cs) <= 0) →
  calls cs (Live r) = None.
Proof.
  induction cs as [|c cs IH]; intros r H0 Hmax (k & Hk & Hle);
    [cbn in Hk; lia|].
  cbn [length] in Hmax, Hk.
  assert (match c with DoRef => 1 | DoUnref => -1 end <= 1) as Hd
    by (destruct c; lia).
  assert (cs ≠ []) as Hne by (intros ->; cbn in Hk; lia).
  destruct (decide (0 < r + match c with DoRef => 1 | DoUnref => -1 end))
    as [Hpos|Hpos].
  - cbn [calls]. rewrite (call_Live c r H0) by lia. cbn [mbind option_bind].
    destruct k as [|k]; [lia|]. cbn [take] in Hle. rewrite balance_cons in Hle.
    apply IH; [lia|lia|]. exists k. split; [|lia].
    split; [|lia]. destruct k as [|k]; [|lia].
    rewrite take_0 in Hle. change (balance []) with 0 in Hle. lia.
  - cbn [calls]. rewrite (call_last c r H0) by lia. cbv zeta.
    rewrite decide_False by done. case_decide; [|done].
    cbn [mbind option_bind]. by apply calls_Deleted.
Qed.

(** [MemTable::Ref] and [MemTable::Unref], for any calls of the owners of a
    memtable whose count is [r].  As long as the count (the references
    taken less the references dropped) is positive after every call but
    the last, the calls have an outcome: the memtable lives on with that
    count if it is still positive, and is deleted by the last call if
    that brings the count to zero; an [Unref] on a count of zero fails the
    assertion.  If the count reaches zero before the last call, the
    memtable is deleted there and the calls after that have no outcome. *)
Theorem Unref_deletes_at_zero (cs : list Call) (r : Z) :
  0 <= r → r + Z.of_nat (length cs) <= INT_MAX → cs ≠ [] →
  let count k := r + balance (take k cs) in
  ((∀ k, (0 < k < length cs)%nat → 0 < count k) →
     calls cs (Live r)
     = if decide (0 < count (length cs)) then Some (Live (count (length cs)))
       else if decide (count (length cs) = 0) then Some Deleted else None)
  ∧ ((∃ k, (0 < k < length cs)%nat ∧ count k <= 0) →
     calls cs (Live r) = None).
Proof.
  intros H0 Hmax Hne count. unfold count. rewrite firstn_all. split.
  - by apply calls_positive.
  - by apply calls_after_zero.
Qed.

End MemTableFacts.

Lemma Unref_deletes_at_zero_witness :
  let cs := [MemTableRefs.DoRef; MemTableRefs.DoRef; MemTableRefs.DoUnref;
             MemTableRefs.DoUnref] in
  0 <= 0 ∧ 0 + Z.of_nat (length cs) <= MemTableRefs.INT_MAX ∧ cs ≠ []
  ∧ MemTableRefs.calls cs (MemTableRefs.Live 0) = Some MemTableRefs.Deleted
  ∧ MemTableRefs.calls (cs ++ [MemTableRefs.DoRef]) (MemTableRefs.Live 0) = None.
Proof.
  intros cs.
  assert (0 <= 0) as H0 by reflexivity.
  assert (0 + Z.of_nat (length cs) <= MemTableRefs.INT_MAX) as Hmax
    by (vm_compute; discriminate).
  assert (cs ≠ []) as Hne by discriminate.
  split; [exact H0|]. split; [exact Hmax|]. split; [exact Hne|]. split.
  - rewrite (proj1 (Unref_deletes_at_zero cs 0 H0 Hmax Hne)).
    + reflexivity.
    + intros k Hk. cbn [length cs] in Hk.
      destruct k as [|[|[|[|k]]]]; vm_compute; try reflexivity; lia.
  - apply (Unref_deletes_at_zero (cs ++ [MemTableRefs.DoRef]) 0).
    + reflexivity.
    + vm_compute. discriminate.
    + discriminate.
    + exists 4%nat. split; [cbn; lia|]. vm_compute. discriminate.
Defined.

(** ** LRU cache *)

Section CacheFacts.
Import Cache.

#[local] Arguments Table.Resize : simpl never.
#[local] Arguments Table.grow : simpl never.

(** *** Buckets *)

Lemma join_insert_split {A} (l : list (list A)) i chain chain' :
  l !! i = Some chain →
  ∃ before after,
    mjoin l = before ++ chain ++ after
    ∧ mjoin (<[i := chain']> l) = before ++ chain' ++ after.
Proof.
  intros Hi. exists (mjoin (take i l)), (mjoin (drop (S i) l)).
  pose proof (lookup_lt_Some _ _ _ Hi) as Hlt.
  split.
  - rewrite <- (take_drop_middle l i chain Hi) at 1.
    by rewrite join_app.
  - rewrite insert_take_drop by done. by rewrite join_app.
Qed.

Lemma elem_of_join_lookup {A} (l : list (list A)) (x : A) :
  x ∈ mjoin l ↔ ∃ i chain, l !! i = Some chain ∧ x ∈ chain.
Proof.
  rewrite list_elem_of_join. split.
  - intros (chain & Hx & Hc). apply list_elem_of_lookup in Hc as [i Hi]. eauto.
  - intros (i & chain & Hi & Hx). exists chain. split; [done|].
    by eapply list_elem_of_lookup_2.
Qed.

Lemma land_mask_range x j :
  0 <= j → 0 <= Z.land x (2 ^ j - 1) < 2 ^ j.
Proof.
  intros Hj. replace (2 ^ j - 1) with (Z.ones j) by (rewrite Z.ones_equiv; lia).
  rewrite Z.land_ones by done. apply Z.mod_pos_bound. by apply Z.pow_pos_nonneg.
Qed.

(** *** Walking a chain *)

Lemma find_in_chain_spec (heap : Heap) key hash chain :
  (∀ p, p ∈ chain → is_Some (heap !! p)) →
  ∃ pos, Table.find_in_chain heap key hash chain = Some pos
    ∧ (∀ i q h, (i < pos)%nat → chain !! i = Some q → heap !! q = Some h →
         handle_matches h key hash = false)
    ∧ match chain !! pos with
      | Some p => ∃ h, heap !! p = Some h ∧ handle_matches h key hash = true
      | None => pos = length chain
      end.
Proof.
  induction chain as [|p chain IH]; intros Hlive.
  - exists 0%nat. split; [done|]. split; [intros; lia|done].
  - destruct (Hlive p) as [h Hh]; [by left|].
    destruct IH as (pos & Hfind & Hbefore & Hat).
    { intros q Hq. apply Hlive. by right. }
    cbn [Table.find_in_chain]. rewrite Hh. cbn.
    destruct (handle_matches h key hash) eqn:Hm.
    + exists 0%nat. split; [done|]. split; [intros; lia|]. cbn. eauto.
    + exists (S pos). rewrite Hfind. split; [done|]. split.
      * intros [|i] q hq Hi Hq Hhq; cbn in Hq.
        -- by simplify_eq.
        -- eapply Hbefore; [|done..]. lia.
      * cbn. destruct (chain !! pos); [done|]. by rewrite Hat.
Qed.

Lemma handle_matches_true h k hsh :
  handle_matches h k hsh = true ↔ hash h = hsh ∧ key h = k.
Proof. unfold handle_matches. by rewrite bool_decide_eq_true. Qed.

Lemma handle_matches_false h k hsh :
  handle_matches h k hsh = false ↔ ¬ (hash h = hsh ∧ key h = k).
Proof. unfold handle_matches. by rewrite bool_decide_eq_false. Qed.

(** *** The hash table *)

Lemma table_ok_bucket_lt heap t hsh :
  table_ok heap t → (Table.slot_bucket t hsh < length (list_ t))%nat.
Proof.
  intros [(j & Hj & Hlen) Hl _ _ _ _]. unfold Table.slot_bucket.
  rewrite Hl, Hlen. pose proof (land_mask_range hsh j). lia.
Qed.

Lemma table_ok_live heap t p :
  table_ok heap t → p ∈ entries t →
  ∃ h, heap !! p = Some h
    ∧ ∃ chain, list_ t !! Table.slot_bucket t (hash h) = Some chain ∧ p ∈ chain.
Proof.
  intros Hok (i & chain & Hi & Hp)%elem_of_join_lookup.
  destruct (tok_bucket _ _ Hok _ _ _ Hi Hp) as (h & Hh & <-). eauto.
Qed.

(** Where [FindPointer] ends up. *)
Lemma FindPointer_spec heap t k hsh :
  table_ok heap t →
  ∃ chain pos,
    list_ t !! Table.slot_bucket t hsh = Some chain
    ∧ Table.FindPointer heap t k hsh = Some (Table.slot_bucket t hsh, pos)
    ∧ match chain !! pos with
      | Some p => ∃ h, heap !! p = Some h ∧ hash h = hsh ∧ key h = k
      | None => pos = length chain
                ∧ ∀ p h, p ∈ entries t → heap !! p = Some h →
                    ¬ (hash h = hsh ∧ key h = k)
      end.
Proof.
  intros Hok.
  destruct (lookup_lt_is_Some_2 (list_ t) _ (table_ok_bucket_lt _ _ hsh Hok))
    as [chain Hchain].
  destruct (find_in_chain_spec heap k hsh chain) as (pos & Hfind & Hbefore & Hat).
  { intros p Hp. destruct (tok_bucket _ _ Hok _ _ _ Hchain Hp) as (h & Hh & _). eauto. }
  exists chain, pos. split; [done|]. split.
  { unfold Table.FindPointer. cbv zeta. rewrite Hchain. cbn. by rewrite Hfind. }
  destruct (chain !! pos) as [p|] eqn:Hpos.
  - destruct Hat as (h & Hh & Hm%handle_matches_true). eauto.
  - split; [done|]. intros p h Hp Hh [Hhash Hkey].
    destruct (table_ok_live _ _ _ Hok Hp) as (h' & Hh' & chain' & Hc' & Hin).
    rewrite Hh in Hh'. injection Hh' as <-. subst hsh k.
    rewrite Hchain in Hc'. injection Hc' as <-.
    apply list_elem_of_lookup in Hin as [i Hi].
    pose proof (lookup_lt_Some _ _ _ Hi).
    assert (handle_matches h (key h) (hash h) = false) as Hf.
    { eapply Hbefore; [|done..]. lia. }
    apply handle_matches_false in Hf. by apply Hf.
Qed.

Lemma Table_Lookup_spec heap t k hsh :
  table_ok heap t →
  ∃ r, Table.Lookup heap t k hsh = Some r
    ∧ match r with
      | Some p => p ∈ entries t
                  ∧ ∃ h, heap !! p = Some h ∧ hash h = hsh ∧ key h = k
      | None => ∀ p h, p ∈ entries t → heap !! p = Some h →
                  ¬ (hash h = hsh ∧ key h = k)
      end.
Proof.
  intros Hok.
  destruct (FindPointer_spec heap t k hsh Hok) as (chain & pos & Hc & Hfp & Hat).
  exists (chain !! pos). unfold Table.Lookup, Table.deref. rewrite Hfp. cbn.
  rewrite Hc. cbn. split; [done|].
  destruct (chain !! pos) as [p|] eqn:Hpos; [|by destruct Hat].
  split; [|done]. apply elem_of_join_lookup. eexists _, _. split; [done|].
  by eapply list_elem_of_lookup_2.
Qed.

(** A handle in the table is found under its own key. *)
Lemma Table_Lookup_entry heap t p h :
  table_ok heap t → p ∈ entries t → heap !! p = Some h →
  Table.Lookup heap t (key h) (hash h) = Some (Some p).
Proof.
  intros Hok Hp Hh.
  destruct (Table_Lookup_spec heap t (key h) (hash h) Hok) as ([q|] & -> & Hr).
  - destruct Hr as (Hq & hq & Hhq & Hhash & Hkey).
    do 2 f_equal. by eapply (tok_keys _ _ Hok).
  - by destruct (Hr p h Hp Hh).
Qed.

(** The table depends on the heap only through the keys and hashes of
    its own entries. *)
Lemma table_ok_heap_ext heap heap' t :
  table_ok heap t →
  (∀ p h, p ∈ entries t → heap !! p = Some h →
     ∃ h', heap' !! p = Some h' ∧ hash h' = hash h ∧ key h' = key h) →
  table_ok heap' t.
Proof.
  intros Hok Hext. destruct Hok as [Hpow Hlen Hb Hnd Hk He].
  split; try done.
  - intros i chain p Hi Hp. destruct (Hb i chain p Hi Hp) as (h & Hh & Hbk).
    destruct (Hext p h) as (h' & Hh' & Hhash & _); [|done|].
    { apply elem_of_join_lookup. eauto. }
    exists h'. by rewrite Hhash.
  - intros p q hp' hq' Hp Hq Hhp' Hhq' Hhash Hkey.
    apply elem_of_join_lookup in Hp as Hp2. destruct Hp2 as (ip & cp & Hip & Hcp).
    apply elem_of_join_lookup in Hq as Hq2. destruct Hq2 as (iq & cq & Hiq & Hcq).
    destruct (Hb _ _ _ Hip Hcp) as (hp & Hhp & _).
    destruct (Hb _ _ _ Hiq Hcq) as (hq & Hhq & _).
    destruct (Hext p hp Hp Hhp) as (hp2 & Hhp2 & Hh1 & Hk1).
    destruct (Hext q hq Hq Hhq) as (hq2 & Hhq2 & Hh2 & Hk2).
    simplify_eq. eapply Hk; [done..|congruence|congruence].
Qed.

(** Replacing one bucket's chain. *)
Lemma table_ok_update_bucket heap t i chain chain' elems' :
  table_ok heap t →
  list_ t !! i = Some chain →
  let t' := {| length_ := length_ t; elems_ := elems';
               list_ := <[i := chain']> (list_ t) |} in
  (∀ q, q ∈ chain' → ∃ h, heap !! q = Some h ∧ Table.slot_bucket t (hash h) = i) →
  NoDup (entries t') →
  (∀ p q hp hq, p ∈ entries t' → q ∈ entries t' →
     heap !! p = Some hp → heap !! q = Some hq →
     hash hp = hash hq → key hp = key hq → p = q) →
  elems' = Z.of_nat (length (entries t')) →
  table_ok heap t'.
Proof.
  intros Hok Hi t' Hchain Hnd Hkeys Helems.
  destruct Hok as [Hpow Hlen Hb _ _ _].
  split; try done.
  - cbn. by rewrite length_insert.
  - intros i' c' q Hi' Hq. cbn in Hi'.
    destruct (decide (i' = i)) as [->|Hne].
    + rewrite list_lookup_insert_eq in Hi' by by eapply lookup_lt_Some.
      injection Hi' as <-. by apply Hchain.
    + rewrite list_lookup_insert_ne in Hi' by done. by eapply Hb.
Qed.

Lemma NoDup_app_cons_remove {A} (l1 l2 : list A) x :
  NoDup (l1 ++ x :: l2) → NoDup (l1 ++ l2) ∧ x ∉ l1 ++ l2.
Proof.
  intros Hnd. rewrite <- Permutation_middle in Hnd.
  by apply NoDup_cons in Hnd as [? ?].
Qed.

Lemma Table_Remove_spec heap t k hsh :
  table_ok heap t → Z.of_nat (length (entries t)) < 2 ^ 32 →
  ∃ r, Table.Lookup heap t k hsh = Some r
    ∧ match r with
      | None => Table.Remove heap t k hsh = Some (t, None)
      | Some p =>
          ∃ t' before after,
            Table.Remove heap t k hsh = Some (t', Some p)
            ∧ table_ok heap t'
            ∧ entries t = before ++ p :: after
            ∧ entries t' = before ++ after
            ∧ ∃ h, heap !! p = Some h ∧ hash h = hsh ∧ key h = k
      end.
Proof.
  intros Hok Hsmall.
  destruct (FindPointer_spec heap t k hsh Hok) as (chain & pos & Hc & Hfp & Hat).
  exists (chain !! pos). split.
  { unfold Table.Lookup, Table.deref. rewrite Hfp. cbn. by rewrite Hc. }
  unfold Table.Remove. rewrite Hfp. cbn. rewrite Hc. cbn.
  destruct (chain !! pos) as [p|] eqn:Hpos; [|done].
  destruct (join_insert_split (list_ t) _ chain (delete pos chain) Hc)
    as (before & after & Hj & Hj').
  rewrite <- (take_drop_middle chain pos p Hpos) in Hj.
  eexists _, (before ++ take pos chain), (drop (S pos) chain ++ after).
  split; [done|].
  assert (entries t = (before ++ take pos chain) ++ p :: drop (S pos) chain ++ after)
    as He by (unfold entries; rewrite Hj, <- !app_assoc; done).
  assert (mjoin (<[Table.slot_bucket t hsh := delete pos chain]> (list_ t))
          = (before ++ take pos chain) ++ drop (S pos) chain ++ after)
    as He' by (rewrite Hj', delete_take_drop, <- !app_assoc; done).
  pose proof (tok_nodup _ _ Hok) as Hnd. rewrite He in Hnd.
  apply NoDup_app_cons_remove in Hnd as [Hnd Hp].
  split; [|split; [done|split; [done|done]]].
  apply table_ok_update_bucket with (chain := chain); [done..| | | |].
  - intros q Hq. eapply (tok_bucket _ _ Hok); [done|].
    rewrite delete_take_drop in Hq.
    apply elem_of_app in Hq as [Hq|Hq];
      [by eapply subseteq_take|by eapply subseteq_drop].
  - unfold entries. cbn. by rewrite He'.
  - unfold entries at 1 2. cbn. rewrite He'.
    intros p' q' hp hq Hp' Hq'.
    apply (tok_keys _ _ Hok); rewrite He, <- Permutation_middle; by right.
  - unfold entries. cbn. rewrite He'.
    rewrite (tok_elems _ _ Hok), He in *. rewrite !length_app in *.
    cbn [length] in *. rewrite !length_app in *.
    unfold to_uint32. rewrite Z.mod_small; lia.
Qed.

(** *** Resizing *)

Lemma grow_S rounds new_length elems :
  Table.grow (S rounds) new_length elems
  = if new_length <? elems
    then Table.grow rounds (to_uint32 (new_length * 2)) elems
    else Some new_length.
Proof. reflexivity. Qed.

Lemma grow_spec rounds j elems :
  2 <= j <= 31 → 31 - j < Z.of_nat rounds → elems <= 2 ^ 31 →
  ∃ j', j <= j' <= 31 ∧ Table.grow rounds (2 ^ j) elems = Some (2 ^ j')
    ∧ elems <= 2 ^ j'.
Proof.
  revert j. induction rounds as [|rounds IH]; intros j Hj Hr He; [lia|].
  rewrite grow_S. destruct (2 ^ j <? elems) eqn:Hlt.
  - apply Z.ltb_lt in Hlt.
    assert (j < 31) as Hj31.
    { destruct (decide (j = 31)) as [->|]; [lia|lia]. }
    assert (to_uint32 (2 ^ j * 2) = 2 ^ (j + 1)) as ->.
    { unfold to_uint32. rewrite Z.pow_add_r by lia.
      rewrite Z.mod_small; [lia|].
      assert (2 ^ j * 2 = 2 ^ (j + 1)) as -> by (rewrite Z.pow_add_r; lia).
      split; [apply Z.pow_nonneg; lia|]. apply Z.pow_lt_mono_r; lia. }
    destruct (IH (j + 1)) as (j' & Hj' & -> & Hle); [lia..|].
    exists j'. split; [lia|done].
  - apply Z.ltb_ge in Hlt. exists j. split; [lia|done].
Qed.

Lemma rehash_spec heap j hs buckets :
  0 <= j → length buckets = Z.to_nat (2 ^ j) →
  (∀ p, p ∈ hs → is_Some (heap !! p)) →
  ∃ buckets', Table.rehash heap (2 ^ j) hs buckets = Some buckets'
    ∧ length buckets' = length buckets
    ∧ mjoin buckets' ≡ₚ hs ++ mjoin buckets
    ∧ (buckets_ok heap (2 ^ j) buckets → buckets_ok heap (2 ^ j) buckets').
Proof.
  intros Hj. revert buckets. induction hs as [|p hs IH]; intros buckets Hlen Hlive.
  - exists buckets. by cbn.
  - destruct (Hlive p) as [h Hh]; [by left|].
    cbn [Table.rehash]. rewrite Hh. cbn.
    set (i := Z.to_nat (Z.land (hash h) (2 ^ j - 1))).
    assert (i < length buckets)%nat as Hi.
    { unfold i. rewrite Hlen. pose proof (land_mask_range (hash h) j). lia. }
    destruct (lookup_lt_is_Some_2 _ _ Hi) as [chain Hchain].
    rewrite Hchain. cbn.
    destruct (IH (<[i := p :: chain]> buckets)) as (buckets' & -> & Hl & Hperm & Hbk).
    { by rewrite length_insert. }
    { intros q Hq. apply Hlive. by right. }
    exists buckets'. split; [done|]. rewrite length_insert in Hl.
    split; [done|].
    destruct (join_insert_split buckets i chain (p :: chain) Hchain)
      as (before & after & Hb & Hb').
    split.
    + rewrite Hperm, Hb', Hb. cbn.
      rewrite <- !Permutation_middle. done.
    + intros Hok. apply Hbk. intros i' c' q Hi' Hq.
      destruct (decide (i' = i)) as [->|Hne].
      * rewrite list_lookup_insert_eq in Hi' by done. injection Hi' as <-.
        apply elem_of_cons in Hq as [->|Hq]; [eauto|]. by eapply Hok.
      * rewrite list_lookup_insert_ne in Hi' by done. by eapply Hok.
Qed.

Lemma Resize_spec heap t :
  table_ok heap t → Z.of_nat (length (entries t)) <= 2 ^ 31 →
  ∃ t', Table.Resize heap t = Some t'
    ∧ table_ok heap t'
    ∧ entries t' ≡ₚ entries t.
Proof.
  intros Hok Hsmall. unfold Table.Resize.
  destruct (grow_spec 32 2 (elems_ t)) as (j & Hj & Hgrow & Hle); [lia..| |].
  { by rewrite (tok_elems _ _ Hok). }
  change (2 ^ 2) with 4 in Hgrow. rewrite Hgrow. cbn.
  rewrite take_ge by (rewrite (tok_len _ _ Hok); lia). fold (entries t).
  destruct (rehash_spec heap j (entries t) (replicate (Z.to_nat (2 ^ j)) []))
    as (buckets' & -> & Hl & Hperm & Hbk); [lia|by rewrite length_replicate| |].
  { intros p Hp. destruct (table_ok_live _ _ _ Hok Hp) as (h & -> & _). eauto. }
  cbn. rewrite length_replicate in Hl.
  assert (mjoin (replicate (Z.to_nat (2 ^ j)) ([] : list ptr)) = []) as Hnil.
  { clear. induction (Z.to_nat (2 ^ j)) as [|n IHn]; [done|]. exact IHn. }
  rewrite Hnil, app_nil_r in Hperm.
  rewrite option_guard_True.
  2:{ rewrite (tok_elems _ _ Hok). unfold to_uint32. rewrite Z.mod_small; lia. }
  cbn. eexists. split; [done|]. split; [|done].
  split.
  - exists j. split; [lia|done].
  - done.
  - cbn. apply Hbk. intros i chain p Hi Hp.
    apply lookup_replicate in Hi as [-> _]. by apply elem_of_nil in Hp.
  - unfold entries. cbn. rewrite Hperm. apply (tok_nodup _ _ Hok).
  - unfold entries at 1 2. cbn. intros p q hp hq Hp Hq.
    rewrite Hperm in Hp, Hq. by apply (tok_keys _ _ Hok).
  - unfold entries. cbn. rewrite Hperm. apply (tok_elems _ _ Hok).
Qed.

(** *** Insertion into the table *)

Lemma insert_bucket_ok heap t e h chain chain' (A X B : list ptr) :
  table_ok heap t → heap !! e = Some h → e ∉ entries t →
  list_ t !! Table.slot_bucket t (hash h) = Some chain →
  entries t = A ++ X ++ B →
  mjoin (<[Table.slot_bucket t (hash h) := chain']> (list_ t)) = A ++ e :: B →
  (∀ q, q ∈ chain' → q = e ∨ q ∈ chain) →
  (∀ q hq, q ∈ A ++ B → heap !! q = Some hq →
     ¬ (hash hq = hash h ∧ key hq = key h)) →
  table_ok heap {| length_ := length_ t;
                   elems_ := Z.of_nat (length (A ++ e :: B));
                   list_ := <[Table.slot_bucket t (hash h) := chain']> (list_ t) |}.
Proof.
  intros Hok Hh He Hc Hent Hent' Hsub Hnomatch.
  assert (∀ q, q ∈ A ++ B → q ∈ entries t) as Hin.
  { intros q. rewrite Hent, !elem_of_app. tauto. }
  assert (e ∉ A ++ B) as He' by (intros ?; apply He; auto).
  assert (NoDup (A ++ B)) as Hnd.
  { pose proof (tok_nodup _ _ Hok) as Hnd. rewrite Hent, app_assoc in Hnd.
    apply NoDup_app in Hnd as ((HA & _ & _)%NoDup_app & HAB & HB).
    apply NoDup_app. split; [done|]. split; [|done].
    intros x Hx. apply HAB. apply elem_of_app. by left. }
  apply table_ok_update_bucket with (chain := chain); [done..| | | |].
  - intros q [->|Hq]%Hsub; [eauto|]. by eapply (tok_bucket _ _ Hok).
  - unfold entries. cbn. rewrite Hent', <- Permutation_middle.
    by apply NoDup_cons.
  - unfold entries at 1 2. cbn. rewrite Hent'.
    intros p q hp hq Hp Hq Hhp Hhq Hhash Hkey.
    rewrite <- Permutation_middle in Hp, Hq.
    apply elem_of_cons in Hp as [->|Hp]; apply elem_of_cons in Hq as [->|Hq].
    + done.
    + rewrite Hh in Hhp. injection Hhp as <-.
      destruct (Hnomatch q hq Hq Hhq). by split.
    + rewrite Hh in Hhq. injection Hhq as <-.
      destruct (Hnomatch p hp Hp Hhp). by split.
    + by eapply (tok_keys _ _ Hok); eauto.
  - unfold entries. cbn. by rewrite Hent'.
Qed.

Lemma Table_Insert_spec heap t e h :
  table_ok heap t → heap !! e = Some h → e ∉ entries t →
  Z.of_nat (length (entries t)) < 2 ^ 31 →
  ∃ old t',
    Table.Lookup heap t (key h) (hash h) = Some old
    ∧ Table.Insert heap t e = Some (t', old)
    ∧ table_ok heap t'
    ∧ (∀ q, q ∈ entries t' ↔ q = e ∨ (q ∈ entries t ∧ old ≠ Some q))
    ∧ length (entries t')
      = (length (entries t) + match old with Some _ => 0 | None => 1 end)%nat
    ∧ match old with
      | Some o => o ∈ entries t
                  ∧ ∃ ho, heap !! o = Some ho
                      ∧ hash ho = hash h ∧ key ho = key h
      | None => True
      end.
Proof.
  intros Hok Hh He Hsmall.
  destruct (FindPointer_spec heap t (key h) (hash h) Hok)
    as (chain & pos & Hc & Hfp & Hat).
  exists (chain !! pos). unfold Table.Insert. rewrite Hh. cbn.
  rewrite Hfp. cbn. rewrite Hc. cbn.
  assert (Table.Lookup heap t (key h) (hash h) = Some (chain !! pos)) as HL.
  { unfold Table.Lookup, Table.deref. rewrite Hfp. cbn. by rewrite Hc. }
  pose proof (tok_nodup _ _ Hok) as Hnd.
  pose proof (tok_elems _ _ Hok) as Helems.
  destruct (chain !! pos) as [o|] eqn:Hpos.
  - (* a handle with the same key is replaced in its slot *)
    destruct Hat as (ho & Hho & Hhash & Hkey).
    destruct (join_insert_split (list_ t) _ chain (<[pos := e]> chain) Hc)
      as (before & after & Hj & Hj').
    rewrite <- (take_drop_middle chain pos o Hpos) in Hj.
    rewrite (insert_take_drop chain pos e) in Hj' by by eapply lookup_lt_Some.
    set (A := before ++ take pos chain). set (B := drop (S pos) chain ++ after).
    assert (entries t = A ++ [o] ++ B) as Hent
      by (unfold entries, A, B; rewrite Hj, <- !app_assoc; done).
    assert (mjoin (<[Table.slot_bucket t (hash h) := <[pos := e]> chain]> (list_ t))
            = A ++ e :: B) as Hent'.
    { rewrite (insert_take_drop chain pos e) by by eapply lookup_lt_Some.
      unfold A, B. rewrite Hj', <- !app_assoc. done. }
    rewrite Hent in Hnd. apply NoDup_app_cons_remove in Hnd as [Hnd Ho].
    eexists. split; [done|]. split; [done|].
    assert (length (entries t) = length (A ++ e :: B)) as Hlen.
    { rewrite Hent, !length_app. cbn. lia. }
    split; [|split; [|split]].
    + rewrite Helems, Hlen.
      apply (insert_bucket_ok heap t e h chain _ A [o] B); try done.
      * intros q Hq.
        rewrite (insert_take_drop chain pos e) in Hq by by eapply lookup_lt_Some.
        apply elem_of_app in Hq as [Hq|Hq]; [right; by eapply subseteq_take|].
        apply elem_of_cons in Hq as [->|Hq]; [by left|right].
        by eapply subseteq_drop.
      * intros q hq Hq Hhq [Hqh Hqk].
        assert (q = o) as ->; [|done].
        eapply (tok_keys _ _ Hok); [| |done|done|congruence|congruence];
          rewrite Hent; change (A ++ [o] ++ B) with (A ++ o :: B);
          rewrite <- Permutation_middle; [by right|by left].
    + intros q. unfold entries at 1. cbn. rewrite Hent', Hent.
      change (A ++ [o] ++ B) with (A ++ o :: B).
      rewrite <- !Permutation_middle, !elem_of_cons.
      split.
      * intros [->|Hq]; [by left|right]. split; [by right|].
        intros [= ->]. by apply Ho.
      * intros [->|[[->|Hq] Hne]]; [by left|by destruct Hne|by right].
    + unfold entries at 1. cbn. rewrite Hent'. lia.
    + split; [|eauto]. rewrite Hent. change (A ++ [o] ++ B) with (A ++ o :: B).
      rewrite <- Permutation_middle. by left.
  - (* the handle goes to the trailing slot of its bucket *)
    destruct Hat as [-> Hnomatch].
    destruct (join_insert_split (list_ t) _ chain (chain ++ [e]) Hc)
      as (before & after & Hj & Hj').
    set (A := before ++ chain). set (B := after).
    assert (entries t = A ++ [] ++ B) as Hent
      by (unfold entries, A, B; rewrite Hj, <- !app_assoc; done).
    assert (mjoin (<[Table.slot_bucket t (hash h) := chain ++ [e]]> (list_ t))
            = A ++ e :: B) as Hent'.
    { unfold A, B. rewrite Hj', <- !app_assoc. done. }
    assert (Z.of_nat (length (A ++ e :: B)) = elems_ t + 1) as Hlen.
    { rewrite Helems, Hent, !length_app. cbn. lia. }
    assert (to_uint32 (elems_ t + 1) = Z.of_nat (length (A ++ e :: B))) as Hw.
    { rewrite Hlen. unfold to_uint32. rewrite Z.mod_small; lia. }
    rewrite Hw.
    pose proof (insert_bucket_ok heap t e h chain (chain ++ [e]) A [] B
                  Hok Hh He Hc Hent Hent') as Hok1.
    cbn in Hok1.
    assert (∀ q, q ∈ A ++ e :: B ↔ q = e ∨ q ∈ entries t ∧ None ≠ Some q) as Hmem.
    { intros q. rewrite Hent. cbn. rewrite !elem_of_app, elem_of_cons.
      split; [intros [?|[?|?]]; auto|intros [?|[[?|?] _]]; auto]. }
    match goal with
    | |- context [Table.Resize heap ?tbl] => set (t1 := tbl) in *
    end.
    assert (table_ok heap t1) as Hok1'.
    { apply Hok1.
      - intros q. rewrite elem_of_app, list_elem_of_singleton. tauto.
      - intros q hq Hq. apply Hnomatch. rewrite Hent. cbn. done. }
    assert (entries t1 = A ++ e :: B) as Hent1 by done.
    destruct (length_ t <? Z.of_nat (length (A ++ e :: B))) eqn:Hload.
    + destruct (Resize_spec heap t1 Hok1') as (t' & -> & Hok' & Hperm).
      { rewrite Hent1. lia. }
      cbn. eexists. split; [done|]. split; [done|]. split; [done|].
      split; [|split; [|done]].
      * intros q. rewrite Hperm, Hent1. apply Hmem.
      * rewrite Hperm, Hent1, Hent, !length_app. cbn. lia.
    + cbn. eexists. split; [done|]. split; [done|]. split; [done|].
      split; [|split; [|done]].
      * intros q. rewrite Hent1. apply Hmem.
      * rewrite Hent1, Hent, !length_app. cbn. lia.
Qed.

(** *** Heap updates that the table does not see *)

Lemma table_ok_update heap t e h h' :
  table_ok heap t → heap !! e = Some h →
  hash h' = hash h → key h' = key h →
  table_ok (<[e := h']> heap) t.
Proof.
  intros Hok Hh Hhash Hkey. eapply table_ok_heap_ext; [done|].
  intros p hp Hp Hhp. destruct (decide (p = e)) as [->|Hne].
  - rewrite lookup_insert_eq. simplify_eq. eauto.
  - rewrite lookup_insert_ne by done. eauto.
Qed.

Lemma table_ok_delete heap t e :
  table_ok heap t → e ∉ entries t → table_ok (delete e heap) t.
Proof.
  intros Hok He. eapply table_ok_heap_ext; [done|].
  intros p hp Hp Hhp. rewrite lookup_delete_ne by (intros ->; done). eauto.
Qed.

Lemma table_ok_alloc heap t e h :
  table_ok heap t → heap !! e = None → table_ok (<[e := h]> heap) t.
Proof.
  intros Hok He. eapply table_ok_heap_ext; [done|].
  intros p hp Hp Hhp. rewrite lookup_insert_ne by (intros ->; congruence). eauto.
Qed.

Lemma multiplicity_le_size (X : gmultiset ptr) p : (multiplicity p X <= size X)%nat.
Proof.
  induction X as [|x X IH] using gmultiset_ind.
  - rewrite multiplicity_empty. lia.
  - rewrite multiplicity_disj_union, gmultiset_size_disj_union,
      gmultiset_size_singleton.
    rewrite multiplicity_singleton. case_decide; lia.
Qed.

Lemma to_uint32_small z : 0 <= z < 2 ^ 32 → to_uint32 z = z.
Proof. intros Hz. unfold to_uint32. by rewrite Z.mod_small. Qed.

Lemma filter_ne_not_in (l : list ptr) e :
  e ∉ l → filter (λ p, p ≠ e) l = l.
Proof.
  induction l as [|x l IH]; [done|]. intros [Hx Hl]%not_elem_of_cons.
  rewrite filter_cons_True by done. by rewrite IH.
Qed.

Lemma filter_ne_cons (l : list ptr) e :
  e ∉ l → filter (λ p, p ≠ e) (e :: l) = l.
Proof.
  intros Hl. rewrite filter_cons_False by (intros ?; done).
  by apply filter_ne_not_in.
Qed.

Lemma elem_of_filter_ne (l : list ptr) e p :
  p ∈ filter (λ q, q ≠ e) l ↔ p ≠ e ∧ p ∈ l.
Proof. by rewrite list_elem_of_filter. Qed.

(** *** The shard's operations preserve the invariant *)

Ltac state_simpl :=
  cbn [shard held handles table_ lru_ in_use_ next_handle deleter_calls
       capacity_ usage_ set_handles set_lru set_in_use set_table set_usage
       LRU_Append fmap option_fmap option_map mbind option_bind].

Ltac state_simpl_all :=
  cbn [shard held handles table_ lru_ in_use_ next_handle deleter_calls
       capacity_ usage_ set_handles set_lru set_in_use set_table set_usage
       LRU_Append fmap option_fmap option_map mbind option_bind] in *.

Ltac inv_open HI :=
  destruct HI as [Htab Hok Hndl Hndi Hdnd Hhb Heb];
  cbn [shard held handles table_ lru_ in_use_ next_handle deleter_calls
       capacity_ usage_] in *.

Lemma multiplicity_release (X : gmultiset ptr) e p :
  multiplicity p (X ∖ {[+ e +]})
  = (multiplicity p X - (if decide (p = e) then 1 else 0))%nat.
Proof.
  rewrite multiplicity_difference, multiplicity_singleton.
  repeat case_decide; congruence.
Qed.

Lemma multiplicity_acquire (X : gmultiset ptr) e p :
  multiplicity p ({[+ e +]} ⊎ X)
  = ((if decide (p = e) then 1 else 0) + multiplicity p X)%nat.
Proof.
  rewrite multiplicity_disj_union, multiplicity_singleton.
  repeat case_decide; congruence.
Qed.

Lemma size_release (X : gmultiset ptr) e : (size (X ∖ {[+ e +]}) <= size X)%nat.
Proof. apply gmultiset_subseteq_size. multiset_solver. Qed.

Lemma deleted_snoc (dcs : list DeleterCall) call p :
  p ∈ dc_handle <$> dcs ++ [call] ↔ p ∈ dc_handle <$> dcs ∨ p = dc_handle call.
Proof.
  rewrite fmap_app, elem_of_app. cbn. by rewrite list_elem_of_singleton.
Qed.

Lemma NoDup_snoc {A} (l : list A) x : NoDup l → x ∉ l → NoDup (l ++ [x]).
Proof.
  intros Hl Hx. apply NoDup_app. split; [done|]. split; [|apply NoDup_singleton].
  intros y Hy ->%list_elem_of_singleton. done.
Qed.

Ltac finish :=
  first [ by intuition (try congruence; try lia)
        | by intuition (try congruence; try lia; auto with lia) ].

(** The state of an address that an operation does not touch is carried
    over. *)
Ltac untouched Hok p :=
  specialize (Hok p); unfold handle_ok in *;
  cbn [shard held handles table_ lru_ in_use_ next_handle deleter_calls
       capacity_ usage_ set_handles set_lru set_in_use set_table set_usage] in *;
  repeat first [ rewrite lookup_insert_ne by done
               | rewrite lookup_delete_ne by done ];
  destruct (_ !! p);
  rewrite ?multiplicity_release, ?multiplicity_acquire;
  rewrite ?decide_False by done;
  rewrite ?deleted_snoc, ?elem_of_app, ?elem_of_filter_ne, ?list_elem_of_singleton;
  cbn [dc_handle];
  rewrite ?Nat.sub_0_r, ?Nat.add_0_l;
  finish.

(** [Release] of a handle that the client holds. *)
Lemma Unref_held n c X e :
  Inv None n {| shard := c; held := X |} → e ∈ X → Z.of_nat n < 2 ^ 31 →
  ∃ c', Unref e c = Some c'
    ∧ Inv None n {| shard := c'; held := X ∖ {[+ e +]} |}
    ∧ next_handle c' = next_handle c.
Proof.
  intros HI He Hn.
  destruct c as [cap us lru inu tbl heap nxt dcs].
  inv_open HI.
  pose proof (proj1 (elem_of_multiplicity e X) He) as Hm.
  pose proof (multiplicity_le_size X e) as Hle.
  pose proof (size_release X e) as Hsz.
  pose proof (Hok e) as Hoke. unfold handle_ok in Hoke. cbn in Hoke.
  destruct (heap !! e) as [h|] eqn:Hh; [|lia].
  destruct Hoke as (Hr & H1 & Hc & _ & Hl & Hi & Hf & Hd).
  unfold Unref. cbn [handles]. rewrite Hh. cbn [mbind option_bind].
  rewrite option_guard_True by lia. cbn [mbind option_bind].
  cbn [refs set_refs in_cache].
  destruct (in_cache h) eqn:Hic; rewrite to_uint32_small by lia;
    case_bool_decide as Hz; cbn [andb mbind option_bind].
  - lia.
  - case_bool_decide as Hone.
    + (* the last client reference goes: from in_use_ to lru_ *)
      unfold LRU_Remove. cbn [lru_ in_use_ set_handles].
      rewrite decide_False by (rewrite Hl; lia).
      rewrite decide_True by (rewrite Hi; split; [done|lia]).
      cbn. eexists. split; [done|]. split; [|done].
      split; cbn; try done; try lia.
      * by eapply table_ok_update.
      * intros p. destruct (decide (p = e)) as [->|Hne]; [|untouched Hok p].
        unfold handle_ok. cbn. rewrite lookup_insert_eq. cbn. rewrite Hic.
        rewrite multiplicity_release, decide_True by done.
        rewrite elem_of_app, elem_of_filter_ne, list_elem_of_singleton.
        finish.
      * apply NoDup_snoc; [done|]. rewrite Hl. lia.
      * by apply NoDup_filter.
    + cbn. eexists. split; [done|]. split; [|done].
      split; cbn; try done; try lia.
      * by eapply table_ok_update.
      * intros p. destruct (decide (p = e)) as [->|Hne]; [|untouched Hok p].
        unfold handle_ok. cbn. rewrite lookup_insert_eq. cbn. rewrite Hic.
        rewrite multiplicity_release, decide_True by done.
        finish.
  - (* the last reference goes: the deleter runs and the handle is freed *)
    rewrite option_guard_True by done. cbn. eexists. split; [done|]. split; [|done].
    assert (e ∉ entries tbl) as Hne.
    { intros Hin. assert (false = true); [|done]. apply Hc. by left. }
    split; cbn; try done; try lia.
    + by apply table_ok_delete.
    + intros p. destruct (decide (p = e)) as [->|Hpe]; [|untouched Hok p].
      unfold handle_ok. cbn. rewrite lookup_delete_eq.
      rewrite multiplicity_release, decide_True by done.
      rewrite deleted_snoc. cbn.
      finish.
    + rewrite fmap_app. by apply NoDup_snoc.
  - cbn. eexists. split; [done|]. split; [|done].
    split; cbn; try done; try lia.
    + by eapply table_ok_update.
    + intros p. destruct (decide (p = e)) as [->|Hne]; [|untouched Hok p].
      unfold handle_ok. cbn. rewrite lookup_insert_eq. cbn. rewrite Hic.
      rewrite multiplicity_release, decide_True by done.
      finish.
Qed.

Lemma size_acquire (X : gmultiset ptr) e : size ({[+ e +]} ⊎ X) = S (size X).
Proof. by rewrite gmultiset_size_disj_union, gmultiset_size_singleton. Qed.

Lemma Inv_weaken pending n n' s : (n <= n')%nat → Inv pending n s → Inv pending n' s.
Proof. intros Hn [? ? ? ? ? ? ?]. split; try done; lia. Qed.

(** [Ref] of a handle that is in the hash table, for a client. *)
Lemma Ref_cached n c X e :
  Inv None n {| shard := c; held := X |} → e ∈ entries (table_ c) →
  Z.of_nat n < 2 ^ 31 →
  ∃ c', Ref e c = Some c'
    ∧ Inv None (S n) {| shard := c'; held := {[+ e +]} ⊎ X |}
    ∧ next_handle c' = next_handle c.
Proof.
  intros HI He Hn.
  destruct c as [cap us lru inu tbl heap nxt dcs].
  inv_open HI.
  pose proof (multiplicity_le_size X e) as Hle.
  pose proof (size_acquire X e) as Hsz.
  pose proof (Hok e) as Hoke. unfold handle_ok in Hoke. cbn in Hoke.
  destruct (heap !! e) as [h|] eqn:Hh; [|by destruct Hoke as (_ & ? & _)].
  destruct Hoke as (Hr & H1 & Hc & _ & Hl & Hi & Hf & Hd).
  assert (in_cache h = true) as Hic by (apply Hc; by left).
  rewrite Hic in Hr.
  unfold Ref. cbn [handles]. rewrite Hh. cbn [mbind option_bind].
  rewrite Hic, to_uint32_small by lia.
  case_bool_decide as Hone; cbn [andb].
  - (* the first client reference: from lru_ to in_use_ *)
    unfold LRU_Remove. cbn [lru_ in_use_].
    rewrite decide_True by (by rewrite Hl).
    state_simpl. eexists. split; [done|]. split; [|done].
    split; state_simpl; try done; try lia.
    + by eapply table_ok_update.
    + intros p. destruct (decide (p = e)) as [->|Hne]; [|untouched Hok p].
      unfold handle_ok. state_simpl. rewrite lookup_insert_eq. cbn [refs in_cache set_refs]. rewrite Hic.
      rewrite multiplicity_acquire, decide_True by done.
      rewrite elem_of_app, elem_of_filter_ne, list_elem_of_singleton.
      finish.
    + by apply NoDup_filter.
    + apply NoDup_snoc; [done|]. rewrite Hi. lia.
  - state_simpl. eexists. split; [done|]. split; [|done].
    split; state_simpl; try done; try lia.
    + by eapply table_ok_update.
    + intros p. destruct (decide (p = e)) as [->|Hne]; [|untouched Hok p].
      unfold handle_ok. state_simpl. rewrite lookup_insert_eq. cbn [refs in_cache set_refs]. rewrite Hic.
      rewrite multiplicity_acquire, decide_True by done.
      finish.
Qed.

Lemma Lookup_Inv n c X k hsh :
  Inv None n {| shard := c; held := X |} → Z.of_nat n < 2 ^ 31 →
  ∃ r c', Lookup k hsh c = Some (r, c')
    ∧ Table.Lookup (handles c) (table_ c) k hsh = Some r
    ∧ Inv None (S n)
        {| shard := c';
           held := match r with Some p => {[+ p +]} ⊎ X | None => X end |}
    ∧ next_handle c' = next_handle c.
Proof.
  intros HI Hn. unfold Lookup.
  destruct (Table_Lookup_spec (handles c) (table_ c) k hsh) as (r & -> & Hr).
  { apply HI. }
  cbn. destruct r as [p|].
  - destruct Hr as [Hp _].
    destruct (Ref_cached n c X p HI Hp Hn) as (c' & -> & HI' & Hnx).
    cbn. eauto 10.
  - eexists _, _. split; [done|]. split; [done|].
    split; [|done]. by eapply Inv_weaken; [|done]; lia.
Qed.

(** Taking a handle out of the hash table leaves it pending. *)
Lemma Remove_pending n c X k hsh :
  Inv None n {| shard := c; held := X |} → Z.of_nat n < 2 ^ 31 →
  ∃ r, Table.Lookup (handles c) (table_ c) k hsh = Some r
    ∧ match r with
      | None => Table.Remove (handles c) (table_ c) k hsh = Some (table_ c, None)
      | Some p =>
          ∃ t', Table.Remove (handles c) (table_ c) k hsh = Some (t', Some p)
            ∧ Inv (Some p) n {| shard := set_table t' c; held := X |}
            ∧ (∀ q, q ∈ entries t' ↔ q ∈ entries (table_ c) ∧ q ≠ p)
            ∧ p ∈ entries (table_ c)
            ∧ ∃ h, handles c !! p = Some h ∧ hash h = hsh ∧ key h = k
      end.
Proof.
  intros HI Hn.
  destruct c as [cap us lru inu tbl heap nxt dcs].
  inv_open HI.
  destruct (Table_Remove_spec heap tbl k hsh Htab) as (r & HL & Hr); [lia|].
  exists r. split; [done|]. destruct r as [p|]; [|done].
  destruct Hr as (t' & before & after & HR & Htab' & He & He' & h & Hh & Hhash & Hkey).
  pose proof (tok_nodup _ _ Htab) as Hnd. rewrite He in Hnd.
  apply NoDup_app_cons_remove in Hnd as [Hnd Hp].
  assert (∀ q, q ∈ entries t' ↔ q ∈ entries tbl ∧ q ≠ p) as Hmem.
  { intros q. rewrite He, He', <- Permutation_middle, elem_of_cons.
    split; [intros Hq; split; [by right|by intros ->]|by intros [[->|?] ?]]. }
  assert (p ∈ entries tbl) as Hpin.
  { rewrite He, <- Permutation_middle. by left. }
  exists t'. split; [done|]. split; [|eauto 10].
  split; state_simpl; try done.
  - intros q. specialize (Hok q). unfold handle_ok in *. state_simpl_all.
    destruct (heap !! q) as [hq|] eqn:Hq.
    + destruct (decide (q = p)) as [->|Hne].
      * rewrite !Hmem. finish.
      * rewrite !Hmem. assert (Some p ≠ Some q) by congruence. finish.
    + rewrite !Hmem. assert (Some p ≠ Some q) by congruence. finish.
  - rewrite He'. rewrite He in Heb. rewrite !length_app in *. cbn in Heb. lia.
Qed.

(** [FinishErase] of the pending handle: it leaves its list and the cache,
    and is freed, its deleter called, if no client holds it. *)
Lemma FinishErase_pending n c X p :
  Inv (Some p) n {| shard := c; held := X |} → Z.of_nat n < 2 ^ 31 →
  ∃ c' h, FinishErase (Some p) c = Some (true, c')
    ∧ handles c !! p = Some h
    ∧ Inv None n {| shard := c'; held := X |}
    ∧ capacity_ c' = capacity_ c
    ∧ usage_ c' = to_uint64 (usage_ c - charge h)
    ∧ table_ c' = table_ c
    ∧ next_handle c' = next_handle c
    ∧ lru_ c' = filter (λ q, q ≠ p) (lru_ c)
    ∧ in_use_ c' = filter (λ q, q ≠ p) (in_use_ c)
    ∧ (∀ q hq, handles c' !! q = Some hq →
         ∃ hq', handles c !! q = Some hq' ∧ hash hq = hash hq' ∧ key hq = key hq')
    ∧ (∀ q, q ≠ p → handles c' !! q = handles c !! q)
    ∧ (multiplicity p X = 0%nat →
         handles c' !! p = None
         ∧ deleter_calls c'
           = deleter_calls c
             ++ [{| dc_handle := p; dc_deleter := deleter h;
                    dc_key := key h; dc_value := value h |}])
    ∧ ((0 < multiplicity p X)%nat →
         is_Some (handles c' !! p) ∧ deleter_calls c' = deleter_calls c).
Proof.
  intros HI Hn.
  destruct c as [cap us lru inu tbl heap nxt dcs].
  inv_open HI.
  pose proof (multiplicity_le_size X p) as Hle.
  pose proof (Hok p) as Hokp. unfold handle_ok in Hokp. cbn in Hokp.
  destruct (heap !! p) as [h|] eqn:Hh; [|by destruct Hokp as (_ & _ & ? & _)].
  destruct Hokp as (Hr & H1 & Hc & Hpe & Hl & Hi & Hf & Hd).
  assert (in_cache h = true) as Hic by (apply Hc; by right).
  rewrite Hic in Hr. specialize (Hpe eq_refl).
  unfold FinishErase. cbn [handles]. rewrite Hh. cbn [mbind option_bind].
  rewrite option_guard_True by done. cbn [mbind option_bind].
  assert (∃ c1, LRU_Remove p
            {| capacity_ := cap; usage_ := us; lru_ := lru; in_use_ := inu;
               table_ := tbl; handles := heap; next_handle := nxt;
               deleter_calls := dcs |} = Some c1
          ∧ c1 = {| capacity_ := cap; usage_ := us;
                    lru_ := filter (λ q, q ≠ p) lru;
                    in_use_ := filter (λ q, q ≠ p) inu;
                    table_ := tbl; handles := heap; next_handle := nxt;
                    deleter_calls := dcs |}) as (c1 & -> & ->).
  { unfold LRU_Remove. cbn [lru_ in_use_].
    destruct (decide (refs h = 1)) as [Hone|Hone].
    - rewrite decide_True by (by rewrite Hl).
      eexists. split; [done|]. unfold set_lru. cbn. f_equal.
      symmetry. apply filter_ne_not_in. rewrite Hi. lia.
    - rewrite decide_False by (rewrite Hl; tauto).
      rewrite decide_True by (rewrite Hi; split; [done|lia]).
      eexists. split; [done|]. unfold set_in_use. cbn. f_equal.
      symmetry. apply filter_ne_not_in. rewrite Hl. tauto. }
  cbn [mbind option_bind]. unfold Unref.
  cbn [set_handles set_usage handles usage_ capacity_ lru_ in_use_ table_
       next_handle deleter_calls].
  rewrite lookup_insert_eq. cbn [mbind option_bind].
  cbn [refs set_refs set_in_cache in_cache].
  rewrite option_guard_True by lia. cbn [mbind option_bind].
  rewrite to_uint32_small by lia. cbn [andb].
  case_bool_decide as Hz.
  - (* no client holds it *)
    rewrite option_guard_True by done. cbn [mbind option_bind].
    rewrite delete_insert_eq.
    eexists _, h. split; [done|]. split; [done|].
    state_simpl.
    split_and!; try done.
    + split; state_simpl; try done.
      * by apply table_ok_delete.
      * intros q. destruct (decide (q = p)) as [->|Hne].
        -- unfold handle_ok. state_simpl. rewrite lookup_delete_eq.
           rewrite deleted_snoc, !elem_of_filter_ne. cbn [dc_handle].
           finish.
        -- assert (Some p ≠ Some q) by congruence. untouched Hok q.
      * by apply NoDup_filter.
      * by apply NoDup_filter.
      * rewrite fmap_app. by apply NoDup_snoc.
    + intros q hq Hq. destruct (decide (q = p)) as [->|Hne].
      * by rewrite lookup_delete_eq in Hq.
      * rewrite lookup_delete_ne in Hq by done. eauto.
    + intros q Hne. by rewrite lookup_delete_ne.
    + intros _. by rewrite lookup_delete_eq.
    + lia.
  - (* clients still hold it *)
    eexists _, h. split; [done|]. split; [done|].
    state_simpl.
    split_and!; try done.
    + split; state_simpl; try done.
      * rewrite insert_insert_eq. by eapply table_ok_update.
      * intros q. destruct (decide (q = p)) as [->|Hne].
        -- unfold handle_ok. state_simpl. rewrite lookup_insert_eq.
           cbn [refs set_refs set_in_cache in_cache].
           rewrite !elem_of_filter_ne.
           finish.
        -- assert (Some p ≠ Some q) by congruence. untouched Hok q.
      * by apply NoDup_filter.
      * by apply NoDup_filter.
    + intros q hq Hq. destruct (decide (q = p)) as [->|Hne].
      * rewrite lookup_insert_eq in Hq. injection Hq as <-. eauto.
      * rewrite !lookup_insert_ne in Hq by done. eauto.
    + intros q Hne. by rewrite !lookup_insert_ne.
    + lia.
    + intros _. rewrite lookup_insert_eq. eauto.
Qed.

Lemma set_table_same c : set_table (table_ c) c = c.
Proof. by destruct c. Qed.

(** [Erase]: the invariant is kept, nothing happens when the key is not in
    the table, and afterwards the key is not in the table. *)
Lemma Erase_Inv n c X k hsh :
  Inv None n {| shard := c; held := X |} → Z.of_nat n < 2 ^ 31 →
  ∃ c', Erase k hsh c = Some c'
    ∧ Inv None n {| shard := c'; held := X |}
    ∧ (Table.Lookup (handles c) (table_ c) k hsh = Some None → c' = c)
    ∧ Table.Lookup (handles c') (table_ c') k hsh = Some None
    ∧ next_handle c' = next_handle c.
Proof.
  intros HI Hn. unfold Erase.
  destruct (Remove_pending n c X k hsh HI Hn) as (r & HL & Hr).
  destruct r as [p|].
  - destruct Hr as (t' & -> & HI1 & Hmem & Hp & h & Hh & Hhash & Hkey).
    cbn [mbind option_bind].
    destruct (FinishErase_pending n _ X p HI1 Hn)
      as (c' & h' & -> & Hh' & HI' & _ & _ & Ht & Hnx & _ & _ & Hsub & _).
    cbn [mbind option_bind]. exists c'. split; [done|]. split; [done|].
    split; [by rewrite HL|]. split; [|done].
    destruct (Table_Lookup_spec (handles c') (table_ c') k hsh) as (r & -> & Hr).
    { apply HI'. }
    destruct r as [q|]; [exfalso|done].
    destruct Hr as (Hq & hq & Hhq & Hqh & Hqk).
    rewrite Ht in Hq. cbn [table_ set_table] in Hq. apply Hmem in Hq as [Hq Hne].
    destruct (Hsub q hq Hhq) as (hq' & Hhq' & Hh1 & Hk1).
    cbn [handles set_table] in Hhq'.
    apply Hne.
    eapply (tok_keys _ _ (inv_table _ _ _ HI) q p hq' h);
      [exact Hq|exact Hp|exact Hhq'|exact Hh|congruence|congruence].
  - rewrite Hr. cbn [mbind option_bind FinishErase].
    rewrite set_table_same. exists c. by rewrite HL.
Qed.

(** One round of eviction, on the oldest entry of [lru_]: it leaves the
    table and the list, its deleter is called and it is freed. *)
Lemma evict_oldest_spec n c X old rest :
  Inv None n {| shard := c; held := X |} → Z.of_nat n < 2 ^ 31 →
  lru_ c = old :: rest →
  ∃ c' h, evict_oldest old c = Some c'
    ∧ handles c !! old = Some h
    ∧ Inv None n {| shard := c'; held := X |}
    ∧ capacity_ c' = capacity_ c
    ∧ usage_ c' = to_uint64 (usage_ c - charge h)
    ∧ lru_ c' = rest
    ∧ in_use_ c' = in_use_ c
    ∧ next_handle c' = next_handle c
    ∧ deleter_calls c'
      = deleter_calls c
        ++ [{| dc_handle := old; dc_deleter := deleter h;
               dc_key := key h; dc_value := value h |}]
    ∧ (∀ q, q ∈ entries (table_ c') ↔ q ∈ entries (table_ c) ∧ q ≠ old)
    ∧ old ∈ entries (table_ c)
    ∧ handles c' = delete old (handles c).
Proof.
  intros HI Hn Hlru.
  pose proof (inv_handles _ _ _ HI old) as Hold.
  pose proof (inv_lru_nodup _ _ _ HI) as Hnd.
  pose proof (inv_table _ _ _ HI) as Htab.
  unfold handle_ok in Hold. cbn [shard held] in Hold, Hnd, Htab.
  rewrite Hlru in Hold, Hnd. apply NoDup_cons in Hnd as [Hnotin Hnd].
  destruct (handles c !! old) as [h|] eqn:Hh.
  2:{ destruct Hold as (_ & _ & _ & Hn' & _). destruct Hn'. by left. }
  destruct Hold as (Hr & H1 & Hc & _ & Hl & Hi & Hf & Hd).
  assert (in_cache h = true ∧ refs h = 1) as [Hic Hone] by (apply Hl; by left).
  assert (old ∈ entries (table_ c)) as Hin.
  { destruct (proj1 Hc Hic) as [?|?]; [done|congruence]. }
  rewrite Hic in Hr.
  assert (multiplicity old X = 0%nat) as Hm by lia.
  unfold evict_oldest. rewrite Hh. cbn [mbind option_bind].
  rewrite option_guard_True by done. cbn [mbind option_bind].
  destruct (Remove_pending n c X (key h) (hash h) HI Hn) as (r & HL & Hrm).
  rewrite (Table_Lookup_entry _ _ old h Htab Hin Hh) in HL. injection HL as <-.
  destruct Hrm as (t' & -> & HI1 & Hmem & _). cbn [mbind option_bind].
  destruct (FinishErase_pending n _ X old HI1 Hn)
    as (c' & h' & -> & Hh' & HI' & Hcap & Hus & Ht & Hnx & Hl' & Hi' & Hsub & Hoth
        & Hfree & _).
  cbn [handles set_table] in Hh'. rewrite Hh in Hh'. injection Hh' as <-.
  cbn [mbind option_bind]. rewrite option_guard_True by done.
  cbn [mbind option_bind].
  destruct (Hfree Hm) as [Hgone Hcalls].
  exists c', h. split; [done|]. split; [done|]. split; [done|].
  cbn [capacity_ usage_ lru_ in_use_ set_table deleter_calls handles] in *.
  split; [done|]. split; [done|].
  split; [by rewrite Hl', Hlru, filter_ne_cons|].
  split.
  { rewrite Hi'. apply filter_ne_not_in. rewrite Hi. lia. }
  split; [done|].
  split; [done|]. split; [by rewrite Ht|]. split; [done|].
  apply map_eq. intros q. destruct (decide (q = old)) as [->|Hne].
  - by rewrite lookup_delete_eq.
  - rewrite lookup_delete_ne by done. by apply Hoth.
Qed.

(** The eviction loop of [Insert]: it ends, within one round per entry of
    [lru_]; it removes a prefix of [lru_], oldest first, calling the deleter
    of each handle it removes and freeing it; it stops when the usage is
    within the capacity or [lru_] is empty, and does nothing if the usage
    is within the capacity to begin with. *)
Lemma evict_spec n X rounds :
  ∀ c, Inv None n {| shard := c; held := X |} → Z.of_nat n < 2 ^ 31 →
  (length (lru_ c) <= rounds)%nat →
  ∃ c' calls, evict rounds c = Some c'
    ∧ Inv None n {| shard := c'; held := X |}
    ∧ (usage_ c' <= capacity_ c' ∨ lru_ c' = [])
    ∧ capacity_ c' = capacity_ c
    ∧ next_handle c' = next_handle c
    ∧ in_use_ c' = in_use_ c
    ∧ deleter_calls c' = deleter_calls c ++ calls
    ∧ lru_ c = (dc_handle <$> calls) ++ lru_ c'
    ∧ (usage_ c <= capacity_ c → c' = c)
    ∧ (∀ q, q ∈ entries (table_ c')
          ↔ q ∈ entries (table_ c) ∧ q ∉ dc_handle <$> calls)
    ∧ (∀ q, q ∉ dc_handle <$> calls → handles c' !! q = handles c !! q)
    ∧ (∀ q, q ∈ dc_handle <$> calls → handles c' !! q = None).
Proof.
  induction rounds as [|rounds IH]; intros c HI Hn Hlen.
  - destruct (lru_ c) as [|old rest] eqn:Hlru; [|cbn in Hlen; lia].
    exists c, []. cbn [evict]. rewrite Hlru, app_nil_r. cbn.
    split_and!; try done; try by right.
    + intros q. split; [intros ?; split; [done|]|by intros [? _]].
      by intros ?%elem_of_nil.
    + by intros q ?%elem_of_nil.
  - cbn [evict]. destruct (lru_ c) as [|old rest] eqn:Hlru.
    { exists c, []. rewrite app_nil_r. cbn.
      split_and!; try done; try by right.
      + intros q. split; [intros ?; split; [done|]|by intros [? _]].
        by intros ?%elem_of_nil.
      + by intros q ?%elem_of_nil. }
    destruct (capacity_ c <? usage_ c) eqn:Hover.
    2:{ apply Z.ltb_ge in Hover. exists c, []. rewrite app_nil_r. cbn.
        split_and!; try done; try by left.
        + intros q. split; [intros ?; split; [done|]|by intros [? _]].
          by intros ?%elem_of_nil.
        + by intros q ?%elem_of_nil. }
    apply Z.ltb_lt in Hover.
    destruct (evict_oldest_spec n c X old rest HI Hn Hlru)
      as (c1 & h & -> & Hh & HI1 & Hcap1 & Hus1 & Hl1 & Hi1 & Hnx1 & Hcalls1
          & Hmem1 & Hin1 & Hheap1).
    cbn [mbind option_bind].
    destruct (IH c1 HI1 Hn) as (c' & calls & -> & HI' & Hexit & Hcap & Hnx & Hi
                                & Hcalls & Hl & _ & Hmem & Hkeep & Hgone).
    { rewrite Hl1. cbn in Hlen. lia. }
    eexists c', (_ :: calls). split; [done|]. split; [done|].
    split; [done|]. split; [congruence|]. split; [congruence|].
    split; [congruence|].
    split; [by rewrite Hcalls, Hcalls1, <- app_assoc|].
    split; [cbn; by rewrite <- Hl, Hl1|].
    split; [lia|].
    split; [|split].
    + intros q. rewrite Hmem, Hmem1. cbn. rewrite elem_of_cons. tauto.
    + intros q Hq. cbn in Hq. apply not_elem_of_cons in Hq as [Hne Hq].
      rewrite Hkeep, Hheap1 by done. by rewrite lookup_delete_ne.
    + intros q Hq. cbn in Hq.
      destruct (decide (q ∈ dc_handle <$> calls)) as [Hq'|Hq']; [by apply Hgone|].
      apply elem_of_cons in Hq as [->|Hq]; [|done].
      rewrite Hkeep, Hheap1 by done. by rewrite lookup_delete_eq.
Qed.

(** The loop of [Prune] ends, keeps the invariant and leaves [lru_] empty. *)
Lemma prune_spec n X rounds :
  ∀ c, Inv None n {| shard := c; held := X |} → Z.of_nat n < 2 ^ 31 →
  (length (lru_ c) <= rounds)%nat →
  ∃ c', prune rounds c = Some c'
    ∧ Inv None n {| shard := c'; held := X |}
    ∧ lru_ c' = []
    ∧ next_handle c' = next_handle c.
Proof.
  induction rounds as [|rounds IH]; intros c HI Hn Hlen.
  - destruct (lru_ c) as [|old rest] eqn:Hlru; [|cbn in Hlen; lia].
    exists c. cbn [prune]. by rewrite Hlru.
  - cbn [prune]. destruct (lru_ c) as [|old rest] eqn:Hlru; [by exists c|].
    destruct (evict_oldest_spec n c X old rest HI Hn Hlru)
      as (c1 & h & -> & _ & HI1 & _ & _ & Hl1 & _ & Hnx1 & _).
    cbn [mbind option_bind]. rewrite <- Hnx1. apply IH; [done..|].
    rewrite Hl1. cbn in Hlen. lia.
Qed.

Lemma filter_not_in_nil (l : list ptr) : filter (λ q, q ∉ []) l = l.
Proof.
  induction l as [|x l IH]; [done|].
  rewrite filter_cons_True by apply not_elem_of_nil. by rewrite IH.
Qed.

Lemma filter_not_in_singleton (l : list ptr) o :
  filter (λ q, q ∉ [o]) l = filter (λ q, q ≠ o) l.
Proof.
  induction l as [|x l IH]; [done|].
  rewrite !filter_cons, IH.
  destruct (decide (x = o)) as [->|Hne].
  - rewrite decide_False by (intros Hx; apply Hx; by left).
    by rewrite decide_False by (intros Hx; done).
  - rewrite decide_True by (by intros ->%list_elem_of_singleton).
    by rewrite decide_True.
Qed.

(** [Insert]: it returns the new handle, keeps the invariant, and ends
    with the usage within the capacity or [lru_] empty.  [old] is the
    handle that the new one displaces from the hash table, if any; [calls]
    are the deleter calls of the eviction loop, oldest entry first. *)
Lemma Insert_spec n c X k hsh v ch d :
  Inv None n {| shard := c; held := X |} → Z.of_nat n < 2 ^ 31 - 1 →
  ∃ c' old displaced calls,
    Insert k hsh v ch d c = Some (next_handle c, c')
    ∧ Inv None (S n) {| shard := c'; held := {[+ next_handle c +]} ⊎ X |}
    ∧ (usage_ c' <= capacity_ c' ∨ lru_ c' = [])
    ∧ capacity_ c' = capacity_ c
    ∧ filter (λ q, q ∉ old) (lru_ c) = (dc_handle <$> calls) ++ lru_ c'
    ∧ deleter_calls c' = deleter_calls c ++ displaced ++ calls
    ∧ (∀ q, q ∈ dc_handle <$> calls →
         handles c' !! q = None ∧ q ∉ entries (table_ c'))
    ∧ (∀ o, o ∈ old → o ∈ entries (table_ c) ∧ (o ∉ entries (table_ c'))
         ∧ ∃ ho, handles c !! o = Some ho ∧ hash ho = hsh ∧ key ho = k)
    ∧ (old = [] ∨ ∃ o, old = [o])
    ∧ next_handle c' = S (next_handle c).
Proof.
  intros HI Hn.
  destruct c as [cap us lru inu tbl heap nxt dcs].
  inv_open HI.
  pose proof (Hok nxt) as Hnew. unfold handle_ok in Hnew. state_simpl_all.
  destruct (heap !! nxt) as [hbad|] eqn:Hfree.
  { destruct Hnew as (_ & _ & _ & _ & _ & _ & ? & _). lia. }
  destruct Hnew as (Hm & Hne & _ & Hnl & Hni & Hnd).
  assert (nxt ∉ dc_handle <$> dcs) as Hnd' by (rewrite Hnd; lia).
  pose proof (size_acquire X nxt) as Hsz.
  unfold Insert. cbv zeta. cbn [capacity_ handles next_handle usage_ lru_ in_use_
    table_ deleter_calls].
  rewrite insert_insert_eq.
  cbn [set_in_cache set_refs refs value deleter charge key_data in_cache hash].
  change (to_uint32 (1 + 1)) with 2.
  set (h0 := {| value := v; deleter := d; charge := ch; key_data := k;
               in_cache := false; refs := 1; hash := hsh |}).
  destruct (0 <? cap) eqn:Hcap.
  - (* the handle is cached *)
    state_simpl.
    set (he := set_in_cache true (set_refs 2 h0)).
    set (heap1 := <[nxt := he]> heap).
    assert (heap1 !! nxt = Some he) as Hhe by apply lookup_insert_eq.
    assert (table_ok heap1 tbl) as Htab1 by by apply table_ok_alloc.
    destruct (Table_Insert_spec heap1 tbl nxt he Htab1 Hhe Hne)
      as (old & t' & HL & HIns & Htab' & Hmem & Hlen & Hold); [lia|].
    rewrite HIns. cbn [mbind option_bind].
    unfold set_table, set_usage, set_in_use, set_handles.
    cbn [capacity_ handles next_handle usage_ lru_ in_use_ table_ deleter_calls].
    match goal with
    | |- context [FinishErase old ?st] => set (c1 := st)
    end.
    assert (∀ o, old = Some o →
              o ≠ nxt ∧ o ∈ entries tbl
              ∧ ∃ ho, heap !! o = Some ho ∧ hash ho = hsh ∧ key ho = k) as Hold'.
    { intros o ->. destruct Hold as (Ho & ho & Hho & Hhash & Hkey).
      assert (o ≠ nxt) as Hon by (by intros ->).
      unfold heap1 in Hho. rewrite lookup_insert_ne in Hho by done. eauto 10. }
    assert (Inv old (S n) {| shard := c1; held := {[+ nxt +]} ⊎ X |}) as HI1.
    { split; unfold c1; state_simpl; try done; try lia.
      - intros q. destruct (decide (q = nxt)) as [->|Hq].
        + unfold handle_ok. state_simpl. fold heap1. rewrite Hhe.
          unfold he. cbn [refs in_cache set_in_cache set_refs].
          rewrite multiplicity_acquire, decide_True by done.
          rewrite Hmem, elem_of_app, list_elem_of_singleton.
          split_and!; try lia; try tauto; try finish.
          intros Heq. destruct (Hold' nxt Heq) as [? _]. done.
        + specialize (Hok q). unfold handle_ok in *. state_simpl_all.
          fold heap1. unfold heap1 at 1. rewrite lookup_insert_ne by done.
          destruct (heap !! q) as [hq|] eqn:Hhq;
            rewrite multiplicity_acquire, decide_False by done;
            rewrite Hmem, ?elem_of_app, ?list_elem_of_singleton.
          * destruct (decide (old = Some q)) as [Heq|Hneq].
            -- destruct (Hold' q Heq) as (_ & Hin & _). finish.
            -- finish.
          * assert (old ≠ Some q) as Hneq.
            { intros Heq. destruct (Hold' q Heq) as (_ & Hin & _). tauto. }
            finish.
      - apply NoDup_snoc; done.
      - destruct old; lia. }
    destruct old as [o|].
    + (* a handle with the same key is displaced *)
      destruct (Hold' o eq_refl) as (Hon & Hoin & ho & Hho & Hhash & Hkey).
      destruct (FinishErase_pending (S n) c1 _ o HI1)
        as (c2 & ho' & -> & Hho' & HI2 & Hcap2 & Hus2 & Ht2 & Hnx2 & Hl2 & Hi2
            & Hsub2 & Hoth2 & Hfree2 & Hkeep2); [lia|].
      cbn [mbind option_bind].
      destruct (evict_spec (S n) _ (length (lru_ c2)) c2 HI2)
        as (c' & calls & -> & HI' & Hexit & Hcap' & Hnx' & Hi' & Hcalls & Hl'
            & _ & Hmem' & Hkeep' & Hgone'); [lia|done|].
      cbn [mbind option_bind].
      assert (∃ displaced, deleter_calls c2 = dcs ++ displaced) as [displaced Hdis].
      { destruct (decide (multiplicity o ({[+ nxt +]} ⊎ X) = 0)%nat) as [Hz|Hz].
        - destruct (Hfree2 Hz) as [_ ->]. eauto.
        - destruct Hkeep2 as [_ ->]; [lia|]. exists []. by rewrite app_nil_r. }
      exists c', [o], displaced, calls.
      split; [done|]. split; [done|]. split; [done|].
      split; [by rewrite Hcap', Hcap2|].
      split; [by rewrite filter_not_in_singleton, <- Hl', Hl2|].
      split; [by rewrite Hcalls, Hdis, <- app_assoc|].
      split; [|split; [|split; [eauto|by rewrite Hnx', Hnx2]]].
      * intros q Hq. split; [by apply Hgone'|].
        rewrite Hmem'. tauto.
      * intros o' ->%list_elem_of_singleton. split; [done|]. split; [|eauto].
        rewrite Hmem', Ht2. unfold c1. cbn [table_]. rewrite Hmem.
        intros [[->|[_ ?]] _]; done.
    + (* no handle had this key *)
      cbn [FinishErase mbind option_bind].
      destruct (evict_spec (S n) _ (length (lru_ c1)) c1 HI1)
        as (c' & calls & -> & HI' & Hexit & Hcap' & Hnx' & Hi' & Hcalls & Hl'
            & _ & Hmem' & Hkeep' & Hgone'); [lia|done|].
      cbn [mbind option_bind].
      exists c', [], [], calls.
      split; [done|]. split; [done|]. split; [done|]. split; [done|].
      split; [by rewrite filter_not_in_nil, <- Hl'|].
      split; [done|].
      split; [|split; [|split; [by left|by rewrite Hnx']]].
      * intros q Hq. split; [by apply Hgone'|].
        rewrite Hmem'. tauto.
      * by intros o ?%elem_of_nil.
  - (* capacity 0: the handle is not cached *)
    cbn [mbind option_bind].
    match goal with
    | |- context [evict _ ?st] => set (c1 := st)
    end.
    assert (Inv None (S n) {| shard := c1; held := {[+ nxt +]} ⊎ X |}) as HI1.
    { split; unfold c1; state_simpl; try done; try lia.
      - by apply table_ok_alloc.
      - intros q. destruct (decide (q = nxt)) as [->|Hq].
        + unfold handle_ok. state_simpl. rewrite lookup_insert_eq.
          unfold h0. cbn [refs in_cache].
          rewrite multiplicity_acquire, decide_True by done.
          split_and!; try lia; try tauto; try done; try finish.
        + untouched Hok q. }
    destruct (evict_spec (S n) _ (length (lru_ c1)) c1 HI1)
      as (c' & calls & -> & HI' & Hexit & Hcap' & Hnx' & Hi' & Hcalls & Hl'
          & _ & Hmem' & Hkeep' & Hgone'); [lia|done|].
    cbn [mbind option_bind].
    exists c', [], [], calls.
    split; [done|]. split; [done|]. split; [done|]. split; [done|].
    split; [by rewrite filter_not_in_nil, <- Hl'|].
    split; [done|].
    split; [|split; [|split; [by left|by rewrite Hnx']]].
    + intros q Hq. split; [by apply Hgone'|].
      rewrite Hmem'. tauto.
    + by intros o ?%elem_of_nil.
Qed.

(** *** Reachable states *)

Lemma Inv_init capacity : Inv None 0 (start capacity).
Proof.
  unfold start. split; cbn; try done; try apply NoDup_nil_2.
  - split; cbn; try done.
    + exists 2. split; [lia|done].
    + intros i chain p Hi Hp.
      do 4 (destruct i as [|i]; [injection Hi as <-; by apply elem_of_nil in Hp|]).
      done.
    + apply NoDup_nil_2.
  - intros p. unfold handle_ok. cbn. rewrite lookup_empty.
    rewrite multiplicity_empty.
    split_and!; try done; try apply not_elem_of_nil.
    split; [by intros ?%elem_of_nil|lia].
Qed.

(** Every operation that the client contract allows returns, and keeps the
    invariant. *)
Lemma step_Inv n s op :
  Inv None n s → allowed op s → Z.of_nat n < 2 ^ 31 - 1 →
  ∃ s', step op s = Some s'
    ∧ Inv None (S n) s'
    ∧ next_handle (shard s')
      = (next_handle (shard s) + (if is_insert op then 1 else 0))%nat.
Proof.
  intros HI Hal Hn. destruct s as [c X].
  destruct op as [k hsh v ch d|k hsh|e|k hsh|]; cbn [step shard held allowed] in *.
  - destruct (Insert_spec n c X k hsh v ch d HI Hn)
      as (c' & old & displaced & calls & -> & HI' & _ & _ & _ & _ & _ & _ & _ & Hnx).
    cbn. eexists. split; [done|]. split; [done|]. cbn. lia.
  - destruct (Lookup_Inv n c X k hsh HI) as (r & c' & -> & _ & HI' & Hnx); [lia|].
    cbn. eexists. split; [done|]. split; [done|]. cbn. lia.
  - destruct (Unref_held n c X e HI Hal) as (c' & Hun & HI' & Hnx); [lia|].
    unfold Release. rewrite Hun. cbn. eexists. split; [done|].
    split; [by eapply Inv_weaken; [|done]; lia|]. cbn. lia.
  - destruct (Erase_Inv n c X k hsh HI) as (c' & -> & HI' & _ & _ & Hnx); [lia|].
    cbn. eexists. split; [done|].
    split; [by eapply Inv_weaken; [|done]; lia|]. cbn. lia.
  - destruct (prune_spec n X (length (lru_ c)) c HI) as (c' & Hpr & HI' & _ & Hnx);
      [lia|done|].
    unfold Prune. rewrite Hpr. cbn. eexists. split; [done|].
    split; [by eapply Inv_weaken; [|done]; lia|]. cbn. lia.
Qed.

Lemma Reachable_Inv capacity ops s :
  Reachable capacity ops s → Z.of_nat (length ops) < kMaxOperations →
  Inv None (length ops) s
  ∧ next_handle (shard s) = length (filter is_insert ops).
Proof.
  unfold kMaxOperations.
  induction 1 as [|ops s op s' _ IH Hal Hstep]; intros Hlen.
  - split; [apply Inv_init|done].
  - rewrite length_app in *. cbn [length] in *.
    destruct IH as [HI Hnx]; [lia|].
    destruct (step_Inv _ s op HI Hal) as (s'' & Hstep' & HI' & Hnx'); [lia|].
    rewrite Hstep in Hstep'. injection Hstep' as <-.
    split; [by rewrite Nat.add_1_r|].
    rewrite Hnx', Hnx, filter_app, length_app. f_equal.
    rewrite filter_cons, filter_nil. by destruct (is_insert op).
Qed.

Lemma run_Reachable capacity ops :
  ∀ pre s0 s, Reachable capacity pre s0 → run ops s0 = Some s →
  Reachable capacity (pre ++ ops) s.
Proof.
  induction ops as [|op ops IH]; intros pre s0 s Hpre Hrun.
  - cbn in Hrun. injection Hrun as <-. by rewrite app_nil_r.
  - cbn [run] in Hrun. destruct (decide (allowed op s0)) as [Hal|]; [|done].
    destruct (step op s0) as [s1|] eqn:Hstep; [|done]. cbn in Hrun.
    rewrite cons_middle, app_assoc. eapply IH; [|done].
    by eapply Reachable_step.
Qed.

Lemma run_start_Reachable capacity ops s :
  run ops (start capacity) = Some s → Reachable capacity ops s.
Proof.
  intros Hrun.
  apply (run_Reachable capacity ops [] (start capacity) s); [constructor|done].
Qed.

(** C7.  The two lists.  In a shard reached by at most [kMaxOperations]
    operations of clients that release only what they hold, every live
    handle has at least one reference; a handle that is in the cache is on
    [in_use_] exactly when it has two references or more, and on [lru_]
    exactly when it has one; a handle that is no longer in the cache (and
    is live, hence still referenced by a client) is on neither list.  The
    lists hold live handles of the cache only, each once, and no handle is
    on both. *)
Theorem LRU_two_list_invariant capacity ops s :
  Reachable capacity ops s → Z.of_nat (length ops) < kMaxOperations →
  (∀ p h, handles (shard s) !! p = Some h →
     1 <= refs h
     ∧ (in_cache h = true →
          (p ∈ in_use_ (shard s) ↔ 2 <= refs h)
          ∧ (p ∈ lru_ (shard s) ↔ refs h = 1))
     ∧ (in_cache h = false →
          (p ∉ lru_ (shard s)) ∧ (p ∉ in_use_ (shard s)) ∧ p ∈ held s))
  ∧ (∀ p, p ∈ lru_ (shard s) ∨ p ∈ in_use_ (shard s) →
       ∃ h, handles (shard s) !! p = Some h ∧ in_cache h = true)
  ∧ (∀ p, ¬ (p ∈ lru_ (shard s) ∧ p ∈ in_use_ (shard s)))
  ∧ NoDup (lru_ (shard s)) ∧ NoDup (in_use_ (shard s)).
Proof.
  intros HR Hlen. destruct (Reachable_Inv _ _ _ HR Hlen) as [HI _].
  destruct HI as [_ Hok Hndl Hndi _ _ _].
  split_and!; try done.
  - intros p h Hh. specialize (Hok p). unfold handle_ok in Hok. rewrite Hh in Hok.
    destruct Hok as (Hr & H1 & Hc & _ & Hl & Hi & _).
    split; [done|]. split.
    + intros Hic. rewrite Hl, Hi. tauto.
    + intros Hic. rewrite Hl, Hi, Hic. split_and!; [by intros [? _]..|].
      apply elem_of_multiplicity. rewrite Hic in Hr. lia.
  - intros p Hp. specialize (Hok p). unfold handle_ok in Hok.
    destruct (handles (shard s) !! p) as [h|].
    + destruct Hok as (_ & _ & _ & _ & Hl & Hi & _). exists h. tauto.
    + destruct Hok as (_ & _ & _ & Hl & Hi & _). tauto.
  - intros p [Hpl Hpi]. specialize (Hok p). unfold handle_ok in Hok.
    destruct (handles (shard s) !! p) as [h|].
    + destruct Hok as (_ & _ & _ & _ & Hl & Hi & _).
      apply Hl in Hpl. apply Hi in Hpi. lia.
    + destruct Hok as (_ & _ & _ & Hl & Hi & _). tauto.
Qed.

(** Scenario 6 of the specification: capacity 2; [A] is inserted and kept,
    [B] and [C] are inserted and released. *)
Lemma LRU_two_list_invariant_witness :
  let ops := [DoInsert ["A"%byte] 1 0 1 0;
              DoInsert ["B"%byte] 2 0 1 0; DoRelease 1;
              DoInsert ["C"%byte] 3 0 1 0; DoRelease 2] in
  let s := default (start 2) (run ops (start 2)) in
  Reachable 2 ops s
  ∧ Z.of_nat (length ops) < kMaxOperations
  ∧ lru_ (shard s) = [2%nat] ∧ in_use_ (shard s) = [0%nat]
  ∧ NoDup (lru_ (shard s)) ∧ NoDup (in_use_ (shard s)).
Proof.
  intros ops s.
  assert (Reachable 2 ops s) as HR.
  { apply run_start_Reachable. vm_compute. reflexivity. }
  assert (Z.of_nat (length ops) < kMaxOperations) as Hb by reflexivity.
  split; [exact HR|]. split; [exact Hb|].
  split; [vm_compute; reflexivity|]. split; [vm_compute; reflexivity|].
  exact (proj2 (proj2 (proj2 (LRU_two_list_invariant 2 ops s HR Hb)))).
Defined.

(** C8.  The deleter runs exactly once.  In a shard reached by at most
    [kMaxOperations] operations of clients that release only what they hold:
    no handle occurs twice in the deleter calls; the handles created are
    [0 .. next_handle - 1], one per [Insert]; the deleter of a created handle
    has been called exactly if the handle has been freed, which is exactly
    if no client holds it any more and the hash table does not have it
    (it was evicted, erased or displaced, or never cached); a live handle has
    a positive reference count; and a deleter call made during an operation
    is for a handle that was live before the operation and is freed by it. *)
Theorem deleter_exactly_once capacity ops s :
  Reachable capacity ops s → Z.of_nat (length ops) < kMaxOperations →
  NoDup (dc_handle <$> deleter_calls (shard s))
  ∧ next_handle (shard s) = length (filter is_insert ops)
  ∧ (∀ p, p ∈ dc_handle <$> deleter_calls (shard s)
       ↔ (p < next_handle (shard s))%nat ∧ handles (shard s) !! p = None)
  ∧ (∀ p, p ∈ dc_handle <$> deleter_calls (shard s)
       ↔ (p < next_handle (shard s))%nat
         ∧ (p ∉ held s) ∧ (p ∉ entries (table_ (shard s))))
  ∧ (∀ p h, handles (shard s) !! p = Some h → 0 < refs h)
  ∧ (∀ op s', allowed op s → step op s = Some s' →
       Z.of_nat (length ops) + 1 < kMaxOperations →
       ∀ p, p ∈ dc_handle <$> deleter_calls (shard s') →
            p ∉ dc_handle <$> deleter_calls (shard s) →
            is_Some (handles (shard s) !! p) ∧ handles (shard s') !! p = None).
Proof.
  intros HR Hlen. destruct (Reachable_Inv _ _ _ HR Hlen) as [HI Hnx].
  pose proof (inv_handles _ _ _ HI) as Hok.
  assert (∀ p, p ∈ dc_handle <$> deleter_calls (shard s)
             ↔ (p < next_handle (shard s))%nat ∧ handles (shard s) !! p = None)
    as Hdel.
  { intros p. specialize (Hok p). unfold handle_ok in Hok.
    destruct (handles (shard s) !! p) as [h|].
    - destruct Hok as (_ & _ & _ & _ & _ & _ & Hf & Hd). split; [done|by intros [_ ?]].
    - destruct Hok as (_ & _ & _ & _ & _ & Hd). rewrite Hd. tauto. }
  split; [apply HI|]. split; [done|]. split; [done|]. split; [|split].
  - intros p. rewrite Hdel. specialize (Hok p). unfold handle_ok in Hok.
    rewrite elem_of_multiplicity.
    destruct (handles (shard s) !! p) as [h|].
    + destruct Hok as (Hr & H1 & Hc & _).
      split; [by intros [_ ?]|]. intros (_ & Hh & He). exfalso.
      destruct (in_cache h); [|lia].
      destruct (proj1 Hc eq_refl) as [?|?]; done.
    + destruct Hok as (Hm & He & _). split; [|tauto].
      intros [? _]. split_and!; [done|lia|done].
  - intros p h Hh. specialize (Hok p). unfold handle_ok in Hok. rewrite Hh in Hok.
    destruct Hok as (_ & ? & _). lia.
  - intros op s' Hal Hstep Hlen' p Hp' Hp.
    assert (Reachable capacity (ops ++ [op]) s') as HR' by by eapply Reachable_step.
    destruct (Reachable_Inv _ _ _ HR') as [HI' _].
    { rewrite length_app. cbn. lia. }
    destruct (step_Inv _ s op HI Hal) as (s'' & Hstep' & _ & Hnx').
    { unfold kMaxOperations in *. lia. }
    rewrite Hstep in Hstep'. injection Hstep' as <-.
    pose proof (inv_handles _ _ _ HI' p) as Hok'. unfold handle_ok in Hok'.
    destruct (handles (shard s') !! p) as [h'|] eqn:Hh'.
    { destruct Hok' as (_ & _ & _ & _ & _ & _ & _ & Hd). done. }
    destruct Hok' as (Hm' & _ & _ & _ & _ & Hd'). apply Hd' in Hp'.
    split; [|done].
    destruct (handles (shard s) !! p) as [h|] eqn:Hh; [eauto|exfalso].
    assert (¬ (p < next_handle (shard s))%nat) as Hge.
    { intros Hlt. apply Hp, Hdel. by rewrite Hh. }
    destruct op as [k hsh v ch d|? ?|?|? ?|]; cbn [is_insert] in Hnx'; try lia.
    assert (p = next_handle (shard s)) as -> by lia.
    cbn [step] in Hstep.
    destruct (Insert_spec (length ops) (shard s) (held s) k hsh v ch d)
      as (c' & ? & ? & ? & HIns & _).
    { by destruct s. }
    { unfold kMaxOperations in *. lia. }
    rewrite HIns in Hstep. cbn [mbind option_bind] in Hstep.
    injection Hstep as <-. cbn [held] in Hm'. rewrite multiplicity_acquire, decide_True in Hm' by done.
    lia.
Qed.

(** Scenario 5 of the specification: capacity 10; [A] .. [F] are inserted
    with charge 2 and released at once; [A] is evicted, its deleter called
    once. *)
Lemma deleter_exactly_once_witness :
  let ins k h := DoInsert [k] h 0 2 0 in
  let ops := [ins "A"%byte 1; DoRelease 0; ins "B"%byte 2; DoRelease 1;
              ins "C"%byte 3; DoRelease 2; ins "D"%byte 4; DoRelease 3;
              ins "E"%byte 5; DoRelease 4; ins "F"%byte 6; DoRelease 5] in
  let s := default (start 10) (run ops (start 10)) in
  Reachable 10 ops s
  ∧ Z.of_nat (length ops) < kMaxOperations
  ∧ dc_handle <$> deleter_calls (shard s) = [0%nat]
  ∧ lru_ (shard s) = [1; 2; 3; 4; 5]%nat
  ∧ usage_ (shard s) = 10
  ∧ NoDup (dc_handle <$> deleter_calls (shard s))
  ∧ next_handle (shard s) = length (filter is_insert ops).
Proof.
  intros ins ops s.
  assert (Reachable 10 ops s) as HR.
  { apply run_start_Reachable. vm_compute. reflexivity. }
  assert (Z.of_nat (length ops) < kMaxOperations) as Hb by reflexivity.
  split; [exact HR|]. split; [exact Hb|].
  split; [vm_compute; reflexivity|]. split; [vm_compute; reflexivity|].
  split; [vm_compute; reflexivity|].
  pose proof (deleter_exactly_once 10 ops s HR Hb) as (H1 & H2 & _).
  split; [exact H1|exact H2].
Defined.

(** [Erase] of a key that [Lookup] does not find changes nothing, in any
    state of the shard. *)
Lemma Erase_not_found c k hsh :
  Table.Lookup (handles c) (table_ c) k hsh = Some None →
  Erase k hsh c = Some c.
Proof.
  unfold Erase, Table.Remove, Table.Lookup, Table.deref, Table.FindPointer.
  cbv zeta.
  destruct (list_ (table_ c) !! Table.slot_bucket (table_ c) hsh)
    as [chain|] eqn:Hc; cbn; [|done].
  destruct (Table.find_in_chain (handles c) k hsh chain) as [pos|]; cbn; [|done].
  rewrite Hc. cbn. intros [= ->]. cbn. by rewrite set_table_same.
Qed.

(** C6.  The capacity bound.  In a shard reached by fewer than
    [kMaxOperations] operations, [Insert] returns, with the new handle, and
    then the usage is within the capacity or [lru_] is empty.  The entries
    it evicts are the oldest ones: [lru_] before the call, without the entry
    that the new one displaces, is the evicted handles, oldest first,
    followed by [lru_] after the call; their deleters are called in this
    order and they are neither in the hash table nor live afterwards.  The
    eviction loop does nothing when the usage is within the capacity or
    [lru_] is empty; otherwise one round takes the head of [lru_] off the
    list and out of the hash table, frees it with a call of its deleter,
    takes its charge off the usage, and the loop goes on from there. *)
Theorem Insert_capacity_bound capacity ops s k hsh v ch d :
  Reachable capacity ops s → Z.of_nat (length ops) + 1 < kMaxOperations →
  (∃ c' old displaced calls,
      Insert k hsh v ch d (shard s) = Some (next_handle (shard s), c')
      ∧ (usage_ c' <= capacity_ c' ∨ lru_ c' = [])
      ∧ capacity_ c' = capacity_ (shard s)
      ∧ filter (λ q, q ∉ old) (lru_ (shard s)) = (dc_handle <$> calls) ++ lru_ c'
      ∧ deleter_calls c' = deleter_calls (shard s) ++ displaced ++ calls
      ∧ (∀ q, q ∈ dc_handle <$> calls →
           handles c' !! q = None ∧ q ∉ entries (table_ c'))
      ∧ (∀ o, o ∈ old →
           ∃ ho, handles (shard s) !! o = Some ho ∧ hash ho = hsh ∧ key ho = k)
      ∧ (old = [] ∨ ∃ o, old = [o]))
  ∧ (∀ rounds, usage_ (shard s) <= capacity_ (shard s) ∨ lru_ (shard s) = [] →
       evict rounds (shard s) = Some (shard s))
  ∧ (∀ rounds old rest,
       capacity_ (shard s) < usage_ (shard s) → lru_ (shard s) = old :: rest →
       ∃ c1 h,
         evict_oldest old (shard s) = Some c1
         ∧ evict (S rounds) (shard s) = evict rounds c1
         ∧ handles (shard s) !! old = Some h
         ∧ lru_ c1 = rest
         ∧ in_use_ c1 = in_use_ (shard s)
         ∧ capacity_ c1 = capacity_ (shard s)
         ∧ usage_ c1 = to_uint64 (usage_ (shard s) - charge h)
         ∧ deleter_calls c1 = deleter_calls (shard s)
             ++ [{| dc_handle := old; dc_deleter := deleter h;
                    dc_key := key h; dc_value := value h |}]
         ∧ old ∈ entries (table_ (shard s))
         ∧ (∀ q, q ∈ entries (table_ c1)
               ↔ q ∈ entries (table_ (shard s)) ∧ q ≠ old)
         ∧ handles c1 = delete old (handles (shard s))).
Proof.
  intros HR Hlen.
  destruct (Reachable_Inv _ _ _ HR) as [HI _]; [lia|].
  assert (Inv None (length ops) {| shard := shard s; held := held s |}) as HI'
    by by destruct s.
  assert (Z.of_nat (length ops) < 2 ^ 31 - 1) as Hn
    by (unfold kMaxOperations in Hlen; lia).
  split; [|split].
  - destruct (Insert_spec (length ops) (shard s) (held s) k hsh v ch d HI' Hn)
      as (c' & old & displaced & calls & HIns & _ & Hb & Hcap & Hf & Hd & Hev
          & Hold & Ho1 & _).
    exists c', old, displaced, calls. split_and!; try done.
    intros o Ho. by destruct (Hold o Ho) as (_ & _ & ?).
  - intros rounds Hor.
    destruct rounds; cbn [evict]; destruct (lru_ (shard s)) eqn:Hl; try done;
      (destruct Hor as [Hle|?]; [|done]);
      by rewrite (proj2 (Z.ltb_ge _ _)) by lia.
  - intros rounds old rest Hover Hlru.
    destruct (evict_oldest_spec (length ops) (shard s) (held s) old rest HI')
      as (c1 & h & Hev1 & Hh & _ & Hcap1 & Hus & Hl & Hin & _ & Hdc & Hmem
          & Hino & Hheap); [lia|done|].
    exists c1, h. split_and!; try done.
    cbn [evict]. rewrite Hlru, (proj2 (Z.ltb_lt _ _)) by lia.
    by rewrite Hev1.
Qed.

(** Scenario 5 of the specification: capacity 10; [A] .. [E] have been
    inserted with charge 2 and released; [F] is inserted. *)
Lemma Insert_capacity_bound_witness :
  let ins k h := DoInsert [k] h 0 2 0 in
  let ops := [ins "A"%byte 1; DoRelease 0; ins "B"%byte 2; DoRelease 1;
              ins "C"%byte 3; DoRelease 2; ins "D"%byte 4; DoRelease 3;
              ins "E"%byte 5; DoRelease 4] in
  let s := default (start 10) (run ops (start 10)) in
  Reachable 10 ops s
  ∧ Z.of_nat (length ops) + 1 < kMaxOperations
  ∧ lru_ (shard s) = [0; 1; 2; 3; 4]%nat
  ∧ ∃ c', Insert ["F"%byte] 6 0 2 0 (shard s) = Some (5%nat, c')
      ∧ (usage_ c' <= capacity_ c' ∨ lru_ c' = []).
Proof.
  intros ins ops s.
  assert (Reachable 10 ops s) as HR.
  { apply run_start_Reachable. vm_compute. reflexivity. }
  assert (Z.of_nat (length ops) + 1 < kMaxOperations) as Hb by reflexivity.
  split; [exact HR|]. split; [exact Hb|].
  split; [vm_compute; reflexivity|].
  destruct (Insert_capacity_bound 10 ops s ["F"%byte] 6 0 2 0 HR Hb)
    as [(c' & old & displaced & calls & HIns & Hbound & _) _].
  exists c'. split; [exact HIns|exact Hbound].
Defined.

(** C10.  [Erase] of an absent key.  In any state of the shard, [Erase] of
    a key that the hash table's [Lookup] does not find returns the shard
    as it was: the hash table, the two lists, the usage, the handles and
    the deleter calls.  In a shard reached by at most [kMaxOperations]
    operations, that is the case when no entry of the hash table has the
    key and the hash; and [Erase] returns a shard on which [Erase] of the
    same key changes nothing. *)
Theorem Erase_absent_noop capacity ops s k hsh :
  Reachable capacity ops s → Z.of_nat (length ops) < kMaxOperations →
  (∀ c, Table.Lookup (handles c) (table_ c) k hsh = Some None →
        Erase k hsh c = Some c)
  ∧ ((∀ p h, p ∈ entries (table_ (shard s)) → handles (shard s) !! p = Some h →
        ¬ (hash h = hsh ∧ key h = k)) →
     Erase k hsh (shard s) = Some (shard s))
  ∧ (∃ c1, Erase k hsh (shard s) = Some c1 ∧ Erase k hsh c1 = Some c1
       ∧ ∀ p h, p ∈ entries (table_ c1) → handles c1 !! p = Some h →
           ¬ (hash h = hsh ∧ key h = k)).
Proof.
  intros HR Hlen.
  destruct (Reachable_Inv _ _ _ HR Hlen) as [HI _].
  split; [intros c; apply Erase_not_found|]. split.
  - intros Habsent. apply Erase_not_found.
    destruct (Table_Lookup_spec (handles (shard s)) (table_ (shard s)) k hsh)
      as ([p|] & Hl & Hr); [apply HI| |done].
    destruct Hr as (Hp & h & Hh & Hhash & Hkey).
    by destruct (Habsent p h Hp Hh).
  - destruct (Erase_Inv (length ops) (shard s) (held s) k hsh)
      as (c1 & HE & HI1 & _ & Hl1 & _).
    { by destruct s. }
    { unfold kMaxOperations in Hlen. lia. }
    exists c1. split; [done|]. split; [by apply Erase_not_found|].
    destruct (Table_Lookup_spec (handles c1) (table_ c1) k hsh)
      as (r & Hl & Hr); [apply HI1|].
    rewrite Hl1 in Hl. by injection Hl as <-.
Qed.

(** Capacity 10; [A] has been inserted and released.  [B] is absent;
    erasing [A] twice is erasing it once. *)
Lemma Erase_absent_noop_witness :
  let ops := [DoInsert ["A"%byte] 1 0 2 0; DoRelease 0] in
  let s := default (start 10) (run ops (start 10)) in
  Reachable 10 ops s
  ∧ Z.of_nat (length ops) < kMaxOperations
  ∧ Erase ["B"%byte] 2 (shard s) = Some (shard s)
  ∧ ∃ c1, Erase ["A"%byte] 1 (shard s) = Some c1
      ∧ Erase ["A"%byte] 1 c1 = Some c1.
Proof.
  intros ops s.
  assert (Reachable 10 ops s) as HR.
  { apply run_start_Reachable. vm_compute. reflexivity. }
  assert (Z.of_nat (length ops) < kMaxOperations) as Hb by reflexivity.
  split; [exact HR|]. split; [exact Hb|].
  split; [vm_compute; reflexivity|].
  destruct (Erase_absent_noop 10 ops s ["A"%byte] 1 HR Hb)
    as (_ & _ & c1 & H1 & H2 & _).
  exists c1. split; [exact H1|exact H2].
Defined.


(** *** What the operations leave of the handles *)

Ltac guard_cases :=
  match goal with
  | |- context [guard ?P] =>
      destruct (decide P);
      [ rewrite (option_guard_True P) by done
      | rewrite (option_guard_False P) by done; by cbn ]
  end;
  cbn [mbind option_bind].

Lemma evolves_refl c : evolves c c.
Proof.
  split; try done; [eauto|].
  exists []. rewrite app_nil_r. split; [done|]. by intros ? ?%elem_of_nil.
Qed.

Lemma call_of_payload p h h' : payload h = payload h' → call_of p h = call_of p h'.
Proof. unfold payload, call_of. intros [= -> _ -> _ ->]. done. Qed.

Lemma evolves_trans c1 c2 c3 : evolves c1 c2 → evolves c2 c3 → evolves c1 c3.
Proof.
  intros [H12 (new12 & C12 & N12) X12 K12] [H23 (new23 & C23 & N23) X23 K23].
  split; [| |congruence|congruence].
  - intros q h3 Hq. destruct (H23 q h3 Hq) as (h2 & Hq2 & P23).
    destruct (H12 q h2 Hq2) as (h1 & Hq1 & P12). exists h1. split; [done|congruence].
  - exists (new12 ++ new23). split; [by rewrite C23, C12, app_assoc|].
    intros call [Hc|Hc]%elem_of_app; [by apply N12|].
    destruct (N23 call Hc) as (h2 & Hq2 & Heq).
    destruct (H12 _ h2 Hq2) as (h1 & Hq1 & P12). exists h1. split; [done|].
    rewrite Heq at 1. cbn [dc_handle call_of]. symmetry. by apply call_of_payload.
Qed.

Lemma evolves_same c c' :
  handles c' = handles c → deleter_calls c' = deleter_calls c →
  next_handle c' = next_handle c → capacity_ c' = capacity_ c → evolves c c'.
Proof.
  intros Hh Hd Hn Hc. split; try done.
  - intros q h' Hq. rewrite Hh in Hq. eauto.
  - exists []. rewrite app_nil_r. split; [done|]. by intros ? ?%elem_of_nil.
Qed.

Lemma evolves_update c e h h' :
  handles c !! e = Some h → payload h' = payload h →
  evolves c (set_handles (<[e := h']> (handles c)) c).
Proof.
  intros He Hp. split; try done; cbn.
  - intros q hq. destruct (decide (q = e)) as [->|Hne].
    + rewrite lookup_insert_eq. intros [= <-]. eauto.
    + rewrite lookup_insert_ne by done. eauto.
  - exists []. rewrite app_nil_r. split; [done|]. by intros ? ?%elem_of_nil.
Qed.

(** The fields that [LRU_Remove] leaves alone. *)
Lemma LRU_Remove_frame e c c' :
  LRU_Remove e c = Some c' →
  handles c' = handles c ∧ deleter_calls c' = deleter_calls c
  ∧ next_handle c' = next_handle c ∧ capacity_ c' = capacity_ c
  ∧ table_ c' = table_ c ∧ usage_ c' = usage_ c.
Proof.
  unfold LRU_Remove. repeat case_decide; intros [= <-]; done.
Qed.

Lemma Ref_frame e c c' :
  Ref e c = Some c' →
  evolves c c' ∧ table_ c' = table_ c ∧ usage_ c' = usage_ c
  ∧ deleter_calls c' = deleter_calls c.
Proof.
  unfold Ref. destruct (handles c !! e) as [h|] eqn:He; [|done].
  cbn [mbind option_bind].
  destruct (bool_decide (refs h = 1) && in_cache h).
  - destruct (LRU_Remove e c) as [c1|] eqn:Hrm; [|done].
    destruct (LRU_Remove_frame _ _ _ Hrm) as (Hh & Hd & Hn & Hc & Ht & Hu).
    cbn [fmap option_fmap option_map mbind option_bind]. intros [= <-].
    set (c2 := LRU_Append the_in_use e c1).
    assert (evolves c c2) as E2 by (apply evolves_same; cbn; congruence).
    split_and!; [|cbn; congruence..].
    eapply evolves_trans; [exact E2|].
    apply (evolves_update c2 e h); [cbn; congruence|done].
  - cbn [mbind option_bind]. intros [= <-]. split_and!; try done.
    by apply (evolves_update _ e h).
Qed.

Lemma Unref_frame e c c' :
  Unref e c = Some c' →
  evolves c c' ∧ table_ c' = table_ c ∧ usage_ c' = usage_ c.
Proof.
  unfold Unref. destruct (handles c !! e) as [h|] eqn:He; [|done].
  cbn [mbind option_bind]. guard_cases. cbv zeta.
  cbn [refs set_refs in_cache value deleter key key_data].
  case_bool_decide.
  - guard_cases. intros [= <-]. split_and!; try done.
    split; try done; cbn.
    + intros q hq Hq. apply lookup_delete_Some in Hq as [_ Hq]. eauto.
    + eexists [_]. split; [done|]. intros call ->%list_elem_of_singleton.
      exists h. by split.
  - set (h1 := set_refs _ h).
    set (c0 := set_handles (<[e := h1]> (handles c)) c).
    assert (evolves c c0) as Hev by by apply (evolves_update _ e h).
    destruct (in_cache h && bool_decide (to_uint32 (refs h - 1) = 1)).
    + destruct (LRU_Remove e c0) as [c1|] eqn:Hrm; [|done].
      destruct (LRU_Remove_frame _ _ _ Hrm) as (Hh & Hd & Hn & Hc & Ht & Hu).
      cbn [fmap option_fmap option_map mbind option_bind]. intros [= <-].
      split_and!; [|cbn; rewrite ?Ht, ?Hu; done..].
      eapply evolves_trans; [exact Hev|].
      apply evolves_same; [exact Hh|exact Hd|exact Hn|exact Hc].
    + intros [= <-]. done.
Qed.

Lemma FinishErase_frame r c b c' :
  FinishErase r c = Some (b, c') →
  evolves c c' ∧ table_ c' = table_ c ∧ b = bool_decide (is_Some r).
Proof.
  destruct r as [e|]; cbn [FinishErase].
  2:{ intros [= <- <-]. split_and!; [apply evolves_refl|done|].
      symmetry. apply bool_decide_eq_false. by intros [? ?]. }
  destruct (handles c !! e) as [h|] eqn:He; [|done].
  cbn [mbind option_bind]. guard_cases.
  destruct (LRU_Remove e c) as [c1|] eqn:Hrm; [|done].
  destruct (LRU_Remove_frame _ _ _ Hrm) as (Hh & Hd & Hn & Hc & Ht & Hu).
  cbn [mbind option_bind]. cbv zeta.
  set (c2 := set_handles (<[e := set_in_cache false h]> (handles c1)) c1).
  set (c3 := set_usage _ c2).
  destruct (Unref e c3) as [c4|] eqn:Hun; [|done].
  destruct (Unref_frame _ _ _ Hun) as (Hev & Ht2 & _).
  cbn [mbind option_bind]. intros [= <- <-].
  split_and!; [|rewrite Ht2; cbn; congruence|
    symmetry; apply bool_decide_eq_true; eauto].
  apply (evolves_trans _ c1); [by apply evolves_same|].
  apply (evolves_trans _ c2);
    [apply (evolves_update _ e h); [congruence|done]|].
  apply (evolves_trans _ c3); [by apply evolves_same|done].
Qed.

Lemma evolves_set_table t c : evolves c (set_table t c).
Proof. by apply evolves_same. Qed.

Lemma Erase_frame k hsh c c' : Erase k hsh c = Some c' → evolves c c'.
Proof.
  unfold Erase.
  destruct (Table.Remove _ _ _ _) as [[t removed]|]; [|done].
  cbn [mbind option_bind].
  destruct (FinishErase removed _) as [[b c1]|] eqn:Hfe; [|done].
  cbn. intros [= <-].
  destruct (FinishErase_frame _ _ _ _ Hfe) as (Hev & _).
  eapply evolves_trans; [apply evolves_set_table|done].
Qed.

Lemma evict_oldest_frame old c c' : evict_oldest old c = Some c' → evolves c c'.
Proof.
  unfold evict_oldest. destruct (handles c !! old) as [h|]; [|done].
  cbn [mbind option_bind]. guard_cases.
  destruct (Table.Remove _ _ _ _) as [[t removed]|]; [|done].
  cbn [mbind option_bind].
  destruct (FinishErase removed _) as [[b c1]|] eqn:Hfe; [|done].
  cbn [mbind option_bind]. guard_cases. intros [= <-].
  destruct (FinishErase_frame _ _ _ _ Hfe) as (Hev & _).
  eapply evolves_trans; [apply evolves_set_table|done].
Qed.

Lemma evict_frame rounds : ∀ c c', evict rounds c = Some c' → evolves c c'.
Proof.
  induction rounds as [|rounds IH]; intros c c'; cbn [evict].
  - destruct (lru_ c) as [|old rest]; [intros [= <-]; apply evolves_refl|].
    destruct (capacity_ c <? usage_ c); [done|intros [= <-]; apply evolves_refl].
  - destruct (lru_ c) as [|old rest]; [intros [= <-]; apply evolves_refl|].
    destruct (capacity_ c <? usage_ c); [|intros [= <-]; apply evolves_refl].
    destruct (evict_oldest old c) as [c1|] eqn:Hev; [|done].
    cbn [mbind option_bind]. intros Hrest.
    eapply evolves_trans; [by eapply evict_oldest_frame|by apply IH].
Qed.

Lemma prune_frame rounds : ∀ c c', prune rounds c = Some c' → evolves c c'.
Proof.
  induction rounds as [|rounds IH]; intros c c'; cbn [prune].
  - destruct (lru_ c) as [|old rest]; [intros [= <-]; apply evolves_refl|done].
  - destruct (lru_ c) as [|old rest]; [intros [= <-]; apply evolves_refl|].
    destruct (evict_oldest old c) as [c1|] eqn:Hev; [|done].
    cbn [mbind option_bind]. intros Hrest.
    eapply evolves_trans; [by eapply evict_oldest_frame|by apply IH].
Qed.

Lemma Lookup_frame k hsh c r c' :
  Lookup k hsh c = Some (r, c') →
  evolves c c' ∧ table_ c' = table_ c ∧ usage_ c' = usage_ c
  ∧ deleter_calls c' = deleter_calls c
  ∧ Table.Lookup (handles c) (table_ c) k hsh = Some r.
Proof.
  unfold Lookup. destruct (Table.Lookup _ _ _ _) as [[p|]|]; [| |done].
  - cbn [mbind option_bind]. destruct (Ref p c) as [c1|] eqn:Href; [|done].
    cbn. intros [= <- <-]. destruct (Ref_frame _ _ _ Href) as (? & ? & ? & ?).
    done.
  - cbn. intros [= <- <-]. split_and!; try done. apply evolves_refl.
Qed.

(** The shard in which [Insert] has made the handle and nothing else. *)
Lemma Insert_frame k hsh v ch d c e c' :
  Insert k hsh v ch d c = Some (e, c') →
  e = next_handle c
  ∧ next_handle c' = S (next_handle c)
  ∧ capacity_ c' = capacity_ c
  ∧ ∃ h0, payload h0 = (k, hsh, v, ch, d)
      ∧ (∀ q h', handles c' !! q = Some h' →
           ∃ h, <[e := h0]> (handles c) !! q = Some h ∧ payload h = payload h')
      ∧ ∃ new, deleter_calls c' = deleter_calls c ++ new
          ∧ ∀ call, call ∈ new →
              ∃ h, <[e := h0]> (handles c) !! dc_handle call = Some h
                ∧ call = call_of (dc_handle call) h.
Proof.
  unfold Insert. cbv zeta.
  cbn [capacity_ handles next_handle usage_ lru_ in_use_ table_ deleter_calls].
  set (h0 := {| value := v; deleter := d; charge := ch; key_data := k;
               in_cache := false; refs := 1; hash := hsh |}).
  set (c0 := {| capacity_ := capacity_ c; usage_ := usage_ c; lru_ := lru_ c;
               in_use_ := in_use_ c; table_ := table_ c;
               handles := <[next_handle c := h0]> (handles c);
               next_handle := S (next_handle c);
               deleter_calls := deleter_calls c |}).
  intros Hrun.
  assert (∃ c1, evolves c0 c1 ∧ evict (length (lru_ c1)) c1 = Some c'
                ∧ e = next_handle c) as (c1 & Hev1 & Hevict & ->).
  { destruct (0 <? capacity_ c).
    - match type of Hrun with
      | context [Table.Insert ?hp ?t ?x] =>
          destruct (Table.Insert hp t x) as [[t' old]|]; [|done]
      end.
      cbn [mbind option_bind] in Hrun.
      match type of Hrun with
      | context [FinishErase old ?st] =>
          destruct (FinishErase old st) as [[b c1]|] eqn:Hfe; [|done];
          set (st0 := st) in *
      end.
      cbn [mbind option_bind] in Hrun.
      destruct (evict _ c1) as [c2|] eqn:Hevict; [|done].
      cbn in Hrun. injection Hrun as <- <-.
      exists c1. split; [|done].
      destruct (FinishErase_frame _ _ _ _ Hfe) as (Hev & _).
      eapply evolves_trans; [|done].
      split; try done; unfold st0, c0; cbn.
      + intros q hq. rewrite insert_insert_eq.
        destruct (decide (q = next_handle c)) as [->|Hne].
        * rewrite !lookup_insert_eq. intros [= <-]. eauto.
        * rewrite !lookup_insert_ne by done. eauto.
      + exists []. rewrite app_nil_r. split; [done|]. by intros ? ?%elem_of_nil.
    - cbn [mbind option_bind] in Hrun.
      destruct (evict _ _) as [c2|] eqn:Hevict; [|done].
      cbn in Hrun. injection Hrun as <- <-.
      exists c0. split; [apply evolves_refl|done]. }
  pose proof (evict_frame _ _ _ Hevict) as Hev2.
  pose proof (evolves_trans _ _ _ Hev1 Hev2) as [Hh Hc Hn Hk].
  split; [done|]. split; [done|]. split; [done|].
  exists h0. split; [done|]. split; [exact Hh|exact Hc].
Qed.

(** An operation makes no handle but the one that [Insert] returns, leaves
    to the handles what they carry, and calls deleters only on handles that
    were there, or on the new one, with what they carry. *)
Lemma step_frame op s s' :
  step op s = Some s' →
  next_handle (shard s')
  = (next_handle (shard s) + (if is_insert op then 1 else 0))%nat
  ∧ capacity_ (shard s') = capacity_ (shard s)
  ∧ ∃ heap0 : Heap,
      (∀ q h, heap0 !! q = Some h →
         handles (shard s) !! q = Some h
         ∨ (q = next_handle (shard s) ∧ insert_of h = op))
      ∧ (∀ q h', handles (shard s') !! q = Some h' →
           ∃ h, heap0 !! q = Some h ∧ payload h = payload h')
      ∧ ∃ new, deleter_calls (shard s') = deleter_calls (shard s) ++ new
          ∧ ∀ call, call ∈ new →
              ∃ h, heap0 !! dc_handle call = Some h
                ∧ call = call_of (dc_handle call) h.
Proof.
  destruct s as [c X].
  destruct op as [k hsh v ch d|k hsh|e|k hsh|]; cbn [step shard held is_insert].
  - destruct (Insert k hsh v ch d c) as [[e c']|] eqn:Hins; [|done].
    cbn. intros [= <-]. cbn.
    destruct (Insert_frame _ _ _ _ _ _ _ _ Hins)
      as (-> & Hn & Hk & h0 & Hp & Hh & Hc).
    split; [lia|]. split; [done|].
    exists (<[next_handle c := h0]> (handles c)). split; [|by split].
    intros q h. destruct (decide (q = next_handle c)) as [->|Hne].
    + rewrite lookup_insert_eq. intros [= <-]. right. split; [done|].
      unfold insert_of. unfold payload in Hp. by injection Hp as -> -> -> -> ->.
    + rewrite lookup_insert_ne by done. by left.
  - destruct (Lookup k hsh c) as [[r c']|] eqn:Hl; [|done].
    cbn. intros [= <-]. cbn.
    destruct (Lookup_frame _ _ _ _ _ Hl) as ([Hh Hc Hn Hk] & _).
    split; [lia|]. split; [done|]. exists (handles c). eauto.
  - unfold Release. destruct (Unref e c) as [c'|] eqn:Hun; [|done].
    cbn. intros [= <-]. cbn.
    destruct (Unref_frame _ _ _ Hun) as ([Hh Hc Hn Hk] & _).
    split; [lia|]. split; [done|]. exists (handles c). eauto.
  - destruct (Erase k hsh c) as [c'|] eqn:Her; [|done].
    cbn. intros [= <-]. cbn.
    destruct (Erase_frame _ _ _ _ Her) as [Hh Hc Hn Hk].
    split; [lia|]. split; [done|]. exists (handles c). eauto.
  - unfold Prune. destruct (prune _ c) as [c'|] eqn:Hpr; [|done].
    cbn. intros [= <-]. cbn.
    destruct (prune_frame _ _ _ Hpr) as [Hh Hc Hn Hk].
    split; [lia|]. split; [done|]. exists (handles c). eauto.
Qed.

(** In a reachable state the handles are numbered in the order of the
    [Insert] calls, each carries what its [Insert] gave it, and each deleter
    call was made on a handle with what its [Insert] gave it. *)
Lemma Reachable_payload capacity ops s :
  Reachable capacity ops s →
  next_handle (shard s) = length (filter is_insert ops)
  ∧ capacity_ (shard s) = capacity
  ∧ (∀ p h, handles (shard s) !! p = Some h →
       filter is_insert ops !! p = Some (insert_of h))
  ∧ (∀ call, call ∈ deleter_calls (shard s) →
       ∃ h, filter is_insert ops !! dc_handle call = Some (insert_of h)
         ∧ call = call_of (dc_handle call) h).
Proof.
  induction 1 as [|ops s op s' _ IH Hal Hstep].
  - cbn. split; [done|]. split; [done|]. split.
    + intros p h. by rewrite lookup_empty.
    + by intros call ?%elem_of_nil.
  - destruct IH as (IHn & IHk & IHh & IHc).
    destruct (step_frame _ _ _ Hstep)
      as (Hn & Hk & heap0 & H0 & Hh & new & Hc & Hnew).
    assert (filter is_insert (ops ++ [op])
            = filter is_insert ops ++ (if is_insert op then [op] else [])) as Hf.
    { rewrite filter_app, filter_cons, filter_nil. by destruct (is_insert op). }
    assert (∀ q h, heap0 !! q = Some h →
              filter is_insert (ops ++ [op]) !! q = Some (insert_of h)) as H0'.
    { intros q h [Hq|[-> Hop]]%H0; rewrite Hf.
      - apply lookup_app_l_Some. by apply IHh.
      - rewrite IHn, lookup_app_r, Nat.sub_diag by lia.
        rewrite <- Hop. done. }
    assert (∀ h h', payload h = payload h' → insert_of h = insert_of h') as Hpi.
    { intros h h'. unfold payload, insert_of. by intros [= -> -> -> -> ->]. }
    split; [|split; [congruence|split]].
    + rewrite Hn, IHn, Hf, length_app. by destruct (is_insert op).
    + intros p h' Hp. destruct (Hh p h' Hp) as (h & Hq & Hpay).
      rewrite <- (Hpi _ _ Hpay). by apply H0'.
    + intros call. rewrite Hc. intros [Hin|Hin]%elem_of_app.
      * destruct (IHc call Hin) as (h & Hl & Heq). exists h. split; [|done].
        rewrite Hf. by apply lookup_app_l_Some.
      * destruct (Hnew call Hin) as (h & Hq & Heq). exists h. split; [|done].
        by apply H0'.
Qed.

(** *** What each operation does to a reachable shard *)

Lemma handle_eq (h h' : LRUHandle) :
  payload h = payload h' → in_cache h = in_cache h' → refs h = refs h' → h = h'.
Proof.
  destruct h, h'. unfold payload, key. cbn. by intros [= -> -> -> -> ->] -> ->.
Qed.

(** [Ref] of a handle of the hash table. *)
Lemma Ref_detail n c X e :
  Inv None n {| shard := c; held := X |} → e ∈ entries (table_ c) →
  Z.of_nat n < 2 ^ 31 →
  ∃ h, handles c !! e = Some h ∧ in_cache h = true
    ∧ refs h = Z.of_nat (multiplicity e X) + 1
    ∧ Ref e c = Some
        {| capacity_ := capacity_ c; usage_ := usage_ c;
           lru_ := filter (λ q, q ≠ e) (lru_ c);
           in_use_ := if decide (refs h = 1) then in_use_ c ++ [e]
                      else in_use_ c;
           table_ := table_ c;
           handles := <[e := set_refs (refs h + 1) h]> (handles c);
           next_handle := next_handle c;
           deleter_calls := deleter_calls c |}.
Proof.
  intros HI He Hn.
  destruct c as [cap us lru inu tbl heap nxt dcs].
  inv_open HI.
  pose proof (multiplicity_le_size X e) as Hle.
  pose proof (Hok e) as Hoke. unfold handle_ok in Hoke. cbn in Hoke.
  destruct (heap !! e) as [h|] eqn:Hh; [|by destruct Hoke as (_ & ? & _)].
  destruct Hoke as (Hr & H1 & Hc & _ & Hl & Hi & Hf & Hd).
  assert (in_cache h = true) as Hic by (apply Hc; by left).
  rewrite Hic in Hr.
  exists h. split; [done|]. split; [done|]. split; [done|].
  unfold Ref. cbn [handles]. rewrite Hh. cbn [mbind option_bind].
  rewrite Hic, to_uint32_small by lia.
  case_bool_decide as Hone; cbn [andb].
  - unfold LRU_Remove. cbn [lru_ in_use_].
    rewrite decide_True by (by rewrite Hl).
    state_simpl. by rewrite decide_True.
  - state_simpl. rewrite decide_False by done.
    rewrite filter_ne_not_in; [done|]. rewrite Hl. by intros [_ ?].
Qed.

(** [Unref] of a handle that a client holds. *)
Lemma Unref_detail n c X e :
  Inv None n {| shard := c; held := X |} → e ∈ X → Z.of_nat n < 2 ^ 31 →
  ∃ h, handles c !! e = Some h
    ∧ refs h = Z.of_nat (multiplicity e X) + (if in_cache h then 1 else 0)
    ∧ Unref e c = Some
        (if decide (refs h = 1) then
           {| capacity_ := capacity_ c; usage_ := usage_ c; lru_ := lru_ c;
              in_use_ := in_use_ c; table_ := table_ c;
              handles := delete e (handles c);
              next_handle := next_handle c;
              deleter_calls := deleter_calls c ++ [call_of e h] |}
         else
           {| capacity_ := capacity_ c; usage_ := usage_ c;
              lru_ := if decide (refs h = 2 ∧ in_cache h = true)
                      then lru_ c ++ [e] else lru_ c;
              in_use_ := if decide (refs h = 2 ∧ in_cache h = true)
                         then filter (λ q, q ≠ e) (in_use_ c) else in_use_ c;
              table_ := table_ c;
              handles := <[e := set_refs (refs h - 1) h]> (handles c);
              next_handle := next_handle c;
              deleter_calls := deleter_calls c |}).
Proof.
  intros HI He Hn.
  destruct c as [cap us lru inu tbl heap nxt dcs].
  inv_open HI.
  pose proof (proj1 (elem_of_multiplicity e X) He) as Hm.
  pose proof (multiplicity_le_size X e) as Hle.
  pose proof (Hok e) as Hoke. unfold handle_ok in Hoke. cbn in Hoke.
  destruct (heap !! e) as [h|] eqn:Hh; [|lia].
  destruct Hoke as (Hr & H1 & Hc & _ & Hl & Hi & Hf & Hd).
  exists h. split; [done|]. split; [done|].
  unfold Unref. cbn [handles]. rewrite Hh. cbn [mbind option_bind].
  rewrite option_guard_True by lia. cbn [mbind option_bind].
  cbn [refs set_refs in_cache value deleter key key_data].
  destruct (in_cache h) eqn:Hic; rewrite to_uint32_small by lia;
    case_bool_decide as Hz; cbn [andb mbind option_bind].
  - lia.
  - rewrite decide_False by lia. case_bool_decide as Hone.
    + unfold LRU_Remove. cbn [lru_ in_use_ set_handles].
      rewrite decide_False by (rewrite Hl; lia).
      rewrite decide_True by (rewrite Hi; split; [done|lia]).
      state_simpl. by rewrite !decide_True by (split; [lia|done]).
    + by rewrite !decide_False by lia.
  - rewrite option_guard_True by done. cbn [mbind option_bind].
    by rewrite decide_True by lia.
  - rewrite decide_False by lia. by rewrite !decide_False by (by intros [_ ?]).
Qed.

(** [LRUCache::Lookup] on a reachable shard.  Either no entry of the hash
    table has the key and the hash: the result is [nullptr] and the shard is
    as before.  Or one entry has them: it is returned with one reference
    more, and if that is its first client reference it goes from [lru_] to
    the newest end of [in_use_]; nothing else changes. *)
Theorem Lookup_hit_or_miss capacity ops s k hsh :
  Reachable capacity ops s → Z.of_nat (length ops) < kMaxOperations →
  let c := shard s in
  ((∀ p h, p ∈ entries (table_ c) → handles c !! p = Some h →
      ¬ (hash h = hsh ∧ key h = k))
   ∧ Lookup k hsh c = Some (None, c))
  ∨ (∃ p h,
       p ∈ entries (table_ c) ∧ handles c !! p = Some h
       ∧ hash h = hsh ∧ key h = k ∧ in_cache h = true
       ∧ refs h = Z.of_nat (multiplicity p (held s)) + 1
       ∧ Lookup k hsh c = Some (Some p,
           {| capacity_ := capacity_ c; usage_ := usage_ c;
              lru_ := filter (λ q, q ≠ p) (lru_ c);
              in_use_ := if decide (refs h = 1) then in_use_ c ++ [p]
                         else in_use_ c;
              table_ := table_ c;
              handles := <[p := set_refs (refs h + 1) h]> (handles c);
              next_handle := next_handle c;
              deleter_calls := deleter_calls c |})).
Proof.
  intros HR Hlen c. destruct (Reachable_Inv _ _ _ HR Hlen) as [HI _].
  assert (Inv None (length ops) {| shard := c; held := held s |}) as HI'
    by by destruct s.
  unfold kMaxOperations in Hlen.
  destruct (Table_Lookup_spec (handles c) (table_ c) k hsh) as (r & HL & Hr);
    [apply HI|].
  unfold Lookup. rewrite HL. cbn [mbind option_bind].
  destruct r as [p|]; [right|left; by split].
  destruct Hr as (Hp & h & Hh & Hhash & Hkey).
  destruct (Ref_detail _ c (held s) p HI' Hp Hlen) as (h' & Hh' & Hic & Hr & ->).
  rewrite Hh in Hh'. injection Hh' as <-.
  exists p, h. by split_and!.
Qed.

Lemma Lookup_hit_or_miss_witness :
  let ops := [DoInsert ["A"%byte] 1 7 2 0; DoRelease 0] in
  let s := default (start 10) (run ops (start 10)) in
  Reachable 10 ops s
  ∧ Z.of_nat (length ops) < kMaxOperations
  ∧ (∃ c', Lookup ["A"%byte] 1 (shard s) = Some (Some 0%nat, c')
           ∧ lru_ c' = [] ∧ in_use_ c' = [0%nat])
  ∧ Lookup ["B"%byte] 2 (shard s) = Some (None, shard s).
Proof.
  intros ops s.
  assert (Reachable 10 ops s) as HR.
  { apply run_start_Reachable. vm_compute. reflexivity. }
  assert (Z.of_nat (length ops) < kMaxOperations) as Hb by reflexivity.
  split; [exact HR|]. split; [exact Hb|]. split.
  - eexists. split; [vm_compute; reflexivity|]. split; reflexivity.
  - destruct (Lookup_hit_or_miss 10 ops s ["B"%byte] 2 HR Hb)
      as [[_ Hmiss]|(p & h & _ & _ & _ & _ & _ & _ & Hhit)]; [exact Hmiss|].
    vm_compute in Hhit. discriminate Hhit.
Defined.

(** [LRUCache::Release] of a handle that the client holds, on a reachable
    shard.  The handle is live and has one reference for each time it is
    held and one for the cache if it is cached.  If this is its last
    reference, its deleter is called with its key and value and it is
    freed; if the cache's reference is the only one left, it goes from
    [in_use_] to the newest end of [lru_]; otherwise only the count goes
    down. *)
Theorem Release_cases capacity ops s p :
  Reachable capacity ops s → Z.of_nat (length ops) < kMaxOperations →
  p ∈ held s →
  let c := shard s in
  ∃ h, handles c !! p = Some h
    ∧ refs h = Z.of_nat (multiplicity p (held s))
               + (if in_cache h then 1 else 0)
    ∧ Release p c = Some
        (if decide (refs h = 1) then
           {| capacity_ := capacity_ c; usage_ := usage_ c; lru_ := lru_ c;
              in_use_ := in_use_ c; table_ := table_ c;
              handles := delete p (handles c);
              next_handle := next_handle c;
              deleter_calls := deleter_calls c
                ++ [{| dc_handle := p; dc_deleter := deleter h;
                       dc_key := key h; dc_value := value h |}] |}
         else
           {| capacity_ := capacity_ c; usage_ := usage_ c;
              lru_ := if decide (refs h = 2 ∧ in_cache h = true)
                      then lru_ c ++ [p] else lru_ c;
              in_use_ := if decide (refs h = 2 ∧ in_cache h = true)
                         then filter (λ q, q ≠ p) (in_use_ c) else in_use_ c;
              table_ := table_ c;
              handles := <[p := set_refs (refs h - 1) h]> (handles c);
              next_handle := next_handle c;
              deleter_calls := deleter_calls c |}).
Proof.
  intros HR Hlen Hp c. destruct (Reachable_Inv _ _ _ HR Hlen) as [HI _].
  assert (Inv None (length ops) {| shard := c; held := held s |}) as HI'
    by by destruct s.
  unfold kMaxOperations in Hlen.
  destruct (Unref_detail _ c (held s) p HI' Hp Hlen) as (h & Hh & Hr & Hun).
  exists h. split; [done|]. split; [done|]. exact Hun.
Qed.

Lemma Release_cases_witness :
  let ops := [DoInsert ["A"%byte] 1 7 2 0] in
  let s := default (start 10) (run ops (start 10)) in
  Reachable 10 ops s
  ∧ Z.of_nat (length ops) < kMaxOperations
  ∧ 0%nat ∈ held s
  ∧ ∃ c', Release 0 (shard s) = Some c' ∧ lru_ c' = [0%nat] ∧ in_use_ c' = [].
Proof.
  intros ops s.
  assert (Reachable 10 ops s) as HR.
  { apply run_start_Reachable. vm_compute. reflexivity. }
  assert (Z.of_nat (length ops) < kMaxOperations) as Hb by reflexivity.
  assert (0%nat ∈ held s) as Hheld.
  { apply elem_of_multiplicity. vm_compute. lia. }
  split; [exact HR|]. split; [exact Hb|]. split; [exact Hheld|].
  destruct (Release_cases 10 ops s 0%nat HR Hb Hheld) as (h & Hh & _ & Hrel).
  vm_compute in Hh. injection Hh as <-.
  eexists. split; [exact Hrel|]. split; vm_compute; reflexivity.
Defined.

Lemma to_uint64_sub_l a b : to_uint64 (to_uint64 a - b) = to_uint64 (a - b).
Proof. unfold to_uint64. by rewrite Zminus_mod_idemp_l. Qed.

Lemma to_uint64_add_l a b : to_uint64 (to_uint64 a + b) = to_uint64 (a + b).
Proof. unfold to_uint64. by rewrite Zplus_mod_idemp_l. Qed.

Lemma charge_sum_ext (heap heap' : Heap) l :
  (∀ q, q ∈ l → charge <$> heap' !! q = charge <$> heap !! q) →
  charge_sum heap' l = charge_sum heap l.
Proof.
  induction l as [|p l IH]; intros Hext; [done|]. cbn [charge_sum foldr].
  fold (charge_sum heap' l). fold (charge_sum heap l).
  rewrite IH by (intros q Hq; apply Hext; by right).
  f_equal. specialize (Hext p (list_elem_of_here _ _)).
  destruct (heap' !! p), (heap !! p); cbn in *; congruence.
Qed.

Lemma charge_sum_cons (heap : Heap) p h l :
  heap !! p = Some h → charge_sum heap (p :: l) = charge h + charge_sum heap l.
Proof. intros Hp. cbn [charge_sum foldr]. by rewrite Hp. Qed.

(** [Erase] of a key that the hash table has. *)
Lemma Erase_detail n c X k hsh p :
  Inv None n {| shard := c; held := X |} → Z.of_nat n < 2 ^ 31 →
  Table.Lookup (handles c) (table_ c) k hsh = Some (Some p) →
  ∃ c' h, Erase k hsh c = Some c' ∧ handles c !! p = Some h
    ∧ hash h = hsh ∧ key h = k
    ∧ Inv None n {| shard := c'; held := X |}
    ∧ capacity_ c' = capacity_ c ∧ next_handle c' = next_handle c
    ∧ usage_ c' = to_uint64 (usage_ c - charge h)
    ∧ lru_ c' = filter (λ q, q ≠ p) (lru_ c)
    ∧ in_use_ c' = filter (λ q, q ≠ p) (in_use_ c)
    ∧ (∀ q, q ∈ entries (table_ c') ↔ q ∈ entries (table_ c) ∧ q ≠ p)
    ∧ (∀ q, q ≠ p → handles c' !! q = handles c !! q)
    ∧ (multiplicity p X = 0%nat →
         handles c' !! p = None
         ∧ deleter_calls c' = deleter_calls c ++ [call_of p h])
    ∧ ((0 < multiplicity p X)%nat →
         handles c' !! p = Some (set_in_cache false (set_refs (refs h - 1) h))
         ∧ deleter_calls c' = deleter_calls c).
Proof.
  intros HI Hn HL. unfold Erase.
  destruct (Remove_pending n c X k hsh HI Hn) as (r & HL' & Hr).
  rewrite HL in HL'. injection HL' as <-.
  destruct Hr as (t' & -> & HI1 & Hmem & Hp & h & Hh & Hhash & Hkey).
  cbn [mbind option_bind].
  destruct (FinishErase_pending n _ X p HI1 Hn)
    as (c' & h' & Hfe & Hh' & HI' & Hcap & Hus & Ht & Hnx & Hl & Hi & Hsub
        & Hoth & Hfree & Hkeep).
  rewrite Hfe. cbn [mbind option_bind].
  cbn [handles set_table] in Hh'. rewrite Hh in Hh'. injection Hh' as <-.
  exists c', h. split_and!; try done.
  - by rewrite Ht.
  - intros Hm. destruct (Hkeep Hm) as [[h2 Hh2] Hdc]. split; [|done].
    rewrite Hh2. f_equal.
    destruct (FinishErase_frame _ _ _ _ Hfe) as ([Hev _ _ _] & _).
    destruct (Hev p h2 Hh2) as (h0 & Hh0 & Hpay).
    cbn [handles set_table] in Hh0. rewrite Hh in Hh0. injection Hh0 as <-.
    pose proof (inv_handles _ _ _ HI' p) as Hok2. unfold handle_ok in Hok2.
    cbn [shard held] in Hok2. rewrite Hh2 in Hok2.
    destruct Hok2 as (Hr2 & _ & Hc2 & _).
    pose proof (inv_handles _ _ _ HI p) as Hok0. unfold handle_ok in Hok0.
    cbn [shard held] in Hok0. rewrite Hh in Hok0.
    destruct Hok0 as (Hr0 & _ & Hc0 & _).
    assert (in_cache h = true) as Hic by (apply Hc0; by left).
    assert (in_cache h2 = false) as Hic2.
    { destruct (in_cache h2); [|done]. exfalso.
      destruct (proj1 Hc2 eq_refl) as [Hin|?]; [|done].
      rewrite Ht in Hin. cbn [table_ set_table] in Hin.
      apply Hmem in Hin as [_ ?]. done. }
    rewrite Hic in Hr0. rewrite Hic2 in Hr2.
    apply handle_eq; [by rewrite <- Hpay|by rewrite Hic2|].
    cbn [refs set_in_cache set_refs]. lia.
Qed.

(** [LRUCache::Erase] of the key of an entry [p] of the hash table, on a
    reachable shard: the entry leaves the hash table and its list, its
    charge is taken off the usage, and a [Lookup] of the key misses
    afterwards.  If no client holds [p], its deleter is called with its key
    and value and it is freed; if a client holds it, it stays live, out of
    the cache, with one reference less, and no deleter is called.  No other
    handle changes. *)
Theorem Erase_present capacity ops s p h :
  Reachable capacity ops s → Z.of_nat (length ops) < kMaxOperations →
  p ∈ entries (table_ (shard s)) → handles (shard s) !! p = Some h →
  let c := shard s in
  ∃ c', Erase (key h) (hash h) c = Some c'
    ∧ Lookup (key h) (hash h) c' = Some (None, c')
    ∧ capacity_ c' = capacity_ c
    ∧ usage_ c' = to_uint64 (usage_ c - charge h)
    ∧ lru_ c' = filter (λ q, q ≠ p) (lru_ c)
    ∧ in_use_ c' = filter (λ q, q ≠ p) (in_use_ c)
    ∧ (∀ q, q ∈ entries (table_ c') ↔ q ∈ entries (table_ c) ∧ q ≠ p)
    ∧ (∀ q, q ≠ p → handles c' !! q = handles c !! q)
    ∧ (p ∉ held s →
         handles c' !! p = None
         ∧ deleter_calls c' = deleter_calls c
             ++ [{| dc_handle := p; dc_deleter := deleter h;
                    dc_key := key h; dc_value := value h |}])
    ∧ (p ∈ held s →
         handles c' !! p = Some (set_in_cache false (set_refs (refs h - 1) h))
         ∧ deleter_calls c' = deleter_calls c).
Proof.
  intros HR Hlen Hp Hh c. destruct (Reachable_Inv _ _ _ HR Hlen) as [HI _].
  assert (Inv None (length ops) {| shard := c; held := held s |}) as HI'
    by by destruct s.
  unfold kMaxOperations in Hlen.
  pose proof (Table_Lookup_entry _ _ _ _ (inv_table _ _ _ HI) Hp Hh) as HL.
  destruct (Erase_detail _ c (held s) _ _ p HI' Hlen HL)
    as (c' & h' & HE & Hh' & _ & _ & HI1 & Hcap & _ & Hus & Hl & Hi & Hmem
        & Hoth & Hfree & Hkeep).
  fold c in Hh. rewrite Hh in Hh'. injection Hh' as <-.
  exists c'. split; [done|]. split.
  { destruct (Erase_Inv _ c (held s) (key h) (hash h) HI' Hlen)
      as (c2 & HE2 & _ & _ & HL2 & _).
    rewrite HE in HE2. injection HE2 as <-.
    unfold Lookup. by rewrite HL2. }
  split_and!; try done.
  intros Hnot. apply Hfree. by apply not_elem_of_multiplicity.
Qed.

Lemma Erase_present_witness :
  let ops := [DoInsert ["A"%byte] 1 7 2 0] in
  let s := default (start 10) (run ops (start 10)) in
  let h := {| value := 7; deleter := 0; charge := 2; key_data := ["A"%byte];
              in_cache := true; refs := 2; hash := 1 |} in
  Reachable 10 ops s
  ∧ Z.of_nat (length ops) < kMaxOperations
  ∧ 0%nat ∈ entries (table_ (shard s))
  ∧ handles (shard s) !! 0%nat = Some h
  ∧ ∃ c', Erase ["A"%byte] 1 (shard s) = Some c'
      ∧ usage_ c' = 0 ∧ in_use_ c' = [] ∧ deleter_calls c' = [].
Proof.
  intros ops s h.
  assert (Reachable 10 ops s) as HR.
  { apply run_start_Reachable. vm_compute. reflexivity. }
  assert (Z.of_nat (length ops) < kMaxOperations) as Hb by reflexivity.
  assert (0%nat ∈ entries (table_ (shard s))) as Hp.
  { vm_compute. apply list_elem_of_here. }
  assert (handles (shard s) !! 0%nat = Some h) as Hh by (vm_compute; reflexivity).
  split; [exact HR|]. split; [exact Hb|]. split; [exact Hp|]. split; [exact Hh|].
  destruct (Erase_present 10 ops s 0%nat h HR Hb Hp Hh)
    as (c' & HE & _ & _ & Hus & _ & Hi & _ & _ & _ & Hkeep).
  exists c'. split; [exact HE|]. split; [exact Hus|]. split; [exact Hi|].
  apply Hkeep. apply elem_of_multiplicity. vm_compute. lia.
Defined.

(** The loop of [Prune], in detail: every entry of [lru_] is taken out of
    the hash table and freed, oldest first. *)
Lemma prune_detail n X rounds :
  ∀ c, Inv None n {| shard := c; held := X |} → Z.of_nat n < 2 ^ 31 →
  (length (lru_ c) <= rounds)%nat →
  ∃ c' calls, prune rounds c = Some c'
    ∧ Inv None n {| shard := c'; held := X |}
    ∧ lru_ c' = [] ∧ in_use_ c' = in_use_ c
    ∧ capacity_ c' = capacity_ c ∧ next_handle c' = next_handle c
    ∧ deleter_calls c' = deleter_calls c ++ calls
    ∧ dc_handle <$> calls = lru_ c
    ∧ (∀ call, call ∈ calls →
         ∃ h, handles c !! dc_handle call = Some h
           ∧ call = call_of (dc_handle call) h)
    ∧ to_uint64 (usage_ c')
      = to_uint64 (usage_ c - charge_sum (handles c) (lru_ c))
    ∧ (∀ q, q ∈ entries (table_ c') ↔ q ∈ entries (table_ c) ∧ q ∉ lru_ c)
    ∧ (∀ q, q ∉ lru_ c → handles c' !! q = handles c !! q)
    ∧ (∀ q, q ∈ lru_ c → handles c' !! q = None).
Proof.
  assert (∀ c : LRUCache, lru_ c = [] →
    ∃ c' calls, Some c = Some c'
      ∧ lru_ c' = [] ∧ in_use_ c' = in_use_ c
      ∧ capacity_ c' = capacity_ c ∧ next_handle c' = next_handle c
      ∧ deleter_calls c' = deleter_calls c ++ calls
      ∧ dc_handle <$> calls = lru_ c
      ∧ (∀ call, call ∈ calls →
           ∃ h, handles c !! dc_handle call = Some h
             ∧ call = call_of (dc_handle call) h)
      ∧ to_uint64 (usage_ c')
        = to_uint64 (usage_ c - charge_sum (handles c) (lru_ c))
      ∧ (∀ q, q ∈ entries (table_ c') ↔ q ∈ entries (table_ c) ∧ q ∉ lru_ c)
      ∧ (∀ q, q ∉ lru_ c → handles c' !! q = handles c !! q)
      ∧ (∀ q, q ∈ lru_ c → handles c' !! q = None)) as Hempty.
  { intros c Hlru. exists c, []. rewrite Hlru, app_nil_r. cbn.
    rewrite Z.sub_0_r. split_and!; try done.
    - by intros ? ?%elem_of_nil.
    - intros q. split; [intros ?; split; [done|apply not_elem_of_nil]|by intros [? _]].
    - by intros q ?%elem_of_nil. }
  induction rounds as [|rounds IH]; intros c HI Hn Hlen.
  - destruct (lru_ c) as [|old rest] eqn:Hlru; [|cbn in Hlen; lia].
    cbn [prune]. rewrite Hlru.
    destruct (Hempty c Hlru) as (c' & calls & Heq & Hrest).
    rewrite Hlru in Hrest. exists c', calls. split; [done|].
    injection Heq as <-. by split.
  - cbn [prune]. destruct (lru_ c) as [|old rest] eqn:Hlru.
    { destruct (Hempty c Hlru) as (c' & calls & Heq & Hrest).
      rewrite Hlru in Hrest. exists c', calls. split; [done|].
      injection Heq as <-. by split. }
    pose proof (inv_lru_nodup _ _ _ HI) as Hnd. cbn [shard] in Hnd.
    rewrite Hlru in Hnd. apply NoDup_cons in Hnd as [Hold Hnd].
    destruct (evict_oldest_spec n c X old rest HI Hn Hlru)
      as (c1 & h & -> & Hh & HI1 & Hcap1 & Hus1 & Hl1 & Hi1 & Hnx1 & Hcalls1
          & Hmem1 & Hin1 & Hheap1).
    cbn [mbind option_bind].
    destruct (IH c1 HI1 Hn)
      as (c' & calls & -> & HI' & Hl & Hi & Hcap & Hnx & Hcalls & Hdc & Hpay
          & Hus & Hmem & Hkeep & Hgone).
    { rewrite Hl1. cbn in Hlen. lia. }
    rewrite Hl1 in *.
    exists c', (call_of old h :: calls). split; [done|]. split; [done|].
    split_and!; try congruence.
    + rewrite Hcalls, Hcalls1, <- app_assoc. done.
    + cbn. by rewrite Hdc.
    + intros call [->|Hc]%elem_of_cons; [by exists h|].
      destruct (Hpay call Hc) as (hc & Hhc & Heq). exists hc. split; [|done].
      rewrite Hheap1 in Hhc. by apply lookup_delete_Some in Hhc as [_ ?].
    + rewrite Hus, Hus1, to_uint64_sub_l, (charge_sum_cons _ _ h) by done.
      rewrite (charge_sum_ext (handles c) (handles c1)).
      * f_equal. lia.
      * intros q Hq. rewrite Hheap1, lookup_delete_ne; [done|].
        by intros ->.
    + intros q. rewrite Hmem, Hmem1, not_elem_of_cons. tauto.
    + intros q [Hne Hq]%not_elem_of_cons.
      rewrite Hkeep, Hheap1 by done. by rewrite lookup_delete_ne.
    + intros q [->|Hq]%elem_of_cons; [|by apply Hgone].
      rewrite Hkeep, Hheap1 by done. by rewrite lookup_delete_eq.
Qed.

(** [LRUCache::Prune] on a reachable shard: it returns with [lru_] empty;
    the entries that were on [lru_], which no client holds, leave the hash
    table and are freed, their deleters called in the order of the list,
    oldest first, each with the entry's key and value; their charges are
    taken off the usage.  [in_use_] and the other handles are as before. *)
Theorem Prune_frees_unreferenced capacity ops s :
  Reachable capacity ops s → Z.of_nat (length ops) < kMaxOperations →
  let c := shard s in
  ∃ c' calls, Prune c = Some c'
    ∧ lru_ c' = [] ∧ in_use_ c' = in_use_ c ∧ capacity_ c' = capacity_ c
    ∧ deleter_calls c' = deleter_calls c ++ calls
    ∧ dc_handle <$> calls = lru_ c
    ∧ (∀ call, call ∈ calls →
         ∃ h, handles c !! dc_handle call = Some h
           ∧ dc_key call = key h ∧ dc_value call = value h
           ∧ dc_deleter call = deleter h)
    ∧ to_uint64 (usage_ c')
      = to_uint64 (usage_ c - charge_sum (handles c) (lru_ c))
    ∧ (∀ q, q ∈ entries (table_ c') ↔ q ∈ entries (table_ c) ∧ q ∉ lru_ c)
    ∧ (∀ q, q ∉ lru_ c → handles c' !! q = handles c !! q)
    ∧ (∀ q, q ∈ lru_ c → handles c' !! q = None ∧ q ∉ held s).
Proof.
  intros HR Hlen c. destruct (Reachable_Inv _ _ _ HR Hlen) as [HI _].
  assert (Inv None (length ops) {| shard := c; held := held s |}) as HI'
    by by destruct s.
  unfold kMaxOperations in Hlen.
  destruct (prune_detail _ (held s) (length (lru_ c)) c HI' Hlen)
    as (c' & calls & Hpr & _ & Hl & Hi & Hcap & _ & Hcalls & Hdc & Hpay & Hus
        & Hmem & Hkeep & Hgone); [done|].
  exists c', calls. split; [done|]. split_and!; try done.
  - intros call Hc. destruct (Hpay call Hc) as (h & Hh & Heq).
    exists h. split; [done|]. by rewrite Heq.
  - intros q Hq. split; [by apply Hgone|].
    pose proof (inv_handles _ _ _ HI q) as Hok. unfold handle_ok in Hok.
    fold c in Hok.
    destruct (handles c !! q) as [h|].
    + destruct Hok as (Hr & _ & _ & _ & Hlru & _).
      destruct (proj1 Hlru Hq) as [Hic H1]. rewrite Hic in Hr.
      apply not_elem_of_multiplicity. lia.
    + destruct Hok as (Hm & _). by apply not_elem_of_multiplicity.
Qed.

Lemma Prune_frees_unreferenced_witness :
  let ops := [DoInsert ["A"%byte] 1 0 2 0; DoRelease 0;
              DoInsert ["B"%byte] 2 0 3 0;
              DoInsert ["C"%byte] 3 0 4 0; DoRelease 2] in
  let s := default (start 10) (run ops (start 10)) in
  Reachable 10 ops s
  ∧ Z.of_nat (length ops) < kMaxOperations
  ∧ lru_ (shard s) = [0; 2]%nat
  ∧ ∃ c' calls, Prune (shard s) = Some c'
      ∧ lru_ c' = [] ∧ in_use_ c' = [1%nat]
      ∧ deleter_calls c' = deleter_calls (shard s) ++ calls
      ∧ dc_handle <$> calls = [0; 2]%nat.
Proof.
  intros ops s.
  assert (Reachable 10 ops s) as HR.
  { apply run_start_Reachable. vm_compute. reflexivity. }
  assert (Z.of_nat (length ops) < kMaxOperations) as Hb by reflexivity.
  split; [exact HR|]. split; [exact Hb|]. split; [vm_compute; reflexivity|].
  destruct (Prune_frees_unreferenced 10 ops s HR Hb)
    as (c' & calls & Hpr & Hl & Hi & _ & Hcalls & Hdc & _).
  exists c', calls. split; [exact Hpr|]. split; [exact Hl|].
  split; [rewrite Hi; vm_compute; reflexivity|].
  split; [exact Hcalls|]. rewrite Hdc. vm_compute. reflexivity.
Defined.

(** *** The destructor *)

(** The loop of the destructor over entries that are cached and have the
    cache's reference only: each one is freed, its deleter called. *)
Lemma destroy_entries_spec es :
  ∀ c, NoDup es →
  (∀ e, e ∈ es →
     ∃ h, handles c !! e = Some h ∧ in_cache h = true ∧ refs h = 1) →
  ∃ c' calls, destroy_entries es c = Some c'
    ∧ capacity_ c' = capacity_ c ∧ usage_ c' = usage_ c
    ∧ lru_ c' = lru_ c ∧ in_use_ c' = in_use_ c
    ∧ table_ c' = table_ c ∧ next_handle c' = next_handle c
    ∧ deleter_calls c' = deleter_calls c ++ calls
    ∧ dc_handle <$> calls = es
    ∧ (∀ call, call ∈ calls →
         ∃ h, handles c !! dc_handle call = Some h
           ∧ call = call_of (dc_handle call) h)
    ∧ (∀ q, q ∈ es → handles c' !! q = None)
    ∧ (∀ q, q ∉ es → handles c' !! q = handles c !! q).
Proof.
  induction es as [|e es IH]; intros c Hnd Hes.
  - exists c, []. cbn. rewrite app_nil_r. split_and!; try done.
    + by intros ? ?%elem_of_nil.
    + by intros ? ?%elem_of_nil.
  - apply NoDup_cons in Hnd as [He Hnd].
    destruct (Hes e) as (h & Hh & Hic & Hr); [by left|].
    cbn [destroy_entries]. rewrite Hh. cbn [mbind option_bind].
    rewrite option_guard_True by done. cbn [mbind option_bind]. cbv zeta.
    rewrite option_guard_True by done. cbn [mbind option_bind].
    unfold Unref. cbn [handles set_handles]. rewrite lookup_insert_eq.
    cbn [mbind option_bind]. cbn [refs set_in_cache set_refs in_cache].
    rewrite option_guard_True by lia. cbn [mbind option_bind].
    rewrite Hr. change (to_uint32 (1 - 1)) with 0.
    rewrite bool_decide_eq_true_2 by done.
    rewrite option_guard_True by done. cbn [mbind option_bind].
    cbn [capacity_ usage_ lru_ in_use_ table_ next_handle deleter_calls
         deleter key key_data value set_in_cache].
    rewrite delete_insert_eq.
    match goal with
    | |- context [destroy_entries es ?st] => set (c1 := st)
    end.
    destruct (IH c1 Hnd)
      as (c' & calls & -> & Hcap & Hus & Hl & Hi & Ht & Hnx & Hcalls & Hdc
          & Hpay & Hgone & Hkeep).
    { intros e' He'. destruct (Hes e') as (h' & Hh' & ?); [by right|].
      exists h'. split; [|done]. unfold c1. cbn [handles].
      rewrite lookup_delete_ne; [done|]. by intros ->. }
    exists c', (call_of e h :: calls). split; [done|].
    split_and!; try done.
    + rewrite Hcalls. unfold c1. cbn [deleter_calls]. by rewrite <- app_assoc.
    + cbn. by rewrite Hdc.
    + intros call [->|Hc]%elem_of_cons; [by exists h|].
      destruct (Hpay call Hc) as (hc & Hhc & Heq). exists hc. split; [|done].
      unfold c1 in Hhc. cbn [handles] in Hhc.
      by apply lookup_delete_Some in Hhc as [_ ?].
    + intros q [->|Hq]%elem_of_cons; [|by apply Hgone].
      rewrite Hkeep by done. unfold c1. cbn [handles]. apply lookup_delete_eq.
    + intros q [Hne Hq]%not_elem_of_cons. rewrite Hkeep by done.
      unfold c1. cbn [handles]. by apply lookup_delete_ne.
Qed.

(** The destructor [LRUCache::~LRUCache()] on a reachable shard.  It fails
    its assertion if [in_use_] is not empty, that is, if a client holds a
    cached entry.  Otherwise it returns: the entries of [lru_] are freed,
    their deleters called, oldest first; no handle is called twice; the
    handles that are live afterwards are those that clients still hold
    (erased or displaced entries); and if clients hold nothing, every
    handle that was ever made has had its deleter called. *)
Theorem destructor_frees_cache capacity ops s :
  Reachable capacity ops s → Z.of_nat (length ops) < kMaxOperations →
  let c := shard s in
  (in_use_ c ≠ [] → LRUCache_destroy c = None)
  ∧ (in_use_ c = [] →
     ∃ c' calls, LRUCache_destroy c = Some c'
       ∧ deleter_calls c' = deleter_calls c ++ calls
       ∧ dc_handle <$> calls = lru_ c
       ∧ NoDup (dc_handle <$> deleter_calls c')
       ∧ (∀ p, is_Some (handles c' !! p) ↔ p ∈ held s)
       ∧ (∀ p, p ∈ held s → handles c' !! p = handles c !! p)
       ∧ (held s = ∅ →
            ∀ p, p ∈ dc_handle <$> deleter_calls c'
                 ↔ (p < next_handle c)%nat)).
Proof.
  intros HR Hlen c. destruct (Reachable_Inv _ _ _ HR Hlen) as [HI _].
  pose proof (inv_handles _ _ _ HI) as Hok. fold c in Hok.
  pose proof (inv_lru_nodup _ _ _ HI) as Hndl. fold c in Hndl.
  pose proof (inv_deleted_nodup _ _ _ HI) as Hdnd. fold c in Hdnd.
  unfold LRUCache_destroy. split.
  { intros Hne. by rewrite option_guard_False. }
  intros Hempty. rewrite option_guard_True by done. cbn [mbind option_bind].
  destruct (destroy_entries_spec (lru_ c) c Hndl)
    as (c' & calls & Hrun & _ & _ & _ & _ & _ & Hnx & Hcalls & Hdc & _
        & Hgone & Hkeep).
  { intros e He. specialize (Hok e). unfold handle_ok in Hok.
    destruct (handles c !! e) as [h|].
    - destruct Hok as (_ & _ & _ & _ & Hl & _). exists h.
      destruct (proj1 Hl He). done.
    - destruct Hok as (_ & _ & _ & Hl & _). done. }
  assert (∀ p h, handles c !! p = Some h → p ∉ lru_ c →
            in_cache h = false ∧ p ∈ held s) as Hout.
  { intros p h Hh Hnl. specialize (Hok p). unfold handle_ok in Hok.
    rewrite Hh in Hok. destruct Hok as (Hr & H1 & _ & _ & Hl & Hi & _).
    rewrite Hempty in Hi. destruct (in_cache h).
    - exfalso. destruct (decide (refs h = 1)) as [Hone|Hone].
      + apply Hnl, Hl. done.
      + apply (not_elem_of_nil p), Hi. split; [done|lia].
    - split; [done|]. apply elem_of_multiplicity. lia. }
  assert (∀ p, p ∈ held s → (p ∉ lru_ c) ∧ is_Some (handles c !! p)) as Hheld.
  { intros p Hp. pose proof (proj1 (elem_of_multiplicity p (held s)) Hp) as Hm.
    specialize (Hok p). unfold handle_ok in Hok.
    destruct (handles c !! p) as [h|]; [|lia].
    destruct Hok as (Hr & H1 & _ & _ & Hl & _). split; [|done].
    intros [Hic Hone]%Hl. rewrite Hic in Hr. lia. }
  exists c', calls. split; [done|]. split; [done|]. split; [done|].
  split_and!.
  - rewrite Hcalls, fmap_app, Hdc. apply NoDup_app. split; [done|].
    split; [|done]. intros p Hp Hl. specialize (Hok p). unfold handle_ok in Hok.
    destruct (handles c !! p) as [h|].
    + destruct Hok as (_ & _ & _ & _ & _ & _ & _ & Hd). done.
    + destruct Hok as (_ & _ & _ & Hnl & _). done.
  - intros p. split.
    + intros [h Hh]. destruct (decide (p ∈ lru_ c)) as [Hl|Hl].
      { by rewrite Hgone in Hh. }
      rewrite Hkeep in Hh by done. by destruct (Hout p h Hh Hl).
    + intros Hp. destruct (Hheld p Hp) as [Hl Hs]. by rewrite Hkeep.
  - intros p Hp. destruct (Hheld p Hp) as [Hl _]. by apply Hkeep.
  - intros Hnone p. rewrite Hcalls, fmap_app, Hdc, elem_of_app.
    specialize (Hok p). unfold handle_ok in Hok.
    destruct (handles c !! p) as [h|] eqn:Hh.
    + destruct Hok as (_ & _ & _ & _ & _ & _ & Hlt & Hd).
      split; [done|]. intros _. right.
      destruct (decide (p ∈ lru_ c)) as [Hl|Hl]; [done|].
      destruct (Hout p h Hh Hl) as [_ Hp]. rewrite Hnone in Hp.
      by apply gmultiset_not_elem_of_empty in Hp.
    + destruct Hok as (_ & _ & _ & Hnl & _ & Hd). rewrite Hd. tauto.
Qed.

Lemma destructor_frees_cache_witness :
  let ops := [DoInsert ["A"%byte] 1 0 2 0; DoRelease 0;
              DoInsert ["B"%byte] 2 0 3 0; DoRelease 1;
              DoInsert ["A"%byte] 1 0 4 0; DoRelease 2] in
  let s := default (start 10) (run ops (start 10)) in
  Reachable 10 ops s
  ∧ Z.of_nat (length ops) < kMaxOperations
  ∧ in_use_ (shard s) = []
  ∧ held s = ∅
  ∧ ∃ c', LRUCache_destroy (shard s) = Some c'
      ∧ dc_handle <$> deleter_calls c' = [0; 1; 2]%nat.
Proof.
  intros ops s.
  assert (Reachable 10 ops s) as HR.
  { apply run_start_Reachable. vm_compute. reflexivity. }
  assert (Z.of_nat (length ops) < kMaxOperations) as Hb by reflexivity.
  assert (in_use_ (shard s) = []) as Hi by (vm_compute; reflexivity).
  assert (held s = ∅) as Hh by (vm_compute; reflexivity).
  split; [exact HR|]. split; [exact Hb|]. split; [exact Hi|]. split; [exact Hh|].
  destruct (proj2 (destructor_frees_cache 10 ops s HR Hb) Hi)
    as (c' & calls & Hrun & _).
  exists c'. split; [exact Hrun|].
  vm_compute in Hrun. injection Hrun as <-. vm_compute. reflexivity.
Defined.

(** *** The usage *)

Lemma charge_sum_perm (heap : Heap) l l' :
  l ≡ₚ l' → charge_sum heap l = charge_sum heap l'.
Proof.
  induction 1 as [|x l l' _ IH|x y l|l1 l2 l3 _ IH1 _ IH2]; cbn [charge_sum foldr].
  - done.
  - fold (charge_sum heap l) (charge_sum heap l'). by rewrite IH.
  - lia.
  - congruence.
Qed.

Lemma charge_sum_remove (heap : Heap) l l' p :
  NoDup l → NoDup l' → p ∈ l → (∀ q, q ∈ l' ↔ q ∈ l ∧ q ≠ p) →
  charge_sum heap l = from_option charge 0 (heap !! p) + charge_sum heap l'.
Proof.
  intros Hnd Hnd' Hp Hmem.
  rewrite (charge_sum_perm heap l (p :: l')); [done|].
  apply NoDup_Permutation; [done| |].
  - apply NoDup_cons. split; [|done]. rewrite Hmem. by intros [_ ?].
  - intros q. rewrite elem_of_cons, Hmem.
    destruct (decide (q = p)) as [->|Hne].
    + split; [by left|done].
    + split; [by right|]. by intros [?|[? _]].
Qed.

Lemma charge_sum_add (heap : Heap) l l' e :
  NoDup l → NoDup l' → e ∉ l → (∀ q, q ∈ l' ↔ q = e ∨ q ∈ l) →
  charge_sum heap l' = from_option charge 0 (heap !! e) + charge_sum heap l.
Proof.
  intros Hnd Hnd' He Hmem.
  rewrite (charge_sum_perm heap l' (e :: l)); [done|].
  apply NoDup_Permutation; [done| |].
  - by apply NoDup_cons.
  - intros q. by rewrite elem_of_cons, Hmem.
Qed.

(** The usage after an entry has left the hash table and its charge the
    usage. *)
Lemma usage_ok_remove c c' p h :
  usage_ok c →
  NoDup (entries (table_ c)) → NoDup (entries (table_ c')) →
  p ∈ entries (table_ c) → handles c !! p = Some h →
  (∀ q, q ∈ entries (table_ c') ↔ q ∈ entries (table_ c) ∧ q ≠ p) →
  (∀ q, q ≠ p → handles c' !! q = handles c !! q) →
  usage_ c' = to_uint64 (usage_ c - charge h) →
  usage_ok c'.
Proof.
  unfold usage_ok. intros Hu Hnd Hnd' Hp Hh Hmem Hoth Hus.
  rewrite Hus, Hu, to_uint64_sub_l.
  rewrite (charge_sum_remove _ _ _ p Hnd Hnd' Hp Hmem), Hh. cbn.
  rewrite (charge_sum_ext (handles c) (handles c')).
  - f_equal. lia.
  - intros q [_ Hq]%Hmem. by rewrite Hoth.
Qed.

(** The usage when the hash table and the charges of its entries are as
    they were. *)
Lemma usage_ok_same c c' :
  usage_ok c → table_ c' = table_ c → usage_ c' = usage_ c →
  (∀ q, q ∈ entries (table_ c) →
     charge <$> handles c' !! q = charge <$> handles c !! q) →
  usage_ok c'.
Proof.
  unfold usage_ok. intros Hu Ht Hus Hext. rewrite Hus, Ht, Hu.
  by rewrite (charge_sum_ext (handles c) (handles c')).
Qed.

Lemma evict_oldest_usage_ok n c X old rest c' :
  Inv None n {| shard := c; held := X |} → Z.of_nat n < 2 ^ 31 →
  lru_ c = old :: rest → usage_ok c → evict_oldest old c = Some c' →
  usage_ok c' ∧ Inv None n {| shard := c'; held := X |} ∧ lru_ c' = rest.
Proof.
  intros HI Hn Hlru Hu Hev.
  destruct (evict_oldest_spec n c X old rest HI Hn Hlru)
    as (c1 & h & Hev1 & Hh & HI1 & _ & Hus & Hl & _ & _ & _ & Hmem & Hin & Hheap).
  rewrite Hev in Hev1. injection Hev1 as <-. split; [|done].
  apply (usage_ok_remove c c' old h); try done.
  - apply (tok_nodup _ _ (inv_table _ _ _ HI)).
  - apply (tok_nodup _ _ (inv_table _ _ _ HI1)).
  - intros q Hq. rewrite Hheap. by apply lookup_delete_ne.
Qed.

Lemma evict_usage_ok n X rounds :
  ∀ c c', Inv None n {| shard := c; held := X |} → Z.of_nat n < 2 ^ 31 →
  usage_ok c → evict rounds c = Some c' → usage_ok c'.
Proof.
  induction rounds as [|rounds IH]; intros c c' HI Hn Hu; cbn [evict].
  - destruct (lru_ c) as [|old rest]; [by intros [= <-]|].
    destruct (capacity_ c <? usage_ c); [done|by intros [= <-]].
  - destruct (lru_ c) as [|old rest] eqn:Hlru; [by intros [= <-]|].
    destruct (capacity_ c <? usage_ c); [|by intros [= <-]].
    destruct (evict_oldest old c) as [c1|] eqn:Hev; [|done].
    cbn [mbind option_bind].
    destruct (evict_oldest_usage_ok _ _ _ _ _ _ HI Hn Hlru Hu Hev) as (Hu1 & HI1 & _).
    by apply IH.
Qed.

Lemma prune_usage_ok n X rounds :
  ∀ c c', Inv None n {| shard := c; held := X |} → Z.of_nat n < 2 ^ 31 →
  usage_ok c → prune rounds c = Some c' → usage_ok c'.
Proof.
  induction rounds as [|rounds IH]; intros c c' HI Hn Hu; cbn [prune].
  - destruct (lru_ c) as [|old rest]; [by intros [= <-]|done].
  - destruct (lru_ c) as [|old rest] eqn:Hlru; [by intros [= <-]|].
    destruct (evict_oldest old c) as [c1|] eqn:Hev; [|done].
    cbn [mbind option_bind].
    destruct (evict_oldest_usage_ok _ _ _ _ _ _ HI Hn Hlru Hu Hev) as (Hu1 & HI1 & _).
    by apply IH.
Qed.

Lemma Erase_usage_ok n c X k hsh c' :
  Inv None n {| shard := c; held := X |} → Z.of_nat n < 2 ^ 31 →
  usage_ok c → Erase k hsh c = Some c' → usage_ok c'.
Proof.
  intros HI Hn Hu HE.
  destruct (Table_Lookup_spec (handles c) (table_ c) k hsh) as (r & HL & Hr);
    [apply HI|].
  destruct r as [p|].
  - destruct (Erase_detail n c X k hsh p HI Hn HL)
      as (c1 & h & HE1 & Hh & _ & _ & HI1 & _ & _ & Hus & _ & _ & Hmem & Hoth & _).
    rewrite HE in HE1. injection HE1 as <-.
    destruct Hr as [Hp _].
    apply (usage_ok_remove c c' p h); try done.
    + apply (tok_nodup _ _ (inv_table _ _ _ HI)).
    + apply (tok_nodup _ _ (inv_table _ _ _ HI1)).
  - rewrite (Erase_not_found _ _ _ HL) in HE. by injection HE as <-.
Qed.

Lemma Lookup_usage_ok n c X k hsh r c' :
  Inv None n {| shard := c; held := X |} → Z.of_nat n < 2 ^ 31 →
  usage_ok c → Lookup k hsh c = Some (r, c') → usage_ok c'.
Proof.
  intros HI Hn Hu HLk. unfold Lookup in HLk.
  destruct (Table_Lookup_spec (handles c) (table_ c) k hsh) as (r' & HL & Hr);
    [apply HI|].
  rewrite HL in HLk. cbn [mbind option_bind] in HLk.
  destruct r' as [p|]; [|by injection HLk as <- <-].
  destruct Hr as [Hp _].
  destruct (Ref_detail n c X p HI Hp Hn) as (h & Hh & _ & _ & Href).
  rewrite Href in HLk. cbn in HLk. injection HLk as <- <-.
  apply (usage_ok_same c); try done. cbn [handles].
  intros q _. destruct (decide (q = p)) as [->|Hne].
  - by rewrite lookup_insert_eq, Hh.
  - by rewrite lookup_insert_ne.
Qed.

Lemma Release_usage_ok n c X e c' :
  Inv None n {| shard := c; held := X |} → e ∈ X → Z.of_nat n < 2 ^ 31 →
  usage_ok c → Release e c = Some c' → usage_ok c'.
Proof.
  intros HI He Hn Hu Hrel. unfold Release in Hrel.
  destruct (Unref_detail n c X e HI He Hn) as (h & Hh & Hr & Hun).
  rewrite Hun in Hrel. injection Hrel as <-.
  pose proof (inv_handles _ _ _ HI e) as Hok. unfold handle_ok in Hok.
  cbn [shard held] in Hok. rewrite Hh in Hok.
  destruct Hok as (_ & _ & Hc & _).
  pose proof (proj1 (elem_of_multiplicity e X) He) as Hm.
  destruct (decide (refs h = 1)) as [Hone|Hone].
  - assert (e ∉ entries (table_ c)) as Hne.
    { intros Hin. assert (in_cache h = true) as Hic by (apply Hc; by left).
      rewrite Hic in Hr. lia. }
    apply (usage_ok_same c); try done. cbn [handles].
    intros q Hq. rewrite lookup_delete_ne; [done|]. by intros ->.
  - apply (usage_ok_same c); try done. cbn [handles].
    intros q _. destruct (decide (q = e)) as [->|Hne].
    + by rewrite lookup_insert_eq, Hh.
    + by rewrite lookup_insert_ne.
Qed.

(** *** [Insert], in detail *)

Lemma to_uint64_eq_shift a b x :
  a = to_uint64 b → to_uint64 (a + x) = to_uint64 (b + x).
Proof. intros ->. apply to_uint64_add_l. Qed.

(** [Insert] on a shard that keeps the invariant.  [old] is the entry that
    had the key, if the shard caches and there was one; [displaced] is its
    deleter call, if no client held it; [calls] are the deleter calls of
    the eviction loop. *)
Lemma Insert_detail n c X k hsh v ch d :
  Inv None n {| shard := c; held := X |} → Z.of_nat n < 2 ^ 31 - 1 →
  let e := next_handle c in
  let cached := 0 <? capacity_ c in
  ∃ c' (old : option ptr) displaced calls,
    Insert k hsh v ch d c = Some (e, c')
    ∧ Inv None (S n) {| shard := c'; held := {[+ e +]} ⊎ X |}
    ∧ handles c !! e = None
    ∧ handles c' !! e
      = Some {| value := v; deleter := d; charge := ch; key_data := k;
                in_cache := cached; refs := if cached then 2 else 1;
                hash := hsh |}
    ∧ (if cached then Table.Lookup (handles c) (table_ c) k hsh = Some old
       else old = None)
    ∧ (∀ q, q ∈ entries (table_ c')
          ↔ ((q = e ∧ cached = true) ∨ (q ∈ entries (table_ c) ∧ old ≠ Some q))
            ∧ q ∉ dc_handle <$> calls)
    ∧ (∀ q, q ∈ dc_handle <$> calls → q ∈ lru_ c ∧ old ≠ Some q)
    ∧ (usage_ok c → usage_ok c')
    ∧ deleter_calls c' = deleter_calls c ++ displaced ++ calls
    ∧ (∀ o, old = Some o →
         ∃ ho, handles c !! o = Some ho ∧ o ∈ entries (table_ c)
           ∧ hash ho = hsh ∧ key ho = k
           ∧ displaced = if decide (multiplicity o X = 0%nat)
                         then [call_of o ho] else [])
    ∧ (old = None → displaced = []).
Proof.
  intros HI Hn e cached. unfold e, cached. clear e cached.
  pose proof HI as HI0.
  destruct c as [cap us lru inu tbl heap nxt dcs].
  inv_open HI.
  pose proof (Hok nxt) as Hnew. unfold handle_ok in Hnew. state_simpl_all.
  destruct (heap !! nxt) as [hbad|] eqn:Hfree.
  { destruct Hnew as (_ & _ & _ & _ & _ & _ & ? & _). lia. }
  destruct Hnew as (Hm & Hne & _ & Hnl & Hni & Hnd).
  assert (nxt ∉ dc_handle <$> dcs) as Hnd' by (rewrite Hnd; lia).
  pose proof (size_acquire X nxt) as Hsz.
  pose proof (tok_nodup _ _ Htab) as Hndt.
  unfold Insert. cbv zeta. cbn [capacity_ handles next_handle usage_ lru_ in_use_
    table_ deleter_calls].
  rewrite insert_insert_eq.
  cbn [set_in_cache set_refs refs value deleter charge key_data in_cache hash].
  change (to_uint32 (1 + 1)) with 2.
  set (h0 := {| value := v; deleter := d; charge := ch; key_data := k;
               in_cache := false; refs := 1; hash := hsh |}).
  destruct (0 <? cap) eqn:Hcap.
  - (* the handle is cached *)
    state_simpl.
    set (he := set_in_cache true (set_refs 2 h0)).
    set (heap1 := <[nxt := he]> heap).
    assert (heap1 !! nxt = Some he) as Hhe by apply lookup_insert_eq.
    assert (table_ok heap1 tbl) as Htab1 by by apply table_ok_alloc.
    assert (∀ l : list ptr, nxt ∉ l → charge_sum heap1 l = charge_sum heap l)
      as Hsum1.
    { intros l Hl. apply charge_sum_ext. intros q Hq. unfold heap1.
      rewrite lookup_insert_ne; [done|]. by intros ->. }
    destruct (Table_Insert_spec heap1 tbl nxt he Htab1 Hhe Hne)
      as (old & t' & HL & HIns & Htab' & Hmem & Hlen & Hold); [lia|].
    pose proof (tok_nodup _ _ Htab') as Hndt'.
    assert (Table.Lookup heap tbl k hsh = Some old) as HL0.
    { destruct (Table_Lookup_spec heap tbl k hsh Htab) as (r & HLr & Hr).
      rewrite HLr. f_equal.
      destruct (Table_Lookup_spec heap1 tbl k hsh Htab1) as (r1 & HLr1 & Hr1).
      change (key he) with k in HL. change (hash he) with hsh in HL.
      rewrite HL in HLr1. injection HLr1 as <-.
      assert (∀ q hq, q ∈ entries tbl → heap1 !! q = Some hq ↔ heap !! q = Some hq)
        as Hsame.
      { intros q hq Hq. unfold heap1. rewrite lookup_insert_ne; [done|].
        by intros ->. }
      destruct r as [p|], old as [o|]; try done.
      - destruct Hr as (Hp & hp & Hhp & Hph & Hpk).
        destruct Hr1 as (Ho & ho & Hho & Hoh & Hok').
        f_equal. apply (tok_keys _ _ Htab p o hp ho); try done.
        + by apply Hsame.
        + congruence.
        + congruence.
      - destruct Hr as (Hp & hp & Hhp & Hph & Hpk).
        exfalso. apply (Hr1 p hp Hp); [by apply Hsame|done].
      - destruct Hr1 as (Ho & ho & Hho & Hoh & Hok').
        exfalso. apply (Hr o ho Ho); [by apply Hsame|done]. }
    rewrite HIns. cbn [mbind option_bind].
    unfold set_table, set_usage, set_in_use, set_handles.
    cbn [capacity_ handles next_handle usage_ lru_ in_use_ table_ deleter_calls].
    match goal with
    | |- context [FinishErase old ?st] => set (c1 := st)
    end.
    assert (∀ o, old = Some o →
              o ≠ nxt ∧ o ∈ entries tbl
              ∧ ∃ ho, heap !! o = Some ho ∧ hash ho = hsh ∧ key ho = k) as Hold'.
    { intros o ->. destruct Hold as (Ho & ho & Hho & Hhash & Hkey).
      assert (o ≠ nxt) as Hon by (by intros ->).
      unfold heap1 in Hho. rewrite lookup_insert_ne in Hho by done. eauto 10. }
    assert (Inv old (S n) {| shard := c1; held := {[+ nxt +]} ⊎ X |}) as HI1.
    { split; unfold c1; state_simpl; try done; try lia.
      - intros q. destruct (decide (q = nxt)) as [->|Hq].
        + unfold handle_ok. state_simpl. fold heap1. rewrite Hhe.
          unfold he. cbn [refs in_cache set_in_cache set_refs].
          rewrite multiplicity_acquire, decide_True by done.
          rewrite Hmem, elem_of_app, list_elem_of_singleton.
          split_and!; try lia; try tauto; try finish.
          intros Heq. destruct (Hold' nxt Heq) as [? _]. done.
        + specialize (Hok q). unfold handle_ok in *. state_simpl_all.
          fold heap1. unfold heap1 at 1. rewrite lookup_insert_ne by done.
          destruct (heap !! q) as [hq|] eqn:Hhq;
            rewrite multiplicity_acquire, decide_False by done;
            rewrite Hmem, ?elem_of_app, ?list_elem_of_singleton.
          * destruct (decide (old = Some q)) as [Heq|Hneq].
            -- destruct (Hold' q Heq) as (_ & Hin & _). finish.
            -- finish.
          * assert (old ≠ Some q) as Hneq.
            { intros Heq. destruct (Hold' q Heq) as (_ & Hin & _). tauto. }
            finish.
      - apply NoDup_snoc; done.
      - destruct old; lia. }
    destruct old as [o|].
    + (* a handle with the same key is displaced *)
      destruct (Hold' o eq_refl) as (Hon & Hoin & ho & Hho & Hhash & Hkey).
      destruct (FinishErase_pending (S n) c1 _ o HI1)
        as (c2 & ho' & -> & Hho' & HI2 & Hcap2 & Hus2 & Ht2 & Hnx2 & Hl2 & Hi2
            & Hsub2 & Hoth2 & Hfree2 & Hkeep2); [lia|].
      cbn [mbind option_bind].
      assert (ho' = ho) as ->.
      { unfold c1 in Hho'. cbn [handles] in Hho'. fold heap1 in Hho'.
        unfold heap1 in Hho'. rewrite lookup_insert_ne in Hho' by done.
        congruence. }
      assert (handles c2 !! nxt = Some he) as Hhe2.
      { rewrite Hoth2 by done. unfold c1. cbn [handles]. by fold heap1. }
      destruct (evict_spec (S n) _ (length (lru_ c2)) c2 HI2)
        as (c' & calls & Hev & HI' & Hexit & Hcap' & Hnx' & Hi' & Hcalls & Hl'
            & _ & Hmem' & Hkeep' & Hgone'); [lia|done|].
      rewrite Hev. cbn [mbind option_bind].
      assert (nxt ∉ dc_handle <$> calls) as Hec.
      { intros Hin. pose proof (inv_handles _ _ _ HI2 nxt) as Hok2.
        unfold handle_ok in Hok2. cbn [shard held] in Hok2.
        rewrite Hhe2 in Hok2. destruct Hok2 as (_ & _ & _ & _ & Hlru & _).
        assert (nxt ∈ lru_ c2) as Hin2 by (rewrite Hl', elem_of_app; by left).
        apply Hlru in Hin2 as [_ ?]. done. }
      assert (mdisp : ∃ displaced,
                deleter_calls c2 = dcs ++ displaced
                ∧ displaced = if decide (multiplicity o X = 0%nat)
                              then [call_of o ho] else []).
      { assert (multiplicity o ({[+ nxt +]} ⊎ X) = multiplicity o X) as Hmo
          by (rewrite multiplicity_acquire, decide_False by done; lia).
        case_decide as Hz.
        - destruct Hfree2 as [_ ->]; [by rewrite Hmo|]. eauto.
        - destruct Hkeep2 as [_ ->]; [lia|]. exists []. by rewrite app_nil_r. }
      destruct mdisp as (displaced & Hdis & Hdisp).
      exists c', (Some o), displaced, calls.
      split; [done|]. split; [done|]. split; [done|].
      split; [by rewrite Hkeep'|]. split; [done|].
      split_and!.
      * intros q. rewrite Hmem', Ht2. unfold c1. cbn [table_]. rewrite Hmem.
        tauto.
      * intros q Hq. assert (q ∈ lru_ c2) as Hq2
          by (rewrite Hl', elem_of_app; by left).
        rewrite Hl2 in Hq2. unfold c1 in Hq2. cbn [lru_] in Hq2.
        apply elem_of_filter_ne in Hq2 as [? ?]. split; [done|congruence].
      * intros Hu. apply (evict_usage_ok _ _ (length (lru_ c2)) c2 c' HI2); [lia| |done].
        unfold usage_ok in *. cbn [usage_ handles table_] in Hu.
        rewrite Hus2, Ht2. unfold c1. cbn [usage_ table_].
        rewrite to_uint64_sub_l.
        replace (us + ch - charge ho) with (us + (ch - charge ho)) by lia.
        rewrite (to_uint64_eq_shift _ _ _ Hu).
        set (m := filter (λ q, q ≠ o) (entries tbl)).
        assert (NoDup m) as Hndm by by apply NoDup_filter.
        assert (nxt ∉ m) as Hem by (unfold m; rewrite elem_of_filter_ne; tauto).
        rewrite (charge_sum_ext heap1 (handles c2)).
        2:{ intros q Hq. rewrite Hoth2; [done|]. intros ->.
            apply Hmem in Hq as [?|[_ ?]]; done. }
        rewrite (charge_sum_add heap1 m (entries t') nxt Hndm Hndt' Hem).
        2:{ intros q. rewrite Hmem. unfold m. rewrite elem_of_filter_ne.
            split.
            - intros [?|[? ?]]; [by left|right; split; [congruence|done]].
            - intros [?|[? ?]]; [by left|right; split; [done|congruence]]. }
        rewrite Hhe, Hsum1 by done. cbn [from_option charge he set_in_cache
          set_refs h0].
        rewrite (charge_sum_remove heap (entries tbl) m o Hndt Hndm Hoin).
        2:{ intros q. unfold m. rewrite elem_of_filter_ne. tauto. }
        rewrite Hho. cbn [from_option]. f_equal. lia.
      * by rewrite Hcalls, Hdis, <- app_assoc.
      * intros o' [= <-]. exists ho. by split_and!.
      * done.
    + (* no handle had this key *)
      cbn [FinishErase mbind option_bind].
      destruct (evict_spec (S n) _ (length (lru_ c1)) c1 HI1)
        as (c' & calls & Hev & HI' & Hexit & Hcap' & Hnx' & Hi' & Hcalls & Hl'
            & _ & Hmem' & Hkeep' & Hgone'); [lia|done|].
      rewrite Hev. cbn [mbind option_bind].
      assert (handles c1 !! nxt = Some he) as Hhe1 by done.
      assert (nxt ∉ dc_handle <$> calls) as Hec.
      { intros Hin. pose proof (inv_handles _ _ _ HI1 nxt) as Hok1.
        unfold handle_ok in Hok1. cbn [shard held] in Hok1.
        rewrite Hhe1 in Hok1. destruct Hok1 as (_ & _ & _ & _ & Hlru & _).
        assert (nxt ∈ lru_ c1) as Hin1 by (rewrite Hl', elem_of_app; by left).
        apply Hlru in Hin1 as [_ ?]. done. }
      exists c', None, [], calls.
      split; [done|]. split; [done|]. split; [done|].
      split; [by rewrite Hkeep'|]. split; [done|].
      split_and!.
      * intros q. rewrite Hmem'. unfold c1. cbn [table_]. rewrite Hmem.
        tauto.
      * intros q Hq. assert (q ∈ lru_ c1) as Hq1
          by (rewrite Hl', elem_of_app; by left).
        done.
      * intros Hu. apply (evict_usage_ok _ _ (length (lru_ c1)) c1 c' HI1); [lia| |done].
        unfold usage_ok in *. cbn [usage_ handles table_] in Hu.
        unfold c1. cbn [usage_ table_ handles]. fold heap1.
        rewrite (to_uint64_eq_shift _ _ _ Hu).
        rewrite (charge_sum_add heap1 (entries tbl) (entries t') nxt Hndt Hndt' Hne).
        2:{ intros q. rewrite Hmem. split.
            - intros [?|[? _]]; [by left|by right].
            - intros [?|?]; [by left|right; by split]. }
        rewrite Hhe, Hsum1 by done. cbn [from_option charge he set_in_cache
          set_refs h0]. f_equal. lia.
      * done.
      * by intros o [=].
      * done.
  - (* capacity 0: the handle is not cached *)
    cbn [mbind option_bind].
    match goal with
    | |- context [evict _ ?st] => set (c1 := st)
    end.
    assert (Inv None (S n) {| shard := c1; held := {[+ nxt +]} ⊎ X |}) as HI1.
    { split; unfold c1; state_simpl; try done; try lia.
      - by apply table_ok_alloc.
      - intros q. destruct (decide (q = nxt)) as [->|Hq].
        + unfold handle_ok. state_simpl. rewrite lookup_insert_eq.
          unfold h0. cbn [refs in_cache].
          rewrite multiplicity_acquire, decide_True by done.
          split_and!; try lia; try tauto; try done; try finish.
        + untouched Hok q. }
    destruct (evict_spec (S n) _ (length (lru_ c1)) c1 HI1)
      as (c' & calls & Hev & HI' & Hexit & Hcap' & Hnx' & Hi' & Hcalls & Hl'
          & _ & Hmem' & Hkeep' & Hgone'); [lia|done|].
    rewrite Hev. cbn [mbind option_bind].
    assert (handles c1 !! nxt = Some h0) as Hh1 by apply lookup_insert_eq.
    assert (nxt ∉ dc_handle <$> calls) as Hec.
    { intros Hin. pose proof (inv_handles _ _ _ HI1 nxt) as Hok1.
      unfold handle_ok in Hok1. cbn [shard held] in Hok1.
      rewrite Hh1 in Hok1. destruct Hok1 as (_ & _ & _ & _ & Hlru & _).
      assert (nxt ∈ lru_ c1) as Hin1 by (rewrite Hl', elem_of_app; by left).
      apply Hlru in Hin1 as [? _]. done. }
    exists c', None, [], calls.
    split; [done|]. split; [done|]. split; [done|].
    split; [by rewrite Hkeep'|]. split; [done|].
    split_and!.
    + intros q. rewrite Hmem'. unfold c1. cbn [table_]. split.
      * intros [Hq Hnc]. split; [|done]. right. by split.
      * intros [[[_ ?]|[? _]] Hnc]; [done|by split].
    + intros q Hq. assert (q ∈ lru_ c1) as Hq1
        by (rewrite Hl', elem_of_app; by left).
      done.
    + intros Hu. apply (evict_usage_ok _ _ (length (lru_ c1)) c1 c' HI1); [lia| |done].
      unfold usage_ok in *. cbn [usage_ handles table_] in Hu.
      unfold c1. cbn [usage_ table_ handles]. rewrite Hu. f_equal.
      apply charge_sum_ext. intros q Hq.
      rewrite lookup_insert_ne; [done|]. by intros ->.
    + done.
    + by intros o [=].
    + done.
Qed.

(** *** Properties of reachable shards *)

(** What a handle carries never changes.  In a reachable shard the handles
    are numbered in the order of the [Insert] calls; a live handle has the
    key, hash, value, charge and deleter that its [Insert] was given; and
    every deleter call that has been made was made for a handle with the
    key, the value and the deleter that its [Insert] was given.  The
    capacity is the one the shard was given. *)
Theorem handle_carries_its_insert capacity ops s :
  Reachable capacity ops s →
  next_handle (shard s) = length (filter is_insert ops)
  ∧ capacity_ (shard s) = capacity
  ∧ (∀ p h, handles (shard s) !! p = Some h →
       filter is_insert ops !! p
       = Some (DoInsert (key h) (hash h) (value h) (charge h) (deleter h)))
  ∧ (∀ call, call ∈ deleter_calls (shard s) →
       ∃ hsh ch,
         filter is_insert ops !! dc_handle call
         = Some (DoInsert (dc_key call) hsh (dc_value call) ch (dc_deleter call))).
Proof.
  intros HR. destruct (Reachable_payload _ _ _ HR) as (Hn & Hk & Hh & Hc).
  split; [done|]. split; [done|]. split; [exact Hh|].
  intros call Hin. destruct (Hc call Hin) as (h & Hl & Heq).
  exists (hash h), (charge h). rewrite Hl, Heq. done.
Qed.

Lemma handle_carries_its_insert_witness :
  let ops := [DoInsert ["A"%byte] 1 7 2 5; DoRelease 0;
              DoInsert ["A"%byte] 1 8 2 6; DoLookup ["A"%byte] 1] in
  let s := default (start 10) (run ops (start 10)) in
  Reachable 10 ops s
  ∧ (value <$> handles (shard s) !! 1%nat) = Some 8
  ∧ deleter_calls (shard s)
    = [{| dc_handle := 0; dc_deleter := 5; dc_key := ["A"%byte];
          dc_value := 7 |}]
  ∧ next_handle (shard s) = length (filter is_insert ops).
Proof.
  intros ops s.
  assert (Reachable 10 ops s) as HR.
  { apply run_start_Reachable. vm_compute. reflexivity. }
  split; [exact HR|]. split; [vm_compute; reflexivity|].
  split; [vm_compute; reflexivity|].
  exact (proj1 (handle_carries_its_insert 10 ops s HR)).
Defined.

Lemma Reachable_usage capacity ops s :
  Reachable capacity ops s → Z.of_nat (length ops) < kMaxOperations →
  usage_ok (shard s).
Proof.
  unfold kMaxOperations.
  induction 1 as [|ops s op s' HR IH Hal Hstep]; intros Hlen.
  - reflexivity.
  - rewrite length_app in Hlen. cbn [length] in Hlen.
    destruct (Reachable_Inv _ _ _ HR) as [HI _];
      [unfold kMaxOperations; lia|].
    specialize (IH ltac:(lia)).
    destruct s as [c X]. cbn [shard held] in *.
    destruct op as [k hsh v ch d|k hsh|e|k hsh|]; cbn [step shard held allowed] in *.
    + destruct (Insert_detail _ c X k hsh v ch d HI)
        as (c' & old & displaced & calls & HIns & _ & _ & _ & _ & _ & _ & Hu & _);
        [lia|].
      rewrite HIns in Hstep. cbn in Hstep. injection Hstep as <-. by apply Hu.
    + destruct (Lookup k hsh c) as [[r c']|] eqn:HL; [|done].
      cbn in Hstep. injection Hstep as <-. cbn [shard].
      eapply Lookup_usage_ok; [exact HI|lia|done|exact HL].
    + destruct (Release e c) as [c'|] eqn:Hrel; [|done].
      cbn in Hstep. injection Hstep as <-. cbn [shard].
      eapply Release_usage_ok; [exact HI|exact Hal|lia|done|exact Hrel].
    + destruct (Erase k hsh c) as [c'|] eqn:HE; [|done].
      cbn in Hstep. injection Hstep as <-. cbn [shard].
      eapply Erase_usage_ok; [exact HI|lia|done|exact HE].
    + destruct (Prune c) as [c'|] eqn:HP; [|done].
      cbn in Hstep. injection Hstep as <-. cbn [shard].
      eapply prune_usage_ok; [exact HI|lia|done|exact HP].
Qed.

(** The cached entries are the handles of the two lists. *)
Lemma entries_lists n c X :
  Inv None n {| shard := c; held := X |} →
  entries (table_ c) ≡ₚ lru_ c ++ in_use_ c.
Proof.
  intros HI. pose proof (inv_handles _ _ _ HI) as Hok. cbn [shard held] in Hok.
  apply NoDup_Permutation.
  - apply (tok_nodup _ _ (inv_table _ _ _ HI)).
  - apply NoDup_app. split; [apply HI|]. split; [|apply HI].
    intros p Hl Hi. specialize (Hok p). unfold handle_ok in Hok.
    destruct (handles c !! p) as [h|].
    + destruct Hok as (_ & _ & _ & _ & Hlru & Hinu & _).
      apply Hlru in Hl as [_ ?]. apply Hinu in Hi as [_ ?]. lia.
    + destruct Hok as (_ & _ & _ & ? & _). done.
  - intros p. rewrite elem_of_app. specialize (Hok p). unfold handle_ok in Hok.
    destruct (handles c !! p) as [h|].
    + destruct Hok as (_ & H1 & Hc & _ & Hlru & Hinu & _).
      rewrite Hlru, Hinu. split.
      * intros Hp. assert (in_cache h = true) as Hic by (apply Hc; by left).
        destruct (decide (refs h = 1)); [left|right]; split; try done; lia.
      * intros [[Hic _]|[Hic _]]; by destruct (proj1 Hc Hic).
    + destruct Hok as (_ & He & _ & Hl & Hi & _). tauto.
Qed.

(** The usage is the total charge of the cached entries.  In a reachable
    shard [usage_], which [TotalCharge] returns, is the sum of the charges
    of the entries of the hash table, as a [size_t]; these entries are,
    each once, the handles of [lru_] and [in_use_]. *)
Theorem usage_is_total_charge capacity ops s :
  Reachable capacity ops s → Z.of_nat (length ops) < kMaxOperations →
  let c := shard s in
  TotalCharge c = to_uint64 (charge_sum (handles c) (entries (table_ c)))
  ∧ TotalCharge c = to_uint64 (charge_sum (handles c) (lru_ c ++ in_use_ c))
  ∧ entries (table_ c) ≡ₚ lru_ c ++ in_use_ c
  ∧ 0 <= TotalCharge c < 2 ^ 64.
Proof.
  intros HR Hlen c. destruct (Reachable_Inv _ _ _ HR Hlen) as [HI _].
  pose proof (Reachable_usage _ _ _ HR Hlen) as Hu. fold c in Hu.
  assert (Inv None (length ops) {| shard := c; held := held s |}) as HI'
    by by destruct s.
  pose proof (entries_lists _ _ _ HI') as Hperm.
  unfold TotalCharge. split; [exact Hu|]. split; [|split; [done|]].
  - rewrite Hu. f_equal. by apply charge_sum_perm.
  - rewrite Hu. unfold to_uint64. apply Z.mod_pos_bound. lia.
Qed.

Lemma usage_is_total_charge_witness :
  let ops := [DoInsert ["A"%byte] 1 0 2 0;
              DoInsert ["B"%byte] 2 0 3 0; DoRelease 1;
              DoInsert ["C"%byte] 3 0 4 0; DoErase ["A"%byte] 1] in
  let s := default (start 10) (run ops (start 10)) in
  Reachable 10 ops s
  ∧ Z.of_nat (length ops) < kMaxOperations
  ∧ TotalCharge (shard s) = 7
  ∧ TotalCharge (shard s)
    = to_uint64 (charge_sum (handles (shard s)) (entries (table_ (shard s)))).
Proof.
  intros ops s.
  assert (Reachable 10 ops s) as HR.
  { apply run_start_Reachable. vm_compute. reflexivity. }
  assert (Z.of_nat (length ops) < kMaxOperations) as Hb by reflexivity.
  split; [exact HR|]. split; [exact Hb|]. split; [vm_compute; reflexivity|].
  exact (proj1 (usage_is_total_charge 10 ops s HR Hb)).
Defined.

(** [Insert] and then [Lookup], on a reachable shard that caches (its
    capacity is positive).  [Insert] returns a new handle with the key,
    hash, value, charge and deleter it was given, in the cache with two
    references; a [Lookup] of the key then returns this handle, with a
    third reference.  An entry that had the key before is out of the hash
    table: if no client held it, its deleter has been called and it is
    freed; otherwise it stays live, out of the cache. *)
Theorem Insert_then_Lookup capacity ops s k hsh v ch d :
  Reachable capacity ops s → Z.of_nat (length ops) + 1 < kMaxOperations →
  0 < capacity →
  let c := shard s in
  let e := next_handle c in
  let he := {| value := v; deleter := d; charge := ch; key_data := k;
               in_cache := true; refs := 2; hash := hsh |} in
  ∃ c' c'',
    Insert k hsh v ch d c = Some (e, c')
    ∧ handles c !! e = None
    ∧ handles c' !! e = Some he
    ∧ e ∈ entries (table_ c') ∧ e ∈ in_use_ c'
    ∧ Lookup k hsh c' = Some (Some e, c'')
    ∧ handles c'' !! e = Some (set_refs 3 he)
    ∧ (∀ o ho, o ∈ entries (table_ c) → handles c !! o = Some ho →
         hash ho = hsh → key ho = k →
         (o ∉ entries (table_ c'))
         ∧ (o ∉ held s →
              handles c' !! o = None
              ∧ {| dc_handle := o; dc_deleter := deleter ho;
                   dc_key := key ho; dc_value := value ho |}
                ∈ deleter_calls c')
         ∧ (o ∈ held s →
              ∃ ho', handles c' !! o = Some ho' ∧ in_cache ho' = false)).
Proof.
  intros HR Hlen Hcap c e he.
  destruct (Reachable_Inv _ _ _ HR) as [HI _]; [lia|].
  destruct (Reachable_payload _ _ _ HR) as (_ & Hk & _).
  assert (Inv None (length ops) {| shard := c; held := held s |}) as HI'
    by by destruct s.
  unfold kMaxOperations in Hlen.
  destruct (Insert_detail _ c (held s) k hsh v ch d HI')
    as (c' & old & displaced & calls & HIns & HI1 & Hfresh & Hhe & Hold & Hmem
        & Hcalls & _ & Hdc & Hdisp & _); [lia|].
  fold c in Hk. rewrite Hk, (proj2 (Z.ltb_lt 0 capacity)) in * by done.
  fold e in HIns, Hfresh, Hhe, Hmem, HI1.
  pose proof (inv_handles _ _ _ HI) as Hok. fold c in Hok.
  assert ((e ∉ lru_ c) ∧ (e ∉ entries (table_ c))) as [Hel Hee].
  { specialize (Hok e). unfold handle_ok in Hok. rewrite Hfresh in Hok.
    destruct Hok as (_ & ? & _ & ? & _). done. }
  assert (e ∉ dc_handle <$> calls) as Hec.
  { intros Hin. by destruct (Hcalls e Hin). }
  assert (e ∈ entries (table_ c')) as Hin.
  { apply Hmem. split; [by left|done]. }
  pose proof (Table_Lookup_entry _ _ _ _ (inv_table _ _ _ HI1) Hin Hhe) as HL.
  cbn [shard key key_data hash] in HL.
  destruct (Ref_detail _ c' _ e HI1 Hin) as (h' & Hh' & _ & _ & Href).
  { rewrite Nat2Z.inj_succ. lia. }
  rewrite Hhe in Hh'. injection Hh' as <-.
  eexists c', _. split; [done|]. split; [done|]. split; [done|].
  split; [done|]. split_and!.
  - pose proof (inv_handles _ _ _ HI1 e) as Hoke. unfold handle_ok in Hoke.
    cbn [shard held] in Hoke. rewrite Hhe in Hoke.
    destruct Hoke as (_ & _ & _ & _ & _ & Hinu & _). apply Hinu. by split.
  - unfold Lookup. rewrite HL. cbn [mbind option_bind]. rewrite Href. done.
  - cbn [handles]. by rewrite lookup_insert_eq.
  - intros o ho Ho Hho Hhash Hkey.
    pose proof (Table_Lookup_entry _ _ _ _ (inv_table _ _ _ HI) Ho Hho) as HLo.
    fold c in HLo. rewrite Hhash, Hkey, Hold in HLo. injection HLo as ->.
    destruct (Hdisp o eq_refl) as (ho2 & Hho2 & _ & _ & _ & Hdis).
    rewrite Hho in Hho2. injection Hho2 as <-.
    assert (o ≠ e) as Hoe by (by intros ->).
    assert (o ∉ entries (table_ c')) as Hout.
    { rewrite Hmem. intros [[[? _]|[_ ?]] _]; done. }
    pose proof (inv_handles _ _ _ HI1 o) as Hoko. unfold handle_ok in Hoko.
    cbn [shard held] in Hoko.
    rewrite multiplicity_acquire, decide_False in Hoko by done.
    split; [done|]. split.
    + intros Hnh. apply not_elem_of_multiplicity in Hnh.
      rewrite decide_True in Hdis by done. split.
      * destruct (handles c' !! o) as [ho'|]; [|done].
        destruct Hoko as (Hr & H1 & Hc & _).
        destruct (in_cache ho'); [|lia].
        by destruct (proj1 Hc eq_refl).
      * rewrite Hdc, Hdis, !elem_of_app. right. left.
        by apply list_elem_of_singleton.
    + intros Hh. pose proof (proj1 (elem_of_multiplicity _ _) Hh) as Hm.
      destruct (handles c' !! o) as [ho'|]; [|lia].
      exists ho'. split; [done|].
      destruct Hoko as (_ & _ & Hc & _).
      destruct (in_cache ho'); [|done]. by destruct (proj1 Hc eq_refl).
Qed.

Lemma Insert_then_Lookup_witness :
  let ops := [DoInsert ["A"%byte] 1 7 2 0; DoRelease 0] in
  let s := default (start 10) (run ops (start 10)) in
  Reachable 10 ops s
  ∧ Z.of_nat (length ops) + 1 < kMaxOperations
  ∧ 0 < 10
  ∧ ∃ c' c'',
      Insert ["A"%byte] 1 8 3 0 (shard s) = Some (1%nat, c')
      ∧ Lookup ["A"%byte] 1 c' = Some (Some 1%nat, c'')
      ∧ dc_handle <$> deleter_calls c' = [0%nat].
Proof.
  intros ops s.
  assert (Reachable 10 ops s) as HR.
  { apply run_start_Reachable. vm_compute. reflexivity. }
  assert (Z.of_nat (length ops) + 1 < kMaxOperations) as Hb by reflexivity.
  assert (0 < 10) as Hc by reflexivity.
  split; [exact HR|]. split; [exact Hb|]. split; [exact Hc|].
  destruct (Insert_then_Lookup 10 ops s ["A"%byte] 1 8 3 0 HR Hb Hc)
    as (c' & c'' & HIns & _ & _ & _ & _ & HL & _).
  exists c', c''. split; [exact HIns|]. split; [exact HL|].
  vm_compute in HIns. injection HIns as <-. vm_compute. reflexivity.
Defined.

(** With capacity 0 nothing enters the hash table. *)
Lemma Reachable_uncached capacity ops s :
  Reachable capacity ops s → capacity <= 0 →
  Z.of_nat (length ops) < kMaxOperations →
  entries (table_ (shard s)) = [].
Proof.
  unfold kMaxOperations.
  induction 1 as [|ops s op s' HR IH Hal Hstep]; intros Hcap Hlen.
  - reflexivity.
  - rewrite length_app in Hlen. cbn [length] in Hlen.
    destruct (Reachable_Inv _ _ _ HR) as [HI _];
      [unfold kMaxOperations; lia|].
    destruct (Reachable_payload _ _ _ HR) as (_ & Hk & _).
    specialize (IH Hcap ltac:(lia)).
    destruct s as [c X]. cbn [shard held] in *.
    destruct op as [k hsh v ch d|k hsh|e|k hsh|]; cbn [step shard held allowed] in *.
    + destruct (Insert_detail _ c X k hsh v ch d HI)
        as (c' & old & displaced & calls & HIns & _ & _ & _ & _ & Hmem & _);
        [lia|].
      rewrite HIns in Hstep. cbn in Hstep. injection Hstep as <-. cbn [shard].
      rewrite Hk, (proj2 (Z.ltb_ge 0 capacity)) in Hmem by done.
      apply elem_of_nil_inv. intros q Hq.
      apply Hmem in Hq as [[[_ ?]|[Hq _]] _]; [done|].
      rewrite IH in Hq. by apply elem_of_nil in Hq.
    + destruct (Lookup k hsh c) as [[r c']|] eqn:HL; [|done].
      cbn in Hstep. injection Hstep as <-. cbn [shard].
      destruct (Lookup_frame _ _ _ _ _ HL) as (_ & -> & _). done.
    + destruct (Release e c) as [c'|] eqn:Hrel; [|done].
      cbn in Hstep. injection Hstep as <-. cbn [shard].
      destruct (Unref_frame _ _ _ Hrel) as (_ & -> & _). done.
    + destruct (Erase_Inv _ c X k hsh HI) as (c' & HE & _ & Hsame & _); [lia|].
      rewrite HE in Hstep. cbn in Hstep. injection Hstep as <-. cbn [shard].
      rewrite Hsame; [done|].
      destruct (Table_Lookup_spec (handles c) (table_ c) k hsh) as (r & -> & Hr);
        [apply HI|].
      destruct r as [p|]; [|done]. destruct Hr as [Hp _].
      rewrite IH in Hp. by apply elem_of_nil in Hp.
    + destruct (prune_detail _ X (length (lru_ c)) c HI)
        as (c' & calls & HP & _ & _ & _ & _ & _ & _ & _ & _ & _ & Hmem & _);
        [lia|done|].
      unfold Prune in Hstep. rewrite HP in Hstep. cbn in Hstep.
      injection Hstep as <-. cbn [shard].
      apply elem_of_nil_inv. intros q Hq. apply Hmem in Hq as [Hq _].
      rewrite IH in Hq. by apply elem_of_nil in Hq.
Qed.

(** Capacity 0 turns caching off.  In a reachable shard of capacity 0 the
    hash table and the two lists are empty and the usage is 0; every
    [Lookup] misses and changes nothing; the live handles are those that
    clients hold, each with one reference for each time it is held, so
    that its last [Release] calls its deleter. *)
Theorem capacity_zero_never_caches capacity ops s :
  Reachable capacity ops s → Z.of_nat (length ops) < kMaxOperations →
  capacity <= 0 →
  let c := shard s in
  entries (table_ c) = [] ∧ lru_ c = [] ∧ in_use_ c = [] ∧ TotalCharge c = 0
  ∧ (∀ k hsh, Lookup k hsh c = Some (None, c))
  ∧ (∀ p h, handles c !! p = Some h →
       in_cache h = false ∧ refs h = Z.of_nat (multiplicity p (held s))
       ∧ p ∈ held s).
Proof.
  intros HR Hlen Hcap c. destruct (Reachable_Inv _ _ _ HR Hlen) as [HI _].
  pose proof (Reachable_uncached _ _ _ HR Hcap Hlen) as He. fold c in He.
  pose proof (Reachable_usage _ _ _ HR Hlen) as Hu. fold c in Hu.
  assert (Inv None (length ops) {| shard := c; held := held s |}) as HI'
    by by destruct s.
  pose proof (entries_lists _ _ _ HI') as Hperm. rewrite He in Hperm.
  symmetry in Hperm. apply Permutation_nil_r in Hperm.
  apply app_eq_nil in Hperm as [Hl Hi].
  split; [done|]. split; [done|]. split; [done|]. split_and!.
  - unfold TotalCharge. by rewrite Hu, He.
  - intros k hsh. unfold Lookup.
    destruct (Table_Lookup_spec (handles c) (table_ c) k hsh) as (r & -> & Hr);
      [apply HI|].
    destruct r as [p|]; [|done]. destruct Hr as [Hp _].
    rewrite He in Hp. by apply elem_of_nil in Hp.
  - intros p h Hh. pose proof (inv_handles _ _ _ HI p) as Hok.
    unfold handle_ok in Hok. fold c in Hok. rewrite Hh in Hok.
    destruct Hok as (Hr & H1 & Hc & _).
    assert (in_cache h = false) as Hic.
    { destruct (in_cache h); [|done].
      destruct (proj1 Hc eq_refl) as [Hp|?]; [|done].
      rewrite He in Hp. by apply elem_of_nil in Hp. }
    rewrite Hic in Hr. split; [done|]. split; [lia|].
    apply elem_of_multiplicity. lia.
Qed.

Lemma capacity_zero_never_caches_witness :
  let ops := [DoInsert ["A"%byte] 1 7 2 0; DoLookup ["A"%byte] 1;
              DoRelease 0] in
  let s := default (start 0) (run ops (start 0)) in
  Reachable 0 ops s
  ∧ Z.of_nat (length ops) < kMaxOperations
  ∧ 0 <= 0
  ∧ dc_handle <$> deleter_calls (shard s) = [0%nat]
  ∧ entries (table_ (shard s)) = [] ∧ TotalCharge (shard s) = 0.
Proof.
  intros ops s.
  assert (Reachable 0 ops s) as HR.
  { apply run_start_Reachable. vm_compute. reflexivity. }
  assert (Z.of_nat (length ops) < kMaxOperations) as Hb by reflexivity.
  assert (0 <= 0) as Hc by discriminate.
  split; [exact HR|]. split; [exact Hb|]. split; [exact Hc|].
  split; [vm_compute; reflexivity|].
  destruct (capacity_zero_never_caches 0 ops s HR Hb Hc) as (He & _ & _ & Hu & _).
  split; [exact He|exact Hu].
Defined.

(** A hit makes an entry the most recently used.  In a reachable shard, for
    an entry [p] of [lru_] (no client holds it): [Lookup] of its key returns
    [p] and moves it to [in_use_]; the [Release] of that handle puts it at
    the newest end of [lru_], and the shard is otherwise exactly as before
    the [Lookup]. *)
Theorem Lookup_Release_refreshes capacity ops s p h :
  Reachable capacity ops s → Z.of_nat (length ops) + 1 < kMaxOperations →
  p ∈ lru_ (shard s) → handles (shard s) !! p = Some h →
  let c := shard s in
  ∃ c1, Lookup (key h) (hash h) c = Some (Some p, c1)
    ∧ p ∈ in_use_ c1 ∧ (p ∉ lru_ c1)
    ∧ Release p c1 = Some
        {| capacity_ := capacity_ c; usage_ := usage_ c;
           lru_ := filter (λ q, q ≠ p) (lru_ c) ++ [p];
           in_use_ := in_use_ c; table_ := table_ c; handles := handles c;
           next_handle := next_handle c; deleter_calls := deleter_calls c |}.
Proof.
  intros HR Hlen Hp Hh c.
  destruct (Reachable_Inv _ _ _ HR) as [HI _]; [lia|].
  assert (Inv None (length ops) {| shard := c; held := held s |}) as HI'
    by by destruct s.
  unfold kMaxOperations in Hlen.
  pose proof (inv_handles _ _ _ HI p) as Hok. unfold handle_ok in Hok.
  fold c in Hok, Hh, Hp. rewrite Hh in Hok.
  destruct Hok as (Hr & _ & Hc & _ & Hl & Hi & _).
  destruct (proj1 Hl Hp) as [Hic Hone].
  assert (p ∈ entries (table_ c)) as Hin by (by destruct (proj1 Hc Hic)).
  assert (p ∉ in_use_ c) as Hni by (rewrite Hi; lia).
  pose proof (Table_Lookup_entry _ _ _ _ (inv_table _ _ _ HI) Hin Hh) as HL.
  destruct (Lookup_Inv _ c (held s) (key h) (hash h) HI')
    as (r & c1 & HLk & HL' & HI1 & _); [lia|].
  fold c in HL. rewrite HL in HL'. injection HL' as <-.
  destruct (Ref_detail _ c (held s) p HI' Hin) as (h' & Hh' & _ & _ & Href);
    [lia|].
  rewrite Hh in Hh'. injection Hh' as <-.
  unfold Lookup in HLk. rewrite HL in HLk. cbn [mbind option_bind] in HLk.
  rewrite Href in HLk. cbn [mbind option_bind] in HLk.
  rewrite decide_True in HLk by done. injection HLk as <-.
  eexists. split.
  { unfold Lookup. rewrite HL. cbn [mbind option_bind]. rewrite Href.
    cbn [mbind option_bind]. by rewrite decide_True. }
  cbn [in_use_ lru_]. split; [rewrite elem_of_app; right; by left|].
  split; [rewrite elem_of_filter_ne; by intros [? _]|].
  match type of HI1 with
  | Inv _ _ {| shard := ?st; held := _ |} => set (c1 := st) in *
  end.
  destruct (Unref_detail _ c1 _ p HI1) as (h1 & Hh1 & _ & Hun).
  { apply elem_of_multiplicity. rewrite multiplicity_acquire, decide_True by done.
    lia. }
  { rewrite Nat2Z.inj_succ. lia. }
  unfold c1 in Hh1. cbn [handles] in Hh1. rewrite lookup_insert_eq in Hh1.
  injection Hh1 as <-.
  unfold Release. rewrite Hun. cbn [refs set_refs in_cache].
  rewrite Hone, Hic. change (1 + 1) with 2.
  rewrite decide_False by lia. rewrite !decide_True by done.
  unfold c1. cbn [capacity_ usage_ lru_ in_use_ table_ handles next_handle
    deleter_calls].
  f_equal. f_equal.
  - rewrite filter_app, filter_ne_not_in by done.
    rewrite filter_cons_False by (by intros ?). by rewrite filter_nil, app_nil_r.
  - rewrite insert_insert_eq.
    replace (set_refs (2 - 1) (set_refs 2 h)) with h.
    + by apply insert_id.
    + apply handle_eq; [done|done|]. cbn [refs set_refs]. lia.
Qed.

Lemma Lookup_Release_refreshes_witness :
  let ops := [DoInsert ["A"%byte] 1 0 2 0; DoRelease 0;
              DoInsert ["B"%byte] 2 0 3 0; DoRelease 1] in
  let s := default (start 10) (run ops (start 10)) in
  let h := {| value := 0; deleter := 0; charge := 2; key_data := ["A"%byte];
              in_cache := true; refs := 1; hash := 1 |} in
  Reachable 10 ops s
  ∧ Z.of_nat (length ops) + 1 < kMaxOperations
  ∧ 0%nat ∈ lru_ (shard s)
  ∧ handles (shard s) !! 0%nat = Some h
  ∧ lru_ (shard s) = [0; 1]%nat
  ∧ ∃ c1 c2, Lookup ["A"%byte] 1 (shard s) = Some (Some 0%nat, c1)
      ∧ Release 0 c1 = Some c2 ∧ lru_ c2 = [1; 0]%nat.
Proof.
  intros ops s h.
  assert (Reachable 10 ops s) as HR.
  { apply run_start_Reachable. vm_compute. reflexivity. }
  assert (Z.of_nat (length ops) + 1 < kMaxOperations) as Hb by reflexivity.
  assert (0%nat ∈ lru_ (shard s)) as Hp by (vm_compute; apply list_elem_of_here).
  assert (handles (shard s) !! 0%nat = Some h) as Hh by (vm_compute; reflexivity).
  split; [exact HR|]. split; [exact Hb|]. split; [exact Hp|]. split; [exact Hh|].
  split; [vm_compute; reflexivity|].
  destruct (Lookup_Release_refreshes 10 ops s 0%nat h HR Hb Hp Hh)
    as (c1 & HL & _ & _ & Hrel).
  eexists c1, _. split; [exact HL|]. split; [exact Hrel|].
  vm_compute. reflexivity.
Defined.

(** [Insert], [Lookup] of the key and [Release] of the handle, one after
    the other, on a shard that caches and keeps the invariant. *)
Lemma Insert_Lookup_Release_detail n c X k hsh v ch d :
  Inv None n {| shard := c; held := X |} → Z.of_nat n + 2 < 2 ^ 31 →
  0 < capacity_ c →
  let e := next_handle c in
  let he := {| value := v; deleter := d; charge := ch; key_data := k;
               in_cache := true; refs := 2; hash := hsh |} in
  ∃ c1 c2 c3,
    Insert k hsh v ch d c = Some (e, c1)
    ∧ handles c1 !! e = Some he
    ∧ Lookup k hsh c1 = Some (Some e, c2)
    ∧ handles c2 !! e = Some (set_refs 3 he)
    ∧ Release e c2 = Some c3
    ∧ handles c3 !! e = Some he.
Proof.
  intros HI Hn Hcap e he.
  destruct (Insert_detail _ c X k hsh v ch d HI)
    as (c1 & old & displaced & calls & HIns & HI1 & Hfresh & Hhe & _ & Hmem
        & Hcalls & _); [lia|].
  rewrite (proj2 (Z.ltb_lt 0 (capacity_ c))) in * by done.
  fold e in HIns, Hfresh, Hhe, Hmem, HI1.
  pose proof (inv_handles _ _ _ HI e) as Hok. unfold handle_ok in Hok.
  cbn [shard held] in Hok. rewrite Hfresh in Hok.
  destruct Hok as (_ & _ & _ & Hel & _).
  assert (e ∈ entries (table_ c1)) as Hin.
  { apply Hmem. split; [by left|]. intros Hc. by destruct (Hcalls e Hc). }
  pose proof (Table_Lookup_entry _ _ _ _ (inv_table _ _ _ HI1) Hin Hhe) as HL.
  cbn [shard key key_data hash] in HL.
  destruct (Lookup_Inv _ c1 _ k hsh HI1) as (r & c2 & HLk & HL' & HI2 & _).
  { rewrite Nat2Z.inj_succ. lia. }
  rewrite HL in HL'. injection HL' as <-.
  destruct (Ref_detail _ c1 _ e HI1 Hin) as (h' & Hh' & _ & _ & Href).
  { rewrite Nat2Z.inj_succ. lia. }
  rewrite Hhe in Hh'. injection Hh' as <-.
  assert (handles c2 !! e = Some (set_refs 3 he)) as Hh2.
  { unfold Lookup in HLk. rewrite HL in HLk. cbn [mbind option_bind] in HLk.
    rewrite Href in HLk. cbn [mbind option_bind] in HLk.
    injection HLk as <-. cbn [handles]. by rewrite lookup_insert_eq. }
  destruct (Unref_detail _ c2 _ e HI2) as (h2 & Hh2' & _ & Hun).
  { apply elem_of_multiplicity. rewrite multiplicity_acquire, decide_True by done.
    lia. }
  { rewrite !Nat2Z.inj_succ. lia. }
  rewrite Hh2 in Hh2'. injection Hh2' as <-.
  cbn [refs set_refs] in Hun. rewrite decide_False in Hun by lia.
  eexists c1, c2, _. split; [done|]. split; [done|]. split; [done|].
  split; [done|]. split; [exact Hun|].
  cbn [handles]. by rewrite lookup_insert_eq.
Qed.

(** *** The load of the hash table *)

Lemma grow_ge rounds :
  ∀ new_length elems r,
    Table.grow rounds new_length elems = Some r → elems <= r.
Proof.
  induction rounds as [|rounds IH]; intros new_length elems r.
  - change (Table.grow 0 new_length elems)
      with (if new_length <? elems then @None Z else Some new_length).
    destruct (new_length <? elems) eqn:Hlt; [done|].
    intros [= <-]. by apply Z.ltb_ge.
  - rewrite grow_S. destruct (new_length <? elems) eqn:Hlt; [apply IH|].
    intros [= <-]. by apply Z.ltb_ge.
Qed.

Lemma join_replicate_nil {A} n : mjoin (replicate n ([] : list A)) = [].
Proof. induction n as [|n IH]; [done|]. cbn. exact IH. Qed.

Lemma rehash_length heap new_length hs :
  ∀ buckets buckets',
    Table.rehash heap new_length hs buckets = Some buckets' →
    length (mjoin buckets') = (length hs + length (mjoin buckets))%nat.
Proof.
  induction hs as [|p hs IH]; intros buckets buckets'; cbn [Table.rehash].
  - by intros [= <-].
  - destruct (heap !! p) as [h|]; [|done]. cbn [mbind option_bind]. cbv zeta.
    destruct (buckets !! Z.to_nat (Z.land (hash h) (new_length - 1)))
      as [chain|] eqn:Hc; [|done].
    cbn [mbind option_bind]. intros Hr. apply IH in Hr. rewrite Hr.
    destruct (join_insert_split buckets _ chain (p :: chain) Hc)
      as (before & after & -> & ->).
    rewrite !length_app. cbn [length]. lia.
Qed.

(** [HandleTable::Insert] leaves no more handles than buckets. *)
Lemma Table_Insert_load heap t e t' old :
  Table.Insert heap t e = Some (t', old) →
  elems_ t = Z.of_nat (length (entries t)) →
  length (list_ t) = Z.to_nat (length_ t) →
  elems_ t < 2 ^ 32 - 1 →
  Z.of_nat (length (entries t)) <= length_ t →
  Z.of_nat (length (entries t')) <= length_ t'.
Proof.
  intros HIns Hel Hlen Hsmall Hload. unfold Table.Insert in HIns.
  destruct (heap !! e) as [h|]; [|done]. cbn [mbind option_bind] in HIns.
  destruct (Table.FindPointer heap t (key h) (hash h)) as [[i pos]|]; [|done].
  cbn [mbind option_bind fst snd] in HIns.
  destruct (list_ t !! i) as [chain|] eqn:Hc; [|done].
  cbn [mbind option_bind] in HIns. cbv zeta in HIns.
  destruct (chain !! pos) as [o|] eqn:Hpos.
  - injection HIns as <- <-. unfold entries. cbn [list_ length_].
    destruct (join_insert_split (list_ t) i chain (<[pos := e]> chain) Hc)
      as (before & after & Hj & ->).
    unfold entries in Hload. rewrite Hj in Hload.
    rewrite !length_app in *. by rewrite length_insert.
  - cbn [length_ elems_ list_] in HIns.
    assert (to_uint32 (elems_ t + 1) = elems_ t + 1) as Hw.
    { unfold to_uint32. rewrite Z.mod_small; lia. }
    rewrite Hw in HIns.
    destruct (join_insert_split (list_ t) i chain (chain ++ [e]) Hc)
      as (before & after & Hj & Hj').
    assert (length (mjoin (<[i := chain ++ [e]]> (list_ t)))
            = S (length (entries t))) as Hgrown.
    { unfold entries. rewrite Hj, Hj', !length_app. cbn [length]. lia. }
    destruct (length_ t <? elems_ t + 1) eqn:Hlt.
    + unfold Table.Resize in HIns. cbn [elems_ length_ list_] in HIns.
      destruct (Table.grow 32 4 (elems_ t + 1)) as [new_length|] eqn:Hg;
        [|done].
      cbn [mbind option_bind] in HIns. cbv zeta in HIns.
      rewrite take_ge in HIns by (rewrite length_insert; lia).
      destruct (Table.rehash heap new_length
                  (mjoin (<[i := chain ++ [e]]> (list_ t)))
                  (replicate (Z.to_nat new_length) [])) as [new_list|] eqn:Hre;
        [|done].
      cbn [mbind option_bind] in HIns.
      destruct (decide (elems_ t + 1
                        = to_uint32 (Z.of_nat (length (mjoin
                            (<[i := chain ++ [e]]> (list_ t)))))));
        [rewrite option_guard_True in HIns by done
        |by rewrite option_guard_False in HIns by done].
      cbn [mbind option_bind] in HIns. injection HIns as <- <-.
      unfold entries at 1. cbn [list_ length_].
      rewrite (rehash_length _ _ _ _ _ Hre), join_replicate_nil, Hgrown.
      apply grow_ge in Hg. cbn [length]. lia.
    + cbn [mbind option_bind] in HIns. injection HIns as <- <-.
      unfold entries at 1. cbn [list_ length_]. rewrite Hgrown.
      apply Z.ltb_ge in Hlt. lia.
Qed.

(** [HandleTable::Remove] keeps the buckets and adds no handle. *)
Lemma Table_Remove_shrinks heap t k hsh t' r :
  Table.Remove heap t k hsh = Some (t', r) →
  length_ t' = length_ t
  ∧ (length (entries t') <= length (entries t))%nat.
Proof.
  unfold Table.Remove.
  destruct (Table.FindPointer heap t k hsh) as [[i pos]|]; [|done].
  cbn [mbind option_bind fst snd].
  destruct (list_ t !! i) as [chain|] eqn:Hc; [|done].
  cbn [mbind option_bind].
  destruct (chain !! pos) as [result|] eqn:Hpos.
  - intros [= <- <-]. split; [done|]. unfold entries. cbn [list_].
    destruct (join_insert_split (list_ t) i chain (delete pos chain) Hc)
      as (before & after & -> & ->).
    rewrite !length_app, length_delete by done. lia.
  - intros [= <- <-]. done.
Qed.

Lemma evict_oldest_shrinks old c c' :
  evict_oldest old c = Some c' →
  length_ (table_ c') = length_ (table_ c)
  ∧ (length (entries (table_ c')) <= length (entries (table_ c)))%nat.
Proof.
  unfold evict_oldest. destruct (handles c !! old) as [h|]; [|done].
  cbn [mbind option_bind]. guard_cases.
  destruct (Table.Remove (handles c) (table_ c) (key h) (hash h))
    as [[t removed]|] eqn:Hrm; [|done].
  cbn [mbind option_bind].
  destruct (FinishErase removed (set_table t c)) as [[erased c1]|] eqn:Hfe;
    [|done].
  cbn [mbind option_bind]. guard_cases. intros [= <-].
  destruct (FinishErase_frame _ _ _ _ Hfe) as (_ & -> & _). cbn [set_table table_].
  by eapply Table_Remove_shrinks.
Qed.

Lemma evict_shrinks rounds :
  ∀ c c', evict rounds c = Some c' →
  length_ (table_ c') = length_ (table_ c)
  ∧ (length (entries (table_ c')) <= length (entries (table_ c)))%nat.
Proof.
  induction rounds as [|rounds IH]; intros c c'; cbn [evict].
  - destruct (lru_ c) as [|old rest]; [by intros [= <-]|].
    destruct (capacity_ c <? usage_ c); [done|by intros [= <-]].
  - destruct (lru_ c) as [|old rest]; [by intros [= <-]|].
    destruct (capacity_ c <? usage_ c); [|by intros [= <-]].
    destruct (evict_oldest old c) as [c1|] eqn:Hev; [|done].
    cbn [mbind option_bind]. intros Hrest.
    destruct (evict_oldest_shrinks _ _ _ Hev) as [Hl1 He1].
    destruct (IH _ _ Hrest) as [Hl2 He2]. split; [congruence|lia].
Qed.

Lemma prune_shrinks rounds :
  ∀ c c', prune rounds c = Some c' →
  length_ (table_ c') = length_ (table_ c)
  ∧ (length (entries (table_ c')) <= length (entries (table_ c)))%nat.
Proof.
  induction rounds as [|rounds IH]; intros c c'; cbn [prune].
  - destruct (lru_ c) as [|old rest]; [by intros [= <-]|done].
  - destruct (lru_ c) as [|old rest]; [by intros [= <-]|].
    destruct (evict_oldest old c) as [c1|] eqn:Hev; [|done].
    cbn [mbind option_bind]. intros Hrest.
    destruct (evict_oldest_shrinks _ _ _ Hev) as [Hl1 He1].
    destruct (IH _ _ Hrest) as [Hl2 He2]. split; [congruence|lia].
Qed.

Lemma Erase_shrinks k hsh c c' :
  Erase k hsh c = Some c' →
  length_ (table_ c') = length_ (table_ c)
  ∧ (length (entries (table_ c')) <= length (entries (table_ c)))%nat.
Proof.
  unfold Erase.
  destruct (Table.Remove (handles c) (table_ c) k hsh)
    as [[t removed]|] eqn:Hrm; [|done].
  cbn [mbind option_bind].
  destruct (FinishErase removed (set_table t c)) as [[erased c1]|] eqn:Hfe;
    [|done].
  cbn [mbind option_bind]. intros [= <-].
  destruct (FinishErase_frame _ _ _ _ Hfe) as (_ & -> & _). cbn [set_table table_].
  by eapply Table_Remove_shrinks.
Qed.

Lemma Insert_load k hsh v ch d c e c' :
  Insert k hsh v ch d c = Some (e, c') →
  elems_ (table_ c) = Z.of_nat (length (entries (table_ c))) →
  length (list_ (table_ c)) = Z.to_nat (length_ (table_ c)) →
  elems_ (table_ c) < 2 ^ 32 - 1 →
  Z.of_nat (length (entries (table_ c))) <= length_ (table_ c) →
  Z.of_nat (length (entries (table_ c'))) <= length_ (table_ c').
Proof.
  intros HIns Hel Hlen Hsmall Hload. unfold Insert in HIns. cbv zeta in HIns.
  cbn [capacity_ usage_ lru_ in_use_ table_ handles set_handles LRU_Append
       set_in_use set_usage] in HIns.
  assert (∀ c1 c2, evict (length (lru_ c1)) c1 = Some c2 →
            Z.of_nat (length (entries (table_ c1))) <= length_ (table_ c1) →
            Z.of_nat (length (entries (table_ c2))) <= length_ (table_ c2))
    as Hevict.
  { intros c1 c2 Hev Hl1. destruct (evict_shrinks _ _ _ Hev) as [-> He]. lia. }
  destruct (0 <? capacity_ c).
  - match type of HIns with
    | context [Table.Insert ?heap ?t ?p] =>
        destruct (Table.Insert heap t p) as [[t1 old]|] eqn:HTI
    end; [|done].
    cbn [mbind option_bind] in HIns.
    match type of HIns with
    | context [FinishErase old ?c0] =>
        destruct (FinishErase old c0) as [[erased c1]|] eqn:Hfe
    end; [|done].
    cbn [mbind option_bind] in HIns.
    destruct (evict (length (lru_ c1)) c1) as [c2|] eqn:Hev; [|done].
    cbn [mbind option_bind] in HIns. injection HIns as <- <-.
    apply (Hevict _ _ Hev).
    destruct (FinishErase_frame _ _ _ _ Hfe) as (_ & -> & _).
    cbn [set_table table_].
    by apply (Table_Insert_load _ _ _ _ _ HTI).
  - cbn [mbind option_bind] in HIns.
    match type of HIns with
    | context [evict ?n ?c0] =>
        destruct (evict n c0) as [c2|] eqn:Hev
    end; [|done].
    cbn [mbind option_bind] in HIns. injection HIns as <- <-.
    by apply (Hevict _ _ Hev).
Qed.

Lemma step_load n s op s' :
  Inv None n s → Z.of_nat n < 2 ^ 31 → step op s = Some s' →
  Z.of_nat (length (entries (table_ (shard s)))) <= length_ (table_ (shard s)) →
  Z.of_nat (length (entries (table_ (shard s')))) <= length_ (table_ (shard s')).
Proof.
  intros HI Hn Hstep Hload.
  pose proof (inv_table _ _ _ HI) as Hok.
  pose proof (inv_entries_bound _ _ _ HI) as Hbound.
  destruct op as [k hsh v ch d|k hsh|handle|k hsh|]; cbn [step] in Hstep.
  - destruct (Insert k hsh v ch d (shard s)) as [[e c]|] eqn:HIns; [|done].
    cbn [mbind option_bind] in Hstep. injection Hstep as <-. cbn [shard].
    apply (Insert_load _ _ _ _ _ _ _ _ HIns); [apply Hok|apply Hok| |done].
    rewrite (tok_elems _ _ Hok). lia.
  - destruct (Lookup k hsh (shard s)) as [[e c]|] eqn:HL; [|done].
    cbn [mbind option_bind] in Hstep. injection Hstep as <-. cbn [shard].
    unfold Lookup in HL.
    destruct (Table.Lookup (handles (shard s)) (table_ (shard s)) k hsh)
      as [[p|]|]; cbn [mbind option_bind] in HL; [| |done].
    + destruct (Ref p (shard s)) as [c1|] eqn:Href; [|done].
      cbn [mbind option_bind] in HL. injection HL as <- <-.
      destruct (Ref_frame _ _ _ Href) as (_ & -> & _). done.
    + by injection HL as <- <-.
  - destruct (Release handle (shard s)) as [c|] eqn:Hrel; [|done].
    cbn [mbind option_bind] in Hstep. injection Hstep as <-. cbn [shard].
    destruct (Unref_frame _ _ _ Hrel) as (_ & -> & _). done.
  - destruct (Erase k hsh (shard s)) as [c|] eqn:HE; [|done].
    cbn [mbind option_bind] in Hstep. injection Hstep as <-. cbn [shard].
    destruct (Erase_shrinks _ _ _ _ HE) as [-> He]. lia.
  - destruct (Prune (shard s)) as [c|] eqn:HP; [|done].
    cbn [mbind option_bind] in Hstep. injection Hstep as <-. cbn [shard].
    destruct (prune_shrinks _ _ _ HP) as [-> He]. lia.
Qed.

Lemma Reachable_load capacity ops s :
  Reachable capacity ops s → Z.of_nat (length ops) < kMaxOperations →
  Z.of_nat (length (entries (table_ (shard s)))) <= length_ (table_ (shard s)).
Proof.
  unfold kMaxOperations.
  induction 1 as [|ops s op s' HR IH Hal Hstep]; intros Hlen.
  - cbn. lia.
  - rewrite length_app in Hlen. cbn [length] in Hlen.
    destruct (Reachable_Inv _ _ _ HR) as [HI _]; [unfold kMaxOperations; lia|].
    apply (step_load (length ops) s op s' HI); [lia|done|]. apply IH. lia.
Qed.

(** The hash table of a shard reached by fewer than [kMaxOperations]
    operations.  The number of buckets [length_] is a power of two, at
    least 4; [elems_] is the number of handles in the buckets and never
    more than the number of buckets, so that a chain has one handle on
    average at most; every handle is live and in the bucket
    [hash & (length_ - 1)]; no handle is in the table twice, and no two
    handles of the table have the same key and hash. *)
Theorem HandleTable_load_factor capacity ops s :
  Reachable capacity ops s → Z.of_nat (length ops) < kMaxOperations →
  let t := table_ (shard s) in
  (∃ j, 2 <= j <= 31 ∧ length_ t = 2 ^ j)
  ∧ length (list_ t) = Z.to_nat (length_ t)
  ∧ elems_ t = Z.of_nat (length (entries t))
  ∧ elems_ t <= length_ t
  ∧ NoDup (entries t)
  ∧ (∀ i chain p, list_ t !! i = Some chain → p ∈ chain →
       ∃ h, handles (shard s) !! p = Some h
            ∧ Z.to_nat (Z.land (hash h) (length_ t - 1)) = i)
  ∧ (∀ p q hp hq, p ∈ entries t → q ∈ entries t →
       handles (shard s) !! p = Some hp → handles (shard s) !! q = Some hq →
       hash hp = hash hq → key hp = key hq → p = q).
Proof.
  intros HR Hlen t.
  destruct (Reachable_Inv _ _ _ HR Hlen) as [HI _].
  pose proof (inv_table _ _ _ HI) as Hok. fold t in Hok.
  pose proof (Reachable_load _ _ _ HR Hlen) as Hload. fold t in Hload.
  split; [apply Hok|]. split; [apply Hok|]. split; [apply Hok|].
  split; [rewrite (tok_elems _ _ Hok); exact Hload|].
  split; [apply Hok|]. split; [|apply Hok].
  intros i chain p Hi Hp. exact (tok_bucket _ _ Hok i chain p Hi Hp).
Qed.

Lemma HandleTable_load_factor_witness :
  let ops := [DoInsert ["A"%byte] 1 7 1 0; DoInsert ["B"%byte] 5 8 1 0;
              DoInsert ["C"%byte] 9 9 1 0; DoInsert ["D"%byte] 13 10 1 0;
              DoInsert ["E"%byte] 17 11 1 0] in
  let s := default (start 10) (run ops (start 10)) in
  Reachable 10 ops s
  ∧ Z.of_nat (length ops) < kMaxOperations
  ∧ elems_ (table_ (shard s)) = 5 ∧ length_ (table_ (shard s)) = 8
  ∧ elems_ (table_ (shard s)) <= length_ (table_ (shard s)).
Proof.
  intros ops s.
  assert (Reachable 10 ops s) as HR.
  { apply run_start_Reachable. vm_compute. reflexivity. }
  assert (Z.of_nat (length ops) < kMaxOperations) as Hb by reflexivity.
  split; [exact HR|]. split; [exact Hb|].
  split; [vm_compute; reflexivity|]. split; [vm_compute; reflexivity|].
  destruct (HandleTable_load_factor 10 ops s HR Hb) as (_ & _ & _ & Hle & _).
  exact Hle.
Defined.
End CacheFacts.

(** ** Sharded LRU cache *)

Section ShardedFacts.
Import Cache Sharded.

Variable Hash : Slice → Z → Z.
Hypothesis Hash_range : ∀ s seed, 0 <= Hash s seed < 2 ^ 32.

Lemma Shard_range hash :
  0 <= hash < 2 ^ 32 →
  (Shard hash < 16)%nat ∧ Z.of_nat (Shard hash) = hash / 2 ^ 28.
Proof.
  intros Hh. unfold Shard, kNumShardBits. change (32 - 4) with 28.
  rewrite Z.shiftr_div_pow2 by lia.
  assert (0 <= hash / 2 ^ 28 < 16) as Hq.
  { split; [apply Z.div_pos; lia|]. apply Z.div_lt_upper_bound; lia. }
  split; lia.
Qed.

(** [Lookup] on a shard that has never been used misses. *)
Lemma Lookup_new_shard capacity k hsh :
  Cache.Lookup k hsh (SetCapacity capacity LRUCache_new)
  = Some (None, SetCapacity capacity LRUCache_new).
Proof.
  pose proof (Inv_init capacity) as HI. unfold start in HI.
  unfold Cache.Lookup.
  destruct (Table_Lookup_spec (handles (SetCapacity capacity LRUCache_new))
              (table_ (SetCapacity capacity LRUCache_new)) k hsh)
    as (r & -> & Hr); [apply HI|].
  destruct r as [p|]; [|done]. destruct Hr as [Hp _].
  by apply elem_of_nil in Hp.
Qed.

(** [NewLRUCache(capacity)]: sixteen shards, each with the capacity
    [(capacity + 15) / 16] computed in [size_t]: the total capacity divided
    by 16 and rounded up, unless [capacity + 15] wraps, in which case it is
    0 and nothing is cached.  The four high bits of a key's 32-bit hash
    always select one of the sixteen shards, and a [Lookup] on the new
    cache misses and changes nothing. *)
Theorem NewLRUCache_shards (capacity : Z) (key : Slice) :
  0 <= capacity < 2 ^ 64 →
  let sc := NewLRUCache capacity in
  let per_shard :=
    if decide (capacity <= 2 ^ 64 - 16) then (capacity + 15) / 16 else 0 in
  shard_ sc = replicate 16 (SetCapacity per_shard LRUCache_new)
  ∧ last_id_ sc = 0
  ∧ (capacity <= 2 ^ 64 - 16 → capacity <= 16 * per_shard < capacity + 16)
  ∧ (Shard (HashSlice Hash key) < 16)%nat
  ∧ Z.of_nat (Shard (HashSlice Hash key)) = HashSlice Hash key / 2 ^ 28
  ∧ shard_ sc !! Shard (HashSlice Hash key)
    = Some (SetCapacity per_shard LRUCache_new)
  ∧ TotalCharge sc = 0
  ∧ Lookup Hash key sc = Some (None, sc).
Proof using Hash_range.
  intros Hcap sc per_shard.
  destruct (Shard_range (HashSlice Hash key) (Hash_range key 0)) as [Hlt Hdiv].
  assert (shard_ sc = replicate 16 (SetCapacity per_shard LRUCache_new)) as Hsh.
  { unfold sc, NewLRUCache, ShardedLRUCache_new, kNumShards, kNumShardBits.
    cbv zeta. cbn [shard_]. change (Z.shiftl 1 4) with 16.
    change (Z.to_nat 16) with 16%nat. do 2 f_equal.
    unfold per_shard, to_uint64. case_decide as Hle.
    - rewrite Z.mod_small by lia. done.
    - replace ((capacity + (16 - 1)) mod 2 ^ 64)
        with (capacity + 15 - 2 ^ 64).
      + apply Z.div_small. lia.
      + apply Z.mod_unique with 1; lia. }
  assert (shard_ sc !! Shard (HashSlice Hash key)
          = Some (SetCapacity per_shard LRUCache_new)) as Hlk.
  { rewrite Hsh. by apply lookup_replicate_2. }
  split; [done|]. split; [done|]. split; [|split; [done|]; split; [done|];
    split; [done|]; split].
  - intros Hle. unfold per_shard. rewrite decide_True by done.
    pose proof (Z.div_mod (capacity + 15) 16 ltac:(lia)) as Hdm.
    pose proof (Z.mod_pos_bound (capacity + 15) 16 ltac:(lia)) as Hm.
    lia.
  - unfold TotalCharge. rewrite Hsh. reflexivity.
  - unfold Lookup. cbv zeta. rewrite Hlk. cbn [mbind option_bind].
    rewrite Lookup_new_shard. cbn [mbind option_bind]. do 2 f_equal.
    unfold set_shard. destruct sc as [shards id]. cbn [shard_ last_id_] in *.
    f_equal. by apply list_insert_id.
Qed.

(** [Insert], [Value], [Lookup] and [Release] through the sharded cache,
    for a key whose shard is reachable and caches: [Insert] returns a new
    handle of that shard; [Value] of the handle is the value that was
    inserted; [Lookup] of the key returns the same handle; [Release] finds
    the handle's shard again from the hash in the handle; and no other
    shard and no id is touched. *)
Theorem Sharded_Insert_Lookup_Release (sc : ShardedLRUCache) capacity ops c X
    key v ch d :
  shard_ sc !! Shard (HashSlice Hash key) = Some c →
  Reachable capacity ops {| shard := c; held := X |} →
  Z.of_nat (length ops) + 2 < kMaxOperations → 0 < capacity →
  let i := Shard (HashSlice Hash key) in
  let handle := {| shard_of := i; in_shard := next_handle c |} in
  ∃ sc1 sc2 sc3,
    Insert Hash key v ch d sc = Some (handle, sc1)
    ∧ Value handle sc1 = Some v
    ∧ Lookup Hash key sc1 = Some (Some handle, sc2)
    ∧ Release handle sc2 = Some sc3
    ∧ Value handle sc3 = Some v
    ∧ (∀ j, j ≠ i → shard_ sc3 !! j = shard_ sc !! j)
    ∧ length (shard_ sc3) = length (shard_ sc)
    ∧ last_id_ sc3 = last_id_ sc.
Proof.
  intros Hc HR Hlen Hcap i handle.
  change (shard_ sc !! i = Some c) in Hc.
  destruct (Reachable_Inv _ _ _ HR) as [HI _]; [lia|].
  destruct (Reachable_payload _ _ _ HR) as (_ & Hk & _). cbn [shard] in Hk.
  unfold kMaxOperations in Hlen.
  destruct (Insert_Lookup_Release_detail _ c X key (HashSlice Hash key) v ch d HI)
    as (c1 & c2 & c3 & HIns & Hh1 & HL & Hh2 & Hrel & Hh3); [lia|lia|].
  assert (i < length (shard_ sc))%nat as Hi by (by eapply lookup_lt_Some).
  assert (∀ l (x : LRUCache), (i < length l)%nat → <[i := x]> l !! i = Some x)
    as Hset.
  { intros l x Hl. by apply list_lookup_insert_eq. }
  exists (set_shard i c1 sc), (set_shard i c2 (set_shard i c1 sc)),
    (set_shard i c3 (set_shard i c2 (set_shard i c1 sc))).
  split_and!.
  - unfold Insert. cbv zeta. fold i. rewrite Hc. cbn [mbind option_bind].
    rewrite HIns. done.
  - unfold Value. cbn [shard_of in_shard set_shard shard_ handle].
    rewrite Hset by done. cbn [mbind option_bind]. rewrite Hh1. done.
  - unfold Lookup. cbv zeta. fold i. cbn [set_shard shard_].
    rewrite Hset by done. cbn [mbind option_bind]. rewrite HL. done.
  - unfold Release. cbn [shard_of in_shard set_shard shard_ handle].
    rewrite Hset by (by rewrite length_insert). cbn [mbind option_bind].
    rewrite Hh2. cbn [mbind option_bind hash set_refs]. fold i.
    rewrite option_guard_True by done. cbn [mbind option_bind].
    rewrite Hset by (by rewrite length_insert). cbn [mbind option_bind].
    rewrite Hrel. done.
  - unfold Value. cbn [shard_of in_shard set_shard shard_ handle].
    rewrite Hset by (by rewrite !length_insert). cbn [mbind option_bind].
    rewrite Hh3. done.
  - intros j Hj. cbn [set_shard shard_].
    by rewrite !list_lookup_insert_ne.
  - cbn [set_shard shard_]. by rewrite !length_insert.
  - done.
Qed.

End ShardedFacts.

Lemma NewLRUCache_shards_witness :
  let Hash := λ (s : Slice) (seed : Z), 0 in
  (∀ s seed, 0 <= Hash s seed < 2 ^ 32)
  ∧ 0 <= 100 < 2 ^ 64
  ∧ Sharded.shard_ (Sharded.NewLRUCache 100)
    = replicate 16 (Cache.SetCapacity 7 Cache.LRUCache_new)
  ∧ Sharded.Lookup Hash ["k"%byte] (Sharded.NewLRUCache 100)
    = Some (None, Sharded.NewLRUCache 100).
Proof.
  intros Hash.
  assert (∀ s seed, 0 <= Hash s seed < 2 ^ 32) as Hr by (intros; unfold Hash; lia).
  assert (0 <= 100 < 2 ^ 64) as Hc by lia.
  split; [exact Hr|]. split; [exact Hc|].
  destruct (NewLRUCache_shards Hash Hr 100 ["k"%byte] Hc)
    as (Hsh & _ & _ & _ & _ & _ & _ & HL).
  split; [exact Hsh|exact HL].
Defined.

Lemma Sharded_Insert_Lookup_Release_witness :
  let Hash := λ (s : Slice) (seed : Z), 0 in
  let sc := Sharded.NewLRUCache 100 in
  let c := Cache.SetCapacity 7 Cache.LRUCache_new in
  let handle := {| Sharded.shard_of := 0; Sharded.in_shard := 0 |} in
  Sharded.shard_ sc !! Sharded.Shard (Sharded.HashSlice Hash ["k"%byte]) = Some c
  ∧ Cache.Reachable 7 [] {| Cache.shard := c; Cache.held := ∅ |}
  ∧ Z.of_nat (length ([] : list Cache.Operation)) + 2 < Cache.kMaxOperations
  ∧ 0 < 7
  ∧ ∃ sc1 sc2 sc3,
      Sharded.Insert Hash ["k"%byte] 42 1 0 sc = Some (handle, sc1)
      ∧ Sharded.Value handle sc1 = Some 42
      ∧ Sharded.Lookup Hash ["k"%byte] sc1 = Some (Some handle, sc2)
      ∧ Sharded.Release handle sc2 = Some sc3.
Proof.
  intros Hash sc c handle.
  assert (Sharded.shard_ sc
            !! Sharded.Shard (Sharded.HashSlice Hash ["k"%byte]) = Some c) as Hc
    by reflexivity.
  assert (Cache.Reachable 7 [] {| Cache.shard := c; Cache.held := ∅ |}) as HR
    by apply Cache.Reachable_init.
  assert (Z.of_nat (length ([] : list Cache.Operation)) + 2
          < Cache.kMaxOperations) as Hb by reflexivity.
  assert (0 < 7) as Hp by reflexivity.
  split; [exact Hc|]. split; [exact HR|]. split; [exact Hb|]. split; [exact Hp|].
  destruct (Sharded_Insert_Lookup_Release Hash sc 7 [] c ∅ ["k"%byte] 42 1 0
              Hc HR Hb Hp)
    as (sc1 & sc2 & sc3 & H1 & H2 & H3 & H4 & _).
  exists sc1, sc2, sc3. repeat split; assumption.
Defined.

(** [NewId] counts: [n] calls on a cache whose [last_id_] is [id] return
    [id + 1], ..., [id + n] as long as these are below [2^64], and change
    nothing else. *)
Lemma NewIds_spec n :
  ∀ sc, 0 <= Sharded.last_id_ sc →
  Sharded.last_id_ sc + Z.of_nat n < 2 ^ 64 →
  Sharded.NewIds n sc
  = ((λ i, Sharded.last_id_ sc + Z.of_nat i) <$> seq 1 n,
     {| Sharded.shard_ := Sharded.shard_ sc;
        Sharded.last_id_ := Sharded.last_id_ sc + Z.of_nat n |}).
Proof.
  induction n as [|n IH]; intros sc H0 Hn.
  - cbn. rewrite Z.add_0_r. by destruct sc.
  - cbn [Sharded.NewIds Sharded.NewId]. cbv zeta.
    assert (to_uint64 (Sharded.last_id_ sc + 1) = Sharded.last_id_ sc + 1) as ->
      by (unfold to_uint64; rewrite Z.mod_small; lia).
    rewrite IH by (cbn [Sharded.last_id_]; lia).
    cbn [Sharded.shard_ Sharded.last_id_ seq fmap list_fmap].
    f_equal; [f_equal|f_equal; lia].
    rewrite <- !seq_shift, <- !list_fmap_compose. apply list_fmap_ext.
    intros j x _. cbn. lia.
Qed.

(** [NewId] on a new cache: the [n]-th call returns [n]; the ids of fewer
    than [2^64] calls are different from each other and from 0, and the
    shards are not touched. *)
Theorem NewId_fresh (capacity : Z) (n : nat) :
  Z.of_nat n < 2 ^ 64 →
  let sc := Sharded.NewLRUCache capacity in
  (Sharded.NewIds n sc).1 = Z.of_nat <$> seq 1 n
  ∧ NoDup (Sharded.NewIds n sc).1
  ∧ (0 ∉ (Sharded.NewIds n sc).1)
  ∧ Sharded.last_id_ (Sharded.NewIds n sc).2 = Z.of_nat n
  ∧ Sharded.shard_ (Sharded.NewIds n sc).2 = Sharded.shard_ sc.
Proof.
  intros Hn sc. rewrite (NewIds_spec n sc) by (cbn; lia). cbn [fst snd].
  change (Sharded.last_id_ sc) with 0.
  split; [|split; [|split; [|split]]].
  - apply list_fmap_ext. intros j x _. lia.
  - apply NoDup_fmap_2; [|apply NoDup_seq].
    intros x y Hxy. lia.
  - intros [j [Hj Hin]]%list_elem_of_fmap. apply elem_of_seq in Hin. lia.
  - cbn [Sharded.last_id_]. lia.
  - reflexivity.
Qed.

Lemma NewId_fresh_witness :
  Z.of_nat 3 < 2 ^ 64
  ∧ (Sharded.NewIds 3 (Sharded.NewLRUCache 100)).1 = [1; 2; 3].
Proof.
  assert (Z.of_nat 3 < 2 ^ 64) as Hn by reflexivity.
  split; [exact Hn|].
  exact (proj1 (NewId_fresh 100 3 Hn)).
Defined.
